(** * FileLocker (lockfile.py): a ticket lock on a shared directory

    A shallow embedding of [FileLocker] and of the termination hook
    [__unlockall].  A handle is a record of its attributes; the methods are
    computations in a state-and-exception monad over the handle and the
    world it runs in.  The world holds the shared directory, the
    process-wide registry [INSTANCES_LOCKED], a script of what the
    environment does around each system call (peers creating and removing
    files, I/O faults, clock readings, random draws) and the log of the
    calls made so far.

    Timestamps ([time.time()], file modification times) are integers
    counting microseconds since the epoch, the resolution of [datetime];
    a naive local [datetime], as [datetime.fromtimestamp] gives it, is the
    integer counting the microseconds of its wall-clock reading.  The
    [timeout] attribute counts seconds, as in the source.  What [re] and
    [datetime] do is taken from a record of library functions.  The
    [while] loops of [lock] take fuel: a loop that has not ended when the
    fuel is spent gives [OutOfFuel]. *)

From stdpp Require Import gmap strings list.
From Stdlib Require Import ZArith Lia Ascii.

Open Scope Z_scope.

(** ** Paths, system calls, exceptions *)

(** [os.path.join(folder, name)] for an entry of a directory, kept as the
    pair it was built from. *)
Definition path : Type := string * string.

Inductive syscall : Type :=
| Listdir (folder : string)
| Getmtime (p : path)
| Remove (p : path)
| Isfile (p : path)
| OpenW (p : path)
| Mkstemp (folder : string)
| TempStat (folder : string)
| TempClose (folder : string)
| Isdir (p : string)
| TimeTime
| TimeSleep
| Randrange
| Localtime.                        (* the C [localtime] behind [datetime.fromtimestamp] *)

Inductive exn : Type :=
| RuntimeError (msg : string)
| TimeoutError (seconds : Z)
| OSError (call : syscall)
| CannotCreateLockFile (p : path)   (* Exception("Cannot create the lock file: '<p>'") *)
| ValueError                        (* min() of an empty sequence; a year out of range *)
| TypeError                         (* arithmetic or path operation on None *)
| UserError (code : nat)            (* raised by a wrapped callable *)
| NotInExistingDirectory (p : string)    (* Exception("The specified path is not contained ...") *)
| ReError (pattern : string)        (* re.error: the pattern does not compile *)
| OverflowError.                    (* a timestamp out of the platform's range *)

Global Instance syscall_eq_dec : EqDecision syscall.
Proof. solve_decision. Defined.

Global Instance exn_eq_dec : EqDecision exn.
Proof. solve_decision. Defined.

(** [except RuntimeError]. *)
Definition is_RuntimeError (e : exn) : bool :=
  match e with RuntimeError _ => true | _ => false end.

(** [except OSError] (and [except IOError], its alias); the built-in
    [TimeoutError] is a subclass of [OSError]. *)
Definition is_OSError (e : exn) : bool :=
  match e with OSError _ | TimeoutError _ => true | _ => false end.

Definition already_locked : exn := RuntimeError "Locker already locked".
Definition set_changed_size : exn := RuntimeError "Set changed size during iteration".

(** ** The world *)

Inductive peer_action : Type :=
| PeerCreate (p : path) (mtime : Z)
| PeerRemove (p : path).

(** What the environment does around one system call: the peers act just
    before it, the call may fail with an I/O error, and it may read a
    value (the clock, the stamp the storage gives a new file, a random
    draw). *)
Record env_step : Type := EnvStep {
  peers : list peer_action;
  fault : bool;
  reading : Z
}.

Definition quiet_step : env_step := EnvStep [] false 0.

Record World : Type := mkWorld {
  files : gmap path Z;                 (* directory entries and their mtime *)
  dirs : list string;                  (* the paths [os.path.isdir] answers true for *)
  INSTANCES_LOCKED : list nat;         (* the WeakSet, by object identity *)
  next_oid : nat;                      (* identity of the next object created *)
  env : list env_step;                 (* the environment's script *)
  trace : list (syscall * bool)        (* calls made, with their success *)
}.

Definition apply_peer (fs : gmap path Z) (a : peer_action) : gmap path Z :=
  match a with
  | PeerCreate p t => <[p:=t]> fs
  | PeerRemove p => delete p fs
  end.

Definition set_files (fs : gmap path Z) (w : World) : World :=
  mkWorld fs (dirs w) (INSTANCES_LOCKED w) (next_oid w) (env w) (trace w).

Definition set_registry (r : list nat) (w : World) : World :=
  mkWorld (files w) (dirs w) r (next_oid w) (env w) (trace w).

Definition log (c : syscall) (ok : bool) (w : World) : World :=
  mkWorld (files w) (dirs w) (INSTANCES_LOCKED w) (next_oid w) (env w) (trace w ++ [(c, ok)]).

(** The environment's next step: its peers act on the directory. *)
Definition next_env (w : World) : env_step * World :=
  match env w with
  | [] => (quiet_step, w)
  | e :: es =>
      (e, mkWorld (foldl apply_peer (files w) (peers e)) (dirs w) (INSTANCES_LOCKED w)
                  (next_oid w) es (trace w))
  end.

(** ** The monad: state, exceptions, fuel for the [while] loops *)

Inductive outcome (A : Type) : Type :=
| Ok (a : A)
| Raise (e : exn)
| OutOfFuel.
Arguments Ok {A} a.
Arguments Raise {A} e.
Arguments OutOfFuel {A}.

Definition M (S A : Type) : Type := S → outcome A * S.

Definition ret {S A} (a : A) : M S A := λ s, (Ok a, s).

Definition bind {S A B} (m : M S A) (k : A → M S B) : M S B :=
  λ s, match m s with
       | (Ok a, s') => k a s'
       | (Raise e, s') => (Raise e, s')
       | (OutOfFuel, s') => (OutOfFuel, s')
       end.

Definition raise {S A} (e : exn) : M S A := λ s, (Raise e, s).

Definition out_of_fuel {S A} : M S A := λ s, (OutOfFuel, s).

(** [try: m  except <class>: handler]. *)
Definition try_except {S A} (m : M S A) (catch : exn → bool) (handler : exn → M S A) : M S A :=
  λ s, match m s with
       | (Raise e, s') => if catch e then handler e s' else (Raise e, s')
       | r => r
       end.

Declare Scope monad_scope.
Delimit Scope monad_scope with monad.
Notation "'let*' x ':=' m 'in' k" := (bind m (λ x, k))
  (at level 10, x pattern, m at level 100, k at level 200) : monad_scope.
Notation "m ;; k" := (bind m (λ _, k))
  (at level 100, k at level 200, right associativity) : monad_scope.
Open Scope monad_scope.

(** ** System calls *)

(** A call that fails on a fault of the environment or when [f] has no
    result (the file is missing). *)
Definition sys {A} (c : syscall) (f : env_step → gmap path Z → option (A * gmap path Z)) : M World A :=
  λ w, let '(e, w1) := next_env w in
       match (if fault e then None else f e (files w1)) with
       | Some (a, fs) => (Ok a, log c true (set_files fs w1))
       | None => (Raise (OSError c), log c false w1)
       end.

(** A call that cannot fail. *)
Definition sys_total {A} (c : syscall) (f : env_step → gmap path Z → A) : M World A :=
  λ w, let '(e, w1) := next_env w in (Ok (f e (files w1)), log c true w1).

Definition listdir (folder : string) (fs : gmap path Z) : list string :=
  (λ kv, snd (fst kv)) <$> filter (λ kv, fst (fst kv) = folder) (map_to_list fs).

Definition os_listdir (folder : string) : M World (list string) :=
  sys (Listdir folder) (λ _ fs, Some (listdir folder fs, fs)).

Definition os_path_getmtime (p : path) : M World Z :=
  sys (Getmtime p) (λ _ fs, (λ t, (t, fs)) <$> fs !! p).

Definition os_remove (p : path) : M World unit :=
  sys (Remove p) (λ _ fs, match fs !! p with Some _ => Some (tt, delete p fs) | None => None end).

(** [os.path.isfile] never raises: it answers [False] when there is no
    such file, and also when its [os.stat] fails with any other
    [OSError].  The log tells whether the stat went through. *)
Definition os_path_isfile (p : path) : M World bool :=
  λ w, let '(e, w1) := next_env w in
       if fault e then (Ok false, log (Isfile p) false w1)
       else (Ok (bool_decide (is_Some (files w1 !! p))), log (Isfile p) true w1).

(** [open(p, 'w').close()]: creates or truncates; the storage stamps the
    modification time. *)
Definition open_w_close (p : path) : M World unit :=
  sys (OpenW p) (λ e fs, Some (tt, <[p:=reading e]> fs)).

(** [tempfile.NamedTemporaryFile(dir=folder)]: the throwaway file gets the
    storage's current time as its mtime; it is gone again after
    [tempPath.close()] and is not kept in [files]. *)
Definition NamedTemporaryFile (folder : string) : M World Z :=
  sys (Mkstemp folder) (λ e fs, Some (reading e, fs)).

Definition temp_getmtime (folder : string) (stamp : Z) : M World Z :=
  sys (TempStat folder) (λ _ fs, Some (stamp, fs)).

Definition temp_close (folder : string) : M World unit :=
  sys (TempClose folder) (λ _ fs, Some (tt, fs)).

Definition time_time : M World Z := sys_total TimeTime (λ e _, reading e).

Definition time_sleep : M World unit := sys_total TimeSleep (λ _ _, tt).

(** [_RAND_RANGE = 10e5], the float 1000000.0, which [randrange] takes
    for the integer it equals. *)
Definition _RAND_RANGE : Z := 1000000.

(** [random.randrange(FileLocker._RAND_RANGE)]. *)
Definition random_randrange : M World Z :=
  sys_total Randrange (λ e _, reading e mod _RAND_RANGE).

(** ** The handle *)

Record FileLocker : Type := mkFileLocker {
  oid : nat;                          (* object identity, as the WeakSet sees it *)
  timeout : Z;
  __folder : string;
  __filename : string;
  __pathLocker : option path;
  __id : Z;
  __isLocked : bool;
  __start : option Z;
  __serverTimeLock : option Z
}.

Definition set_pathLocker (v : option path) (h : FileLocker) : FileLocker :=
  mkFileLocker (oid h) (timeout h) (__folder h) (__filename h) v (__id h)
               (__isLocked h) (__start h) (__serverTimeLock h).

Definition set_id (v : Z) (h : FileLocker) : FileLocker :=
  mkFileLocker (oid h) (timeout h) (__folder h) (__filename h) (__pathLocker h) v
               (__isLocked h) (__start h) (__serverTimeLock h).

Definition set_isLocked (v : bool) (h : FileLocker) : FileLocker :=
  mkFileLocker (oid h) (timeout h) (__folder h) (__filename h) (__pathLocker h) (__id h)
               v (__start h) (__serverTimeLock h).

Definition set_start (v : option Z) (h : FileLocker) : FileLocker :=
  mkFileLocker (oid h) (timeout h) (__folder h) (__filename h) (__pathLocker h) (__id h)
               (__isLocked h) v (__serverTimeLock h).

Definition set_serverTimeLock (v : option Z) (h : FileLocker) : FileLocker :=
  mkFileLocker (oid h) (timeout h) (__folder h) (__filename h) (__pathLocker h) (__id h)
               (__isLocked h) (__start h) v.

(** The public attribute [timeout] can be reassigned by the caller. *)
Definition set_timeout (v : Z) (h : FileLocker) : FileLocker :=
  mkFileLocker (oid h) v (__folder h) (__filename h) (__pathLocker h) (__id h)
               (__isLocked h) (__start h) (__serverTimeLock h).

(** A method runs on its handle and on the world. *)
Definition Self : Type := FileLocker * World.

Definition liftW {A} (m : M World A) : M Self A :=
  λ s, let '(r, w) := m (snd s) in (r, (fst s, w)).

Definition self : M Self FileLocker := λ s, (Ok (fst s), s).

Definition update (f : FileLocker → FileLocker) : M Self unit :=
  λ s, (Ok tt, (f (fst s), snd s)).

Definition update_world (f : World → World) : M Self unit :=
  λ s, (Ok tt, (fst s, f (snd s))).

(** Microseconds in [n] seconds. *)
Definition seconds (n : Z) : Z := n * 1000000.

(** ** Ticket names *)

Definition digit_char (d : Z) : ascii := ascii_of_nat (48 + Z.to_nat d).

(** [width] decimal digits of [n], zero padded: ["{:06d}".format(n)] at
    width 6 for the ids drawn, which are in [0, 10^6). *)
Fixpoint zfill (width : nat) (n : Z) : string :=
  match width with
  | O => ""
  | S k => zfill k (n / 10) +:+ String (digit_char (n mod 10)) ""
  end.

(** [FileLocker._LOCK_FORMAT.format(filename, id)]. *)
Definition _LOCK_FORMAT (filename : string) (i : Z) : string :=
  filename +:+ "." +:+ zfill 6 i.

(** [FileLocker._LOCK_REGEX_FORMAT.format(filename)]: the base name goes
    into the pattern as it is, unescaped. *)
Definition _LOCK_REGEX_FORMAT (filename : string) : string :=
  filename +:+ "\.(?P<counter>[0-9]{6})".

(** [min(ids)]. *)
Definition py_min {S} (l : list Z) : M S Z :=
  match l with
  | [] => raise ValueError
  | x :: l' => ret (foldl Z.min x l')
  end.

(** [for x in l: body(x)]. *)
Fixpoint for_each {S A} (body : A → M S unit) (l : list A) : M S unit :=
  match l with
  | [] => ret tt
  | x :: l' => body x ;; for_each body l'
  end.

(** [INSTANCES_LOCKED.add(self)] and [INSTANCES_LOCKED.remove(self)]. *)
Definition registry_add (o : nat) (l : list nat) : list nat :=
  if bool_decide (o ∈ l) then l else l ++ [o].

Definition registry_remove (o : nat) (l : list nat) : list nat :=
  filter (λ x, x ≠ o) l.

(** ** What the handle takes from the standard library *)

(** What [datetime.datetime.fromtimestamp(t)] does for a timestamp. *)
Inductive conversion : Type :=
| Local (d : Z)        (* the naive local datetime of the timestamp *)
| Overflow             (* OverflowError: out of the range of the platform's time *)
| YearOutOfRange       (* ValueError: the year is out of the range of [datetime] *)
| LocaltimeFailed.     (* OSError: [localtime] failed *)

(** [re_compiles pattern]: whether [re.compile(pattern)] returns; it raises
    [re.error] otherwise.  [re_match filename name]: the pattern compiled
    from [_LOCK_REGEX_FORMAT.format(filename)], for a base name from which
    it compiles, matched against a directory entry with [pattern.match];
    on a match, [int(match.group("counter"))].  [fromtimestamp]: the local
    time of the process, with the time zone it runs under. *)
Record Library : Type := mkLibrary {
  re_compiles : string → bool;
  re_match : string → string → option Z;
  fromtimestamp : Z → conversion
}.

Section Methods.

Variable lib : Library.

(** [datetime.datetime.fromtimestamp(t)]. *)
Definition datetime_fromtimestamp {S} (t : Z) : M S Z :=
  match fromtimestamp lib t with
  | Local d => ret d
  | Overflow => raise OverflowError
  | YearOutOfRange => raise ValueError
  | LocaltimeFailed => raise (OSError Localtime)
  end.

(** The reference clock (property [_serverTimeLock]). *)
Definition _serverTimeLock : M Self Z :=
  let* h := self in
  match __serverTimeLock h with
  | Some t => ret t
  | None =>
      let* tempPath := liftW (NamedTemporaryFile (__folder h)) in
      let* mtime := liftW (temp_getmtime (__folder h) tempPath) in
      let* t := datetime_fromtimestamp mtime in
      update (set_serverTimeLock (Some t)) ;;
      liftW (temp_close (__folder h)) ;;
      ret t
  end.

Definition fileLockerMatches (filename : string) (names : list string) : list (string * Z) :=
  omap (λ n, (λ c, (n, c)) <$> re_match lib filename n) names.

(** The body of the clean-up loop for one matched file, with its
    [try ... except OSError: pass]. *)
Definition reap (p : path) : M Self unit :=
  try_except
    (let* h := self in
     let* mtime := liftW (os_path_getmtime p) in
     let* serverTimeOtherLock := datetime_fromtimestamp mtime in
     let* serverTime := _serverTimeLock in
     if seconds (timeout h) <? serverTime - serverTimeOtherLock
     then liftW (os_remove p)
     else ret tt)
    is_OSError
    (λ _, ret tt).

Definition __getLockFileIds : M Self (list Z) :=
  let* h := self in
  let pattern := _LOCK_REGEX_FORMAT (__filename h) in
  if re_compiles lib pattern then
    let* names := liftW (os_listdir (__folder h)) in
    let matches := fileLockerMatches (__filename h) names in
    let fullPaths := (λ m, (__folder h, fst m)) <$> matches in
    for_each reap fullPaths ;;
    ret (snd <$> matches)
  else raise (ReError pattern).

Definition unlock : M Self unit :=
  let* h := self in
  update_world (λ w, set_registry (registry_remove (oid h) (INSTANCES_LOCKED w)) w) ;;
  match __pathLocker h with
  | None => ret tt
  | Some p =>
      let* present := liftW (os_path_isfile p) in
      if present then liftW (os_remove p) else ret tt
  end.

Definition __sleep : M Self unit :=
  let* h := self in
  match __start h with
  | None => raise TypeError
  | Some start =>
      let* now := liftW time_time in
      if start + seconds (timeout h) <? now
      then unlock ;; raise (TimeoutError (timeout h))
      else liftW time_sleep
  end.

Definition locked (h : FileLocker) : bool := __isLocked h.

(** [while self.__pathLocker is None or os.path.isfile(self.__pathLocker)]. *)
Fixpoint draw_ticket (fuel : nat) : M Self unit :=
  match fuel with
  | O => out_of_fuel
  | S fuel' =>
      let* h := self in
      let* again :=
        match __pathLocker h with
        | None => ret true
        | Some p => liftW (os_path_isfile p)
        end in
      if again : bool then
        let* i := liftW random_randrange in
        update (set_id i) ;;
        update (set_pathLocker (Some (__folder h, _LOCK_FORMAT (__filename h) i))) ;;
        draw_ticket fuel'
      else ret tt
  end.

(** [try: open(self.__pathLocker, 'w').close()  except IOError: raise Exception(...)]. *)
Definition create_ticket : M Self unit :=
  let* h := self in
  match __pathLocker h with
  | None => raise TypeError
  | Some p =>
      try_except (liftW (open_w_close p)) is_OSError
                 (λ _, raise (CannotCreateLockFile p))
  end.

(** One turn of the inner [while True] loop; [true] when it breaks. *)
Definition poll : M Self bool :=
  __sleep ;;
  let* ids := __getLockFileIds in
  let* lowest := py_min ids in
  let* h := self in
  if lowest =? __id h
  then update (set_isLocked false) ;; ret true
  else ret false.

Fixpoint wait (fuel : nat) : M Self unit :=
  match fuel with
  | O => out_of_fuel
  | S fuel' =>
      let* acquired := poll in
      if acquired : bool then ret tt else wait fuel'
  end.

(** [while self.__isLocked: ...]. *)
Fixpoint lock_loop (fuel : nat) : M Self unit :=
  match fuel with
  | O => out_of_fuel
  | S fuel' =>
      let* h := self in
      if __isLocked h then
        let* ids := __getLockFileIds in
        match ids with
        | [] => draw_ticket fuel' ;; create_ticket ;; wait fuel' ;; lock_loop fuel'
        | _ :: _ => __sleep ;; lock_loop fuel'
        end
      else ret tt
  end.

Definition lock (fuel : nat) : M Self unit :=
  let* h := self in
  if __isLocked h then raise already_locked
  else
    update_world (λ w, set_registry (registry_add (oid h) (INSTANCES_LOCKED w)) w) ;;
    let* now := liftW time_time in
    update (set_start (Some now)) ;;
    update (set_isLocked true) ;;
    lock_loop fuel.

(** [__enter__] and [__exit__]. *)
Definition __enter__ (fuel : nat) : M Self unit := lock fuel.
Definition __exit__ : M Self unit := unlock.

End Methods.

(** ** The termination hook *)

(** The live handle with identity [o], if it has not been reclaimed. *)
Definition find_handle (objs : list FileLocker) (o : nat) : option FileLocker :=
  head (filter (λ h, oid h = o) objs).

(** [fileLocker.unlock()] from outside the handle. *)
Definition call_unlock (h : FileLocker) : M World unit :=
  λ w, let '(r, s') := unlock (h, w) in (r, snd s').

(** [for fileLocker in FileLocker.INSTANCES_LOCKED: ...] over the
    references [refs] the iterator has still to yield.  Each time the
    iterator is advanced it checks that the set has kept the size it had
    when the loop started, and raises [RuntimeError] otherwise; dead
    references are skipped. *)
Fixpoint sweep (objs : list FileLocker) (size0 : nat) (refs : list nat) : M World unit :=
  λ w,
    if bool_decide (length (INSTANCES_LOCKED w) = size0) then
      match refs with
      | [] => (Ok tt, w)
      | o :: refs' =>
          match find_handle objs o with
          | Some fileLocker =>
              if locked fileLocker
              then bind (call_unlock fileLocker) (λ _, sweep objs size0 refs') w
              else sweep objs size0 refs' w
          | None => sweep objs size0 refs' w
          end
      end
    else (Raise set_changed_size, w).

(** [__unlockall], registered with [atexit]; [objs] are the handles alive
    in the process. *)
Definition __unlockall (objs : list FileLocker) : M World unit :=
  try_except
    (λ w, sweep objs (length (INSTANCES_LOCKED w)) (INSTANCES_LOCKED w) w)
    is_RuntimeError
    (λ _, ret tt).

(** ** Construction, scoped acquisition, wrapping *)

(** [os.path.isdir]: never raises.  It answers [True] for the paths of
    [dirs], the directories its [os.stat] reaches; neither the handle nor
    a peer of the script changes them. *)
Definition os_path_isdir (p : string) : M World bool :=
  λ w, let '(_, w1) := next_env w in
       (Ok (bool_decide (p ∈ dirs w1)), log (Isdir p) true w1).

(** A new object gets an identity no other object has. *)
Definition new_object : M World nat :=
  λ w, (Ok (next_oid w),
        mkWorld (files w) (dirs w) (INSTANCES_LOCKED w) (S (next_oid w)) (env w) (trace w)).

Section Guards.

Variable lib : Library.

(** [os.path.join], [os.path.split] and [os.path.abspath], on path
    strings. *)
Variable os_path_join : string → string → string.
Variable os_path_split : string → string * string.
Variable os_path_abspath : string → string.

(** [FileLocker(path, timeout)]. *)
Definition __init__ (p : string) (timeout : Z) : M World FileLocker :=
  let* o := new_object in
  let* isdir := os_path_isdir p in
  let namespace := if isdir : bool then (p, "locker"%string)
                   else os_path_split (os_path_abspath p) in
  let* exists_ := os_path_isdir (fst namespace) in
  if exists_ : bool
  then ret (mkFileLocker o timeout (fst namespace) (snd namespace) None (-1) false None None)
  else raise (NotInExistingDirectory p).

(** [with handle: body]: [__enter__], the body, and [__exit__] on every
    way out of the body; [__exit__] returns [None], so an exception of the
    body is raised again after it. *)
Definition scoped {R} (fuel : nat) (h : FileLocker) (body : M World R) : M World R :=
  λ w,
    match __enter__ lib fuel (h, w) with
    | (Ok _, (h1, w1)) =>
        match body w1 with
        | (OutOfFuel, w2) => (OutOfFuel, w2)
        | (result, w2) =>
            match __exit__ (h1, w2) with
            | (Ok _, (_, w3)) => (result, w3)
            | (Raise e, (_, w3)) => (Raise e, w3)
            | (OutOfFuel, (_, w3)) => (OutOfFuel, w3)
            end
        end
    | (Raise e, (_, w1)) => (Raise e, w1)
    | (OutOfFuel, (_, w1)) => (OutOfFuel, w1)
    end.

(** The [wrapper] closure built by [wrapWithDecorator]; [self] is the
    handle the decorator was taken from, as it is when the wrapped
    callable is called. *)
Definition wrapper {A R} (self : FileLocker) (fuel : nat)
           (condition : option (A → M World bool)) (method : A → M World R)
           (args : A) : M World R :=
  let* locking :=
    match condition with
    | None => ret true
    | Some c => c args
    end in
  if locking : bool then
    let* h := __init__ (os_path_join (__folder self) (__filename self)) (timeout self) in
    scoped fuel h (method args)
  else method args.

(** [wrapWithDecorator(func, condition)]: the wrapped callable, or, when
    [func] is not given, the decorator that will wrap one. *)
Definition wrapWithDecorator {A R} (self : FileLocker) (fuel : nat)
           (func : option (A → M World R)) (condition : option (A → M World bool))
  : (A → M World R) + ((A → M World R) → A → M World R) :=
  match func with
  | Some f => inl (wrapper self fuel condition f)
  | None => inr (wrapper self fuel condition)
  end.

End Guards.

(** ** A matcher for base names without regular-expression operators

    For such a base name the compiled pattern matches an entry exactly when
    it starts with the base name, a dot and six ASCII digits (whatever
    follows); the counter is the value of the six digits. *)

Fixpoint strip_prefix (pre s : string) : option string :=
  match pre with
  | EmptyString => Some s
  | String c pre' =>
      match s with
      | String d s' => if bool_decide (c = d) then strip_prefix pre' s' else None
      | EmptyString => None
      end
  end.

Definition digit_value (c : ascii) : option Z :=
  let n := Z.of_nat (nat_of_ascii c) in
  if (48 <=? n) && (n <=? 57) then Some (n - 48) else None.

Fixpoint read_digits (count : nat) (s : string) (acc : Z) : option Z :=
  match count with
  | O => Some acc
  | S k =>
      match s with
      | String c s' =>
          match digit_value c with
          | Some d => read_digits k s' (10 * acc + d)
          | None => None
          end
      | EmptyString => None
      end
  end.

Definition literal_match (filename name : string) : option Z :=
  match strip_prefix (filename +:+ ".") name with
  | Some rest => read_digits 6 rest 0
  | None => None
  end.

(** The library of the scenarios: the patterns of their base names
    compile and match as above, and the process runs under UTC, where the
    naive local datetime of a timestamp counts the same microseconds. *)
Definition literal : Library := mkLibrary (λ _, true) literal_match Local.

(** ** Sample handles and worlds *)

Definition rd (v : Z) : env_step := EnvStep [] false v.

Definition fresh (o : nat) (t : Z) (folder filename : string) : FileLocker :=
  mkFileLocker o t folder filename None (-1) false None None.

(** An empty directory ["d"], no handle registered yet. *)
Definition world0 (script : list env_step) : World := mkWorld ∅ ["d"%string] [] 2 script [].

(** ** POSIX paths, for the scenarios *)

Definition is_slash (c : ascii) : bool := bool_decide (c = "/"%char).

Definition starts_with_slash (s : string) : bool :=
  match s with
  | String c _ => is_slash c
  | EmptyString => false
  end.

Fixpoint ends_with_slash (s : string) : bool :=
  match s with
  | EmptyString => false
  | String c EmptyString => is_slash c
  | String _ r => ends_with_slash r
  end.

(** [posixpath.join(a, b)]. *)
Definition posix_join (a b : string) : string :=
  if starts_with_slash b then b
  else if bool_decide (a = ""%string) || ends_with_slash a then a +:+ b
  else a +:+ "/" +:+ b.

(** [s.rstrip('/')]. *)
Fixpoint rstrip_slashes (s : string) : string :=
  match s with
  | EmptyString => EmptyString
  | String c r =>
      match rstrip_slashes r with
      | EmptyString => if is_slash c then EmptyString else String c EmptyString
      | r' => String c r'
      end
  end.

(** [(s[:i], s[i:])] for [i = s.rfind('/') + 1]. *)
Fixpoint cut_after_last_slash (s : string) : string * string :=
  match s with
  | EmptyString => (EmptyString, EmptyString)
  | String c r =>
      match cut_after_last_slash r with
      | (EmptyString, tail) =>
          if is_slash c then (String c EmptyString, tail) else (EmptyString, String c tail)
      | (head, tail) => (String c head, tail)
      end
  end.

(** [posixpath.split(p)]. *)
Definition posix_split (p : string) : string * string :=
  let '(head, tail) := cut_after_last_slash p in
  match rstrip_slashes head with
  | EmptyString => (head, tail)
  | stripped => (stripped, tail)
  end.

(** ** Scenarios *)

(** A handle with a one-second timeout on the namespace [("d", "locker")]. *)
Definition h1 : FileLocker := fresh 1 1 "d" "locker".

(** The handle finds the directory empty and draws ticket 500; while it
    sleeps a peer creates ticket 1; at the next poll point the clock reads
    1001.5 s, past the deadline of 1001 s. *)
Definition outrun : list env_step :=
  [ rd (seconds 1000);                  (* time.time(): start *)
    rd 0;                               (* os.listdir: empty *)
    rd 500;                             (* random.randrange *)
    rd 0;                               (* os.path.isfile: free *)
    rd (seconds 1000);                  (* open: stamped 1000 s *)
    rd (seconds 1000);                  (* time.time(): in time *)
    EnvStep [PeerCreate ("d", "locker.000001") (seconds 1000)] false 0;   (* time.sleep *)
    rd 0;                               (* os.listdir: two tickets *)
    rd 0;                               (* os.path.getmtime *)
    rd (seconds 1000 + 500000);         (* NamedTemporaryFile: the reference clock *)
    rd 0; rd 0;                         (* its getmtime and close *)
    rd 0;                               (* os.path.getmtime *)
    rd (seconds 1001 + 500000) ].       (* time.time(): too late *)

Definition timeout_run : outcome unit * Self := lock literal 5 (h1, world0 outrun).

(** The same run, except that at the release the stat of the handle's
    ticket fails. *)
Definition outrun_blind : list env_step :=
  outrun ++ [ EnvStep [] true 0 ].      (* os.path.isfile: the stat fails *)

Definition blind_run : outcome unit * Self := lock literal 5 (h1, world0 outrun_blind).

(** The first evaluation of the reference clock, the storage reading 7 s. *)
Definition clock_run : outcome Z * Self := _serverTimeLock literal (h1, world0 [rd (seconds 7)]).

(** A handle with the default timeout of 20 s. *)
Definition h0 : FileLocker := fresh 1 20 "d" "locker".

(** The directory is empty; the handle draws ticket 123, creates it and
    finds it lowest at the first poll. *)
Definition solo : list env_step :=
  [ rd (seconds 1000);                  (* time.time(): start *)
    rd 0;                               (* os.listdir: empty *)
    rd 123;                             (* random.randrange *)
    rd 0;                               (* os.path.isfile: free *)
    rd (seconds 1000);                  (* open: stamped 1000 s *)
    rd (seconds 1000);                  (* time.time(): in time *)
    rd 0;                               (* time.sleep *)
    rd 0;                               (* os.listdir: the ticket *)
    rd 0;                               (* os.path.getmtime *)
    rd (seconds 1001);                  (* NamedTemporaryFile: the reference clock *)
    rd 0; rd 0 ].                       (* its getmtime and close *)

(** The caller calls [lock] again at 1002 s; the next poll point comes at
    1023 s. *)
Definition relock : list env_step :=
  [ rd (seconds 1002);                  (* time.time(): start *)
    rd 0;                               (* os.listdir: the handle's own ticket *)
    rd 0;                               (* os.path.getmtime *)
    rd (seconds 1023) ].                (* time.time(): too late *)

Definition solo_run : outcome unit * Self :=
  lock literal 5 (h0, world0 (solo ++ relock)).

Definition relock_run : outcome unit * Self :=
  lock literal 5 (snd solo_run).

(** The handle draws ticket 500 and creates it; while it sleeps, a peer's
    clean-up removes the ticket; the next listing is empty. *)
Definition reaped : list env_step :=
  [ rd (seconds 1000);                  (* time.time(): start *)
    rd 0;                               (* os.listdir: empty *)
    rd 500;                             (* random.randrange *)
    rd 0;                               (* os.path.isfile: free *)
    rd (seconds 1000);                  (* open: stamped 1000 s *)
    rd (seconds 1000);                  (* time.time(): in time *)
    EnvStep [PeerRemove ("d", "locker.000500")] false 0;   (* time.sleep *)
    rd 0 ].                             (* os.listdir: empty *)

Definition reaped_run : outcome unit * Self := lock literal 5 (h0, world0 reaped).

(** A directory with an old ticket, a recent ticket and an unrelated file;
    the reference clock will read 1000 s. *)
Definition sweep_world : World :=
  mkWorld (<[("d", "locker.000007") := seconds 990]>
             (<[("d", "locker.000009") := seconds 1000 - 500000]>
                (<[("d", "notes.txt") := 0]> ∅)))
          ["d"%string] [] 2 [rd 0; rd 0; rd (seconds 1000)] [].

Definition sweep_run : outcome (list Z) * Self :=
  __getLockFileIds literal (h1, sweep_world).

(** The same directory when every per-file call goes wrong: the first
    [getmtime] fails, and the other ticket is removed by a peer just before
    the handle's own [os.remove].  The listing still returns normally. *)
Definition rough_world : World :=
  mkWorld (<[("d", "locker.000007") := seconds 990]>
             (<[("d", "locker.000009") := seconds 990]> ∅))
          ["d"%string] [] 2
          [ rd 0;                                       (* os.listdir *)
            EnvStep [] true 0;                          (* os.path.getmtime fails *)
            rd 0;                                       (* os.path.getmtime *)
            rd (seconds 1000); rd 0; rd 0;              (* the reference clock *)
            EnvStep [PeerRemove ("d", "locker.000009")] false 0 ]   (* os.remove: too late *)
          [].

(** A process in a time zone whose clocks go forward by one hour at
    2024-03-31 01:00:00 UTC, as in Paris: local time is UTC+1 before that
    instant and UTC+2 from it on. *)
Definition spring_forward : Z := seconds 1711846800.

Definition paris : Library :=
  mkLibrary (λ _, true) literal_match
            (λ t, Local (if t <? spring_forward then t + seconds 3600 else t + seconds 7200)).

(** One ticket, stamped 5 s before the clocks go forward; the reference
    clock will read 5 s after. *)
Definition dst_world : World :=
  mkWorld (<[("d", "locker.000007") := spring_forward - seconds 5]> ∅)
          ["d"%string] [] 2
          [ rd 0;                               (* os.listdir *)
            rd 0;                               (* os.path.getmtime *)
            rd (spring_forward + seconds 5);    (* NamedTemporaryFile: the reference clock *)
            rd 0; rd 0;                         (* its getmtime and close *)
            rd 0 ]                              (* os.remove *)
          [].

Definition dst_run : outcome (list Z) * Self := __getLockFileIds paris (h0, dst_world).

(** The handle draws ticket 500, and the creation of the file fails. *)
Definition denied : list env_step :=
  [ rd (seconds 1000);                  (* time.time(): start *)
    rd 0;                               (* os.listdir: empty *)
    rd 500;                             (* random.randrange *)
    rd 0;                               (* os.path.isfile: free *)
    EnvStep [] true 0 ].                (* open: I/O error *)

Definition denied_run : outcome unit * Self := lock literal 5 (h0, world0 denied).

(** A handle whose [lock] was interrupted while it waited (an error other
    than the timeout): registered, flag set, ticket 500 in the directory.
    At the exit of the process the deletion of that ticket fails. *)
Definition stuck : FileLocker :=
  mkFileLocker 1 20 "d" "locker" (Some ("d", "locker.000500")) 500 true (Some (seconds 1000)) None.


(** A second handle in the same condition, with ticket 600. *)
Definition stuck2 : FileLocker :=
  mkFileLocker 2 20 "d" "locker" (Some ("d", "locker.000600")) 600 true (Some (seconds 1000)) None.

(** The script of a solo acquisition by a handle built on the spot: the
    two [isdir] of the constructor come first. *)
Definition guarded : list env_step := [rd 0; rd 0] ++ solo.

Definition srv_world (ds : list string) : World := mkWorld ∅ ds [] 2 guarded [].

(** The handle [FileLocker("/srv")] gives: a directory path takes the base
    name "locker". *)
Definition srv_handle : FileLocker := fresh 1 20 "/srv" "locker".

(** The callable to wrap: it returns 42 and leaves the world alone. *)
Definition answer (_ : unit) : M World Z := ret 42.

Definition wrapped_answer : unit → M World Z :=
  wrapper literal posix_join posix_split (λ p, p) srv_handle 5 None answer.

(** * Reasoning rules *)

(** [hoare P m Q]: from a state in [P], whatever [m] returns or raises,
    [Q] holds of the outcome and the state it leaves. *)
Definition hoare {S A} (P : S → Prop) (m : M S A) (Q : outcome A → S → Prop) : Prop :=
  ∀ s r s', P s → m s = (r, s') → Q r s'.

(** [invariant I m]: [m] keeps [I], also when it raises. *)
Definition invariant {S A} (I : S → Prop) (m : M S A) : Prop :=
  hoare I m (λ _, I).

Section Rules.
Context {S : Type}.

Lemma bind_inv {A B} (m : M S A) (k : A → M S B) s r s' :
  bind m k s = (r, s') →
  (∃ a s1, m s = (Ok a, s1) ∧ k a s1 = (r, s'))
  ∨ (∃ e, m s = (Raise e, s') ∧ r = Raise e)
  ∨ (m s = (OutOfFuel, s') ∧ r = OutOfFuel).
Proof.
  unfold bind. destruct (m s) as [[a|e|] s1]; intros H.
  - left. eauto.
  - right. left. inversion H. eauto.
  - right. right. inversion H. eauto.
Qed.

Lemma hoare_conseq {A} (P P' : S → Prop) (m : M S A) (Q Q' : outcome A → S → Prop) :
  hoare P' m Q' → (∀ s, P s → P' s) → (∀ r s, Q' r s → Q r s) → hoare P m Q.
Proof. unfold hoare. eauto. Qed.

Lemma hoare_ret {A} (P : S → Prop) (a : A) (Q : outcome A → S → Prop) :
  (∀ s, P s → Q (Ok a) s) → hoare P (ret a) Q.
Proof. intros H s r s' HP E. inversion E; subst. auto. Qed.

Lemma hoare_raise {A} (P : S → Prop) e (Q : outcome A → S → Prop) :
  (∀ s, P s → Q (Raise e) s) → hoare P (raise e) Q.
Proof. intros H s r s' HP E. inversion E; subst. auto. Qed.

Lemma hoare_out_of_fuel {A} (P : S → Prop) (Q : outcome A → S → Prop) :
  (∀ s, P s → Q OutOfFuel s) → hoare P out_of_fuel Q.
Proof. intros H s r s' HP E. inversion E; subst. auto. Qed.

(** The continuation runs from [R]; an exception of [m] must already
    establish [Q]. *)
Lemma hoare_bind {A B} (P : S → Prop) (m : M S A) (k : A → M S B)
      (R : A → S → Prop) (Q : outcome B → S → Prop) :
  hoare P m (λ r s, match r with
                    | Ok a => R a s
                    | Raise e => Q (Raise e) s
                    | OutOfFuel => Q OutOfFuel s
                    end) →
  (∀ a, hoare (R a) (k a) Q) →
  hoare P (bind m k) Q.
Proof.
  intros Hm Hk s r s' HP E.
  apply bind_inv in E as [(a & s1 & E1 & E2) | [(e & E1 & ->) | (E1 & ->)]].
  - eapply Hk; [|exact E2]. exact (Hm _ _ _ HP E1).
  - exact (Hm _ _ _ HP E1).
  - exact (Hm _ _ _ HP E1).
Qed.

Lemma hoare_try {A} (P : S → Prop) (m : M S A) (catch : exn → bool) handler
      (R : exn → S → Prop) (Q : outcome A → S → Prop) :
  hoare P m (λ r s, match r with
                    | Raise e => if catch e then R e s else Q (Raise e) s
                    | _ => Q r s
                    end) →
  (∀ e, hoare (R e) (handler e) Q) →
  hoare P (try_except m catch handler) Q.
Proof.
  intros Hm Hh s r s' HP E. unfold try_except in E.
  destruct (m s) as [[a|e|] s1] eqn:E1; specialize (Hm _ _ _ HP E1); simpl in Hm.
  - inversion E; subst. exact Hm.
  - destruct (catch e).
    + eapply Hh; eauto.
    + inversion E; subst. exact Hm.
  - inversion E; subst. exact Hm.
Qed.

(** [m] keeps [J]; its exceptions establish [Q] from [J]. *)
Lemma hoare_seq {A B} (J : S → Prop) (m : M S A) (k : A → M S B)
      (Q : outcome B → S → Prop) :
  invariant J m →
  (∀ e s, J s → Q (Raise e) s) →
  (∀ s, J s → Q OutOfFuel s) →
  (∀ a, hoare J (k a) Q) →
  hoare J (bind m k) Q.
Proof.
  intros Hm He Hf Hk. apply hoare_bind with (R := λ _, J); [|exact Hk].
  intros s r s' HJ E. specialize (Hm _ _ _ HJ E). destruct r; auto.
Qed.

Lemma inv_ret {A} (I : S → Prop) (a : A) : invariant I (ret a).
Proof. apply hoare_ret. auto. Qed.

Lemma inv_raise {A} (I : S → Prop) e : invariant I (@raise S A e).
Proof. apply hoare_raise. auto. Qed.

Lemma inv_out_of_fuel {A} (I : S → Prop) : invariant I (@out_of_fuel S A).
Proof. apply hoare_out_of_fuel. auto. Qed.

Lemma inv_bind {A B} (I : S → Prop) (m : M S A) (k : A → M S B) :
  invariant I m → (∀ a, invariant I (k a)) → invariant I (bind m k).
Proof.
  intros Hm Hk. apply hoare_bind with (R := λ _, I); [|exact Hk].
  intros s r s' HI E. specialize (Hm _ _ _ HI E). destruct r; exact Hm.
Qed.

Lemma inv_try {A} (I : S → Prop) (m : M S A) (catch : exn → bool) handler :
  invariant I m → (∀ e, invariant I (handler e)) → invariant I (try_except m catch handler).
Proof.
  intros Hm Hh. apply hoare_try with (R := λ _, I); [|exact Hh].
  intros s r s' HI E. specialize (Hm _ _ _ HI E).
  destruct r as [a|e|]; try exact Hm. destruct (catch e); exact Hm.
Qed.

Lemma inv_for_each {A} (I : S → Prop) (body : A → M S unit) l :
  (∀ x, invariant I (body x)) → invariant I (for_each body l).
Proof.
  intros Hb. induction l as [|x l IH]; simpl.
  - apply inv_ret.
  - apply inv_bind; auto.
Qed.

Lemma inv_py_min (I : S → Prop) l : invariant I (py_min l).
Proof. destruct l; [apply inv_raise | apply inv_ret]. Qed.

Lemma inv_fromtimestamp (I : S → Prop) lib t : invariant I (datetime_fromtimestamp lib t).
Proof.
  unfold datetime_fromtimestamp.
  destruct (fromtimestamp lib t); [apply inv_ret | apply inv_raise ..].
Qed.

Lemma inv_and {A} (I J : S → Prop) (m : M S A) :
  invariant I m → invariant J m → invariant (λ s, I s ∧ J s) m.
Proof. intros HI HJ s r s' [? ?] E. split; [eapply HI | eapply HJ]; eauto. Qed.

End Rules.

(** ** What a system call does to the world *)

Lemma next_env_registry w e w1 :
  next_env w = (e, w1) → INSTANCES_LOCKED w1 = INSTANCES_LOCKED w ∧ trace w1 = trace w.
Proof.
  unfold next_env. destruct (env w); intros H; inversion H; subst; auto.
Qed.

Lemma sys_inv {A} (c : syscall) (f : env_step → gmap path Z → option (A * gmap path Z)) w r w' :
  sys c f w = (r, w') →
  INSTANCES_LOCKED w' = INSTANCES_LOCKED w
  ∧ ((∃ a, r = Ok a ∧ trace w' = trace w ++ [(c, true)])
     ∨ (r = Raise (OSError c) ∧ trace w' = trace w ++ [(c, false)])).
Proof.
  unfold sys. destruct (next_env w) as [e w1] eqn:E.
  apply next_env_registry in E as [E1 E2].
  destruct (if fault e then None else f e (files w1)) as [[a fs]|];
    intros H; inversion H; subst; simpl; rewrite E1, E2; eauto.
Qed.

Lemma sys_total_inv {A} (c : syscall) (f : env_step → gmap path Z → A) w r w' :
  sys_total c f w = (r, w') →
  INSTANCES_LOCKED w' = INSTANCES_LOCKED w
  ∧ (∃ a, r = Ok a) ∧ trace w' = trace w ++ [(c, true)].
Proof.
  unfold sys_total. destruct (next_env w) as [e w1] eqn:E.
  apply next_env_registry in E as [E1 E2].
  intros H; inversion H; subst; simpl. rewrite E1, E2. eauto.
Qed.

(** The existence test answers for the directory as it is, unless its
    stat failed: then it answers [False] whatever the directory holds. *)
Lemma isfile_inv p w r w' :
  os_path_isfile p w = (r, w') →
  INSTANCES_LOCKED w' = INSTANCES_LOCKED w
  ∧ ((r = Ok (bool_decide (is_Some (files w' !! p)))
      ∧ trace w' = trace w ++ [(Isfile p, true)])
     ∨ (r = Ok false ∧ trace w' = trace w ++ [(Isfile p, false)])).
Proof.
  unfold os_path_isfile. destruct (next_env w) as [e w1] eqn:E.
  apply next_env_registry in E as [E1 E2].
  destruct (fault e); intros H; inversion H; subst; simpl; rewrite E1, E2; auto.
Qed.

(** ** Rules for the handle's monad *)

Lemma liftW_inv {A} (m : M World A) s r s' :
  liftW m s = (r, s') → fst s' = fst s ∧ m (snd s) = (r, snd s').
Proof.
  unfold liftW. destruct (m (snd s)) as [r1 w1]. intros H. inversion H; subst. auto.
Qed.

Lemma hoare_self {A} (P : Self → Prop) (k : FileLocker → M Self A) Q :
  (∀ h, hoare (λ s, P s ∧ fst s = h) (k h) Q) → hoare P (bind self k) Q.
Proof.
  intros H s r s' HP E. unfold bind, self in E. eapply H; eauto.
Qed.

Lemma inv_self {A} (I : Self → Prop) (k : FileLocker → M Self A) :
  (∀ h, invariant I (k h)) → invariant I (bind self k).
Proof.
  intros H s r s' HI E. unfold bind, self in E. eapply H; eauto.
Qed.

Lemma hoare_update (P : Self → Prop) f (Q : outcome unit → Self → Prop) :
  (∀ h w, P (h, w) → Q (Ok tt) (f h, w)) → hoare P (update f) Q.
Proof. intros H [h w] r s' HP E. inversion E; subst. simpl. auto. Qed.

Lemma hoare_update_world (P : Self → Prop) f (Q : outcome unit → Self → Prop) :
  (∀ h w, P (h, w) → Q (Ok tt) (h, f w)) → hoare P (update_world f) Q.
Proof. intros H [h w] r s' HP E. inversion E; subst. simpl. auto. Qed.

Lemma inv_update (I : Self → Prop) f :
  (∀ h w, I (h, w) → I (f h, w)) → invariant I (update f).
Proof. intros H [h w] r s' HI E. inversion E; subst. simpl. auto. Qed.

(** An invariant that only reads the handle survives every system call. *)
Lemma inv_liftW_handle {A} (I : FileLocker → Prop) (m : M World A) :
  invariant (λ s, I (fst s)) (liftW m).
Proof.
  intros s r s' HI E. apply liftW_inv in E as [-> _]. exact HI.
Qed.

(** Structural steps of an invariant proof; the leaves are left to the
    caller. *)
Ltac inv_step :=
  cbv beta;
  try lazymatch goal with
      | |- hoare ?P ?m (λ _, ?P) => change (invariant P m)
      end;
  lazymatch goal with
  | |- invariant _ (bind self _) => apply inv_self; intros ?h
  | |- invariant _ (bind _ _) => apply inv_bind; [| intros ?]
  | |- invariant _ (ret _) => apply inv_ret
  | |- invariant _ (raise _) => apply inv_raise
  | |- invariant _ out_of_fuel => apply inv_out_of_fuel
  | |- invariant _ (py_min _) => apply inv_py_min
  | |- invariant _ (datetime_fromtimestamp _ _) => apply inv_fromtimestamp
  | |- invariant _ (try_except _ _ _) => apply inv_try; [| intros ?]
  | |- invariant _ (for_each _ _) => apply inv_for_each; intros ?
  | |- invariant _ (match ?x with _ => _ end) => destruct x eqn:?
  end.

(** * Frame properties of the methods *)

(** A property of the handle, the registry and the call log. *)
Definition view (I : FileLocker → list nat → list (syscall * bool) → Prop) (s : Self) : Prop :=
  I (fst s) (INSTANCES_LOCKED (snd s)) (trace (snd s)).

Definition is_open (c : syscall) : bool :=
  match c with OpenW _ => true | _ => false end.

Definition is_mkstemp (c : syscall) : bool :=
  match c with Mkstemp _ => true | _ => false end.

Section Frame.

Variable lib : Library.
Variable I : FileLocker → list nat → list (syscall * bool) → Prop.

(** [I] does not mind calls other than the creation of a ticket or of
    the throwaway file of the reference clock. *)
Hypothesis I_event : ∀ h reg tr c ok,
  is_open c = false → is_mkstemp c = false → I h reg tr → I h reg (tr ++ [(c, ok)]).

Lemma frame_sys {A} (c : syscall) (f : env_step → gmap path Z → option (A * gmap path Z)) :
  is_open c = false → is_mkstemp c = false → invariant (view I) (liftW (sys c f)).
Proof.
  intros Hc Hm [h w] r [h' w'] HI E. apply liftW_inv in E as [E1 E2]; simpl in *; subst.
  apply sys_inv in E2 as [Er [(a & _ & Et) | [_ Et]]];
    unfold view in *; simpl in *; rewrite Er, Et; auto.
Qed.

Lemma frame_sys_total {A} (c : syscall) (f : env_step → gmap path Z → A) :
  is_open c = false → is_mkstemp c = false → invariant (view I) (liftW (sys_total c f)).
Proof.
  intros Hc Hm [h w] r [h' w'] HI E. apply liftW_inv in E as [E1 E2]; simpl in *; subst.
  apply sys_total_inv in E2 as (Er & _ & Et).
  unfold view in *; simpl in *; rewrite Er, Et; auto.
Qed.

Lemma frame_isfile (p : path) : invariant (view I) (liftW (os_path_isfile p)).
Proof.
  intros [h w] r [h' w'] HI E. apply liftW_inv in E as [E1 E2]; simpl in *; subst.
  apply isfile_inv in E2 as [Er [[_ Et] | [_ Et]]];
    unfold view in *; simpl in *; rewrite Er, Et; auto.
Qed.

Ltac frame_leaf :=
  first
    [ apply frame_sys; reflexivity
    | apply frame_sys_total; reflexivity
    | apply frame_isfile ].

(** [I] does not mind the reference clock being read and cached, while
    it is not cached yet. *)
Hypothesis I_mkstemp : ∀ h reg tr folder ok,
  __serverTimeLock h = None → I h reg tr → I h reg (tr ++ [(Mkstemp folder, ok)]).
Hypothesis I_clock : ∀ h reg tr t,
  __serverTimeLock h = None → I h reg tr → I (set_serverTimeLock (Some t) h) reg tr.

Lemma serverTimeLock_frame : invariant (view I) (_serverTimeLock lib).
Proof.
  apply hoare_self; intros h. destruct (__serverTimeLock h) eqn:Hc.
  { apply hoare_ret. intros s [HI _]. exact HI. }
  set (J := λ s : Self, view I s ∧ fst s = h).
  assert (HJ : ∀ A c f, is_open c = false → is_mkstemp c = false →
                        invariant J (liftW (@sys A c f))).
  { intros. apply inv_and; [apply frame_sys; auto | apply (inv_liftW_handle (λ x, x = h))]. }
  apply (hoare_seq J); [| intros ? ? [? _]; auto | intros ? [? _]; auto | intros stamp].
  { intros [h1 w1] r [h2 w2] [HI Hh] E. apply liftW_inv in E as [E1 E2]; simpl in *; subst.
    split; [|reflexivity].
    apply sys_inv in E2 as [Er [(a & _ & Et) | [_ Et]]];
      unfold view in *; simpl in *; rewrite Er, Et; auto. }
  apply (hoare_seq J);
    [apply HJ; reflexivity | intros ? ? [? _]; auto | intros ? [? _]; auto | intros mtime].
  apply (hoare_seq J);
    [apply inv_fromtimestamp | intros ? ? [? _]; auto | intros ? [? _]; auto | intros t].
  apply hoare_bind with (R := λ _, view I).
  - apply hoare_update. intros h' w [HI Hh]. simpl in Hh. subst h'.
    unfold view in *. simpl in *. auto.
  - intros _. change (invariant (view I) (liftW (temp_close (__folder h)) ;; ret t)).
    inv_step; [frame_leaf | inv_step].
Qed.

Lemma reap_frame p : invariant (view I) (reap lib p).
Proof.
  unfold reap. inv_step; [|inv_step]. inv_step. inv_step; [frame_leaf|].
  inv_step; [inv_step|].
  inv_step; [apply serverTimeLock_frame|]. inv_step; [frame_leaf | inv_step].
Qed.

Lemma getLockFileIds_frame : invariant (view I) (__getLockFileIds lib).
Proof.
  unfold __getLockFileIds. inv_step. inv_step; [|inv_step].
  inv_step; [frame_leaf|].
  inv_step; [|inv_step]. inv_step. apply reap_frame.
Qed.

(** [I] does not mind the handle leaving the registry. *)
Hypothesis I_unregister : ∀ h reg tr,
  I h reg tr → I h (registry_remove (oid h) reg) tr.

Lemma unlock_frame : invariant (view I) unlock.
Proof.
  apply hoare_self; intros h.
  apply hoare_bind with (R := λ _, view I).
  - apply hoare_update_world. intros h' w [HI Hh]. simpl in Hh; subst h'.
    unfold view in *; simpl in *. auto.
  - intros _. inv_step; [|inv_step].
    inv_step; [frame_leaf|]. inv_step; [frame_leaf | inv_step].
Qed.

Lemma sleep_frame : invariant (view I) __sleep.
Proof.
  unfold __sleep. inv_step. inv_step; [|inv_step].
  inv_step; [frame_leaf|]. inv_step; [|frame_leaf].
  inv_step; [apply unlock_frame | inv_step].
Qed.

(** [I] does not mind which ticket the handle has drawn. *)
Hypothesis I_id : ∀ h reg tr i, I h reg tr → I (set_id i h) reg tr.
Hypothesis I_pathLocker : ∀ h reg tr p, I h reg tr → I (set_pathLocker p h) reg tr.

Lemma draw_ticket_frame fuel : invariant (view I) (draw_ticket fuel).
Proof.
  induction fuel as [|fuel IH]; simpl; [inv_step|].
  inv_step. inv_step.
  - inv_step; [frame_leaf | inv_step].
  - inv_step; [|inv_step]. inv_step; [frame_leaf|].
    inv_step; [apply inv_update; intros; apply I_id; assumption|].
    inv_step; [apply inv_update; intros; apply I_pathLocker; assumption|].
    exact IH.
Qed.

(** [I] does not mind the acquisition. *)
Hypothesis I_acquire : ∀ h reg tr, I h reg tr → I (set_isLocked false h) reg tr.

Lemma poll_frame : invariant (view I) (poll lib).
Proof.
  unfold poll. inv_step; [apply sleep_frame|].
  inv_step; [apply getLockFileIds_frame|]. inv_step; [inv_step|].
  inv_step. inv_step; [|inv_step].
  inv_step; [apply inv_update; intros; apply I_acquire; assumption | inv_step].
Qed.

Lemma wait_frame fuel : invariant (view I) (wait lib fuel).
Proof.
  induction fuel as [|fuel IH]; simpl; [inv_step|].
  inv_step; [apply poll_frame|]. inv_step; [inv_step | exact IH].
Qed.

(** [I] does not mind any call, nor the bookkeeping at the start of
    [lock]. *)
Hypothesis I_open : ∀ h reg tr p ok, I h reg tr → I h reg (tr ++ [(OpenW p, ok)]).
Hypothesis I_register : ∀ h reg tr, I h reg tr → I h (registry_add (oid h) reg) tr.
Hypothesis I_start : ∀ h reg tr t, I h reg tr → I (set_start (Some t) h) reg tr.
Hypothesis I_attempt : ∀ h reg tr, I h reg tr → I (set_isLocked true h) reg tr.

Lemma create_ticket_frame : invariant (view I) create_ticket.
Proof.
  unfold create_ticket. inv_step. inv_step; [|inv_step].
  inv_step; [|inv_step].
  intros [h' w] r [h2 w2] HI E. apply liftW_inv in E as [E1 E2]; simpl in *; subst.
  apply sys_inv in E2 as [Er [(a & _ & Et) | [_ Et]]];
    unfold view in *; simpl in *; rewrite Er, Et; auto.
Qed.

Lemma lock_loop_frame fuel : invariant (view I) (lock_loop lib fuel).
Proof.
  induction fuel as [|fuel IH]; simpl; [inv_step|].
  inv_step. inv_step; [|inv_step].
  inv_step; [apply getLockFileIds_frame|]. inv_step.
  - inv_step; [apply draw_ticket_frame|]. inv_step; [apply create_ticket_frame|].
    inv_step; [apply wait_frame | exact IH].
  - inv_step; [apply sleep_frame | exact IH].
Qed.

Lemma lock_frame fuel : invariant (view I) (lock lib fuel).
Proof.
  apply hoare_self; intros h. destruct (__isLocked h).
  { apply hoare_raise. intros s [HI _]. exact HI. }
  apply hoare_bind with (R := λ _, view I).
  - apply hoare_update_world. intros h' w [HI Hh]. simpl in Hh; subst h'.
    unfold view in *; simpl in *. auto.
  - intros _. inv_step; [frame_leaf|].
    inv_step; [apply inv_update; intros; apply I_start; assumption|].
    inv_step; [apply inv_update; intros; apply I_attempt; assumption|].
    apply lock_loop_frame.
Qed.

End Frame.

(** * Which outcomes a method can have *)

Definition may {S A} (m : M S A) (allowed : outcome A → Prop) : Prop :=
  ∀ s r s', m s = (r, s') → allowed r.

Section May.
Context {S : Type}.

Lemma may_weaken {A} (m : M S A) (F G : outcome A → Prop) :
  may m F → (∀ r, F r → G r) → may m G.
Proof. unfold may. eauto. Qed.

Lemma may_ret {A} (a : A) (F : outcome A → Prop) : F (Ok a) → may (@ret S A a) F.
Proof. intros H s r s' E. inversion E; subst; auto. Qed.

Lemma may_raise_ {A} e (F : outcome A → Prop) : F (Raise e) → may (@raise S A e) F.
Proof. intros H s r s' E. inversion E; subst; auto. Qed.

Lemma may_out_of_fuel {A} (F : outcome A → Prop) : F OutOfFuel → may (@out_of_fuel S A) F.
Proof. intros H s r s' E. inversion E; subst; auto. Qed.

Lemma may_bind {A B} (m : M S A) (k : A → M S B) (F : outcome A → Prop) (G : outcome B → Prop) :
  may m F →
  (∀ e, F (Raise e) → G (Raise e)) →
  (F OutOfFuel → G OutOfFuel) →
  (∀ a, may (k a) G) →
  may (bind m k) G.
Proof.
  intros Hm He Hf Hk s r s' E.
  apply bind_inv in E as [(a & s1 & E1 & E2) | [(e & E1 & ->) | (E1 & ->)]].
  - eapply Hk; eauto.
  - apply He. eapply Hm; eauto.
  - apply Hf. eapply Hm; eauto.
Qed.

Lemma may_try {A} (m : M S A) (catch : exn → bool) handler (F G : outcome A → Prop) :
  may m F →
  (∀ a, F (Ok a) → G (Ok a)) →
  (∀ e, F (Raise e) → catch e = false → G (Raise e)) →
  (F OutOfFuel → G OutOfFuel) →
  (∀ e, may (handler e) G) →
  may (try_except m catch handler) G.
Proof.
  intros Hm Ha He Hf Hh s r s' E. unfold try_except in E.
  destruct (m s) as [[a|e|] s1] eqn:E1; specialize (Hm _ _ _ E1).
  - inversion E; subst; auto.
  - destruct (catch e) eqn:Hc.
    + eapply Hh; eauto.
    + inversion E; subst; auto.
  - inversion E; subst; auto.
Qed.

Lemma may_for_each {A} (body : A → M S unit) l (F : outcome unit → Prop) :
  F (Ok tt) → (∀ x, may (body x) F) → may (for_each body l) F.
Proof.
  intros H0 Hb. induction l as [|x l IH]; simpl.
  - apply may_ret; auto.
  - eapply may_bind; [apply Hb | auto | auto | intros []; exact IH].
Qed.

End May.

(** A successful result or an [OSError]. *)
Definition ok_or_OSError {A} (r : outcome A) : Prop :=
  match r with
  | Ok _ => True
  | Raise e => is_OSError e = true
  | OutOfFuel => False
  end.

Definition always_ok {A} (r : outcome A) : Prop :=
  match r with Ok _ => True | _ => False end.

Lemma may_self {A} (k : FileLocker → M Self A) F :
  (∀ h, may (k h) F) → may (bind self k) F.
Proof. intros H s r s' E. unfold bind, self in E. eapply H; eauto. Qed.

Lemma may_sys {A} (c : syscall) (f : env_step → gmap path Z → option (A * gmap path Z)) :
  may (liftW (sys c f)) (λ r, match r with
                              | Ok _ => True
                              | Raise e => e = OSError c
                              | OutOfFuel => False
                              end).
Proof.
  intros s r s' E. apply liftW_inv in E as [_ E].
  apply sys_inv in E as [_ [(a & -> & _) | [-> _]]]; auto.
Qed.

Lemma may_sys_total {A} (c : syscall) (f : env_step → gmap path Z → A) :
  may (liftW (sys_total c f)) always_ok.
Proof.
  intros s r s' E. apply liftW_inv in E as [_ E].
  apply sys_total_inv in E as (_ & [a ->] & _). exact I.
Qed.

Lemma may_update f : may (update f) always_ok.
Proof. intros s r s' E. inversion E; subst. exact I. Qed.

Lemma may_update_world f : may (update_world f) always_ok.
Proof. intros s r s' E. inversion E; subst. exact I. Qed.

Lemma may_sys_os {A} (c : syscall) (f : env_step → gmap path Z → option (A * gmap path Z)) :
  may (liftW (sys c f)) ok_or_OSError.
Proof.
  eapply may_weaken; [apply may_sys|]. intros [a|e|]; simpl; auto. intros ->. reflexivity.
Qed.

Lemma may_isfile (p : path) : may (liftW (os_path_isfile p)) always_ok.
Proof.
  intros s r s' E. apply liftW_inv in E as [_ E].
  apply isfile_inv in E as [_ [[-> _] | [-> _]]]; exact I.
Qed.

(** The errors of [datetime.fromtimestamp] for a timestamp out of range;
    neither is an [OSError]. *)
Definition out_of_range (e : exn) : Prop := e = OverflowError ∨ e = ValueError.

(** A successful result, an [OSError], or the error of a timestamp out of
    range. *)
Definition conversion_outcome {A} (r : outcome A) : Prop :=
  match r with
  | Ok _ => True
  | Raise e => is_OSError e = true ∨ out_of_range e
  | OutOfFuel => False
  end.

Lemma ok_or_OSError_conversion {A} (r : outcome A) : ok_or_OSError r → conversion_outcome r.
Proof. destruct r; simpl; auto. Qed.

Lemma may_fromtimestamp {S} lib t : may (@datetime_fromtimestamp lib S t) conversion_outcome.
Proof.
  intros s r s' E. unfold datetime_fromtimestamp in E.
  destruct (fromtimestamp lib t); inversion E; subst; simpl; unfold out_of_range; auto.
Qed.

Lemma may_sys_conversion {A} (c : syscall)
      (f : env_step → gmap path Z → option (A * gmap path Z)) :
  may (liftW (sys c f)) conversion_outcome.
Proof. eapply may_weaken; [apply may_sys_os | apply ok_or_OSError_conversion]. Qed.

Lemma serverTimeLock_may lib : may (_serverTimeLock lib) conversion_outcome.
Proof.
  unfold _serverTimeLock. apply may_self; intros h.
  destruct (__serverTimeLock h); [apply may_ret; exact I|].
  eapply may_bind; [apply may_sys_conversion | auto | auto | intros stamp].
  eapply may_bind; [apply may_sys_conversion | auto | auto | intros mtime].
  eapply may_bind; [apply may_fromtimestamp | auto | auto | intros t].
  eapply may_bind; [apply may_update | contradiction | contradiction | intros _].
  eapply may_bind; [apply may_sys_conversion | auto | auto | intros _].
  apply may_ret; exact I.
Qed.

(** The clean-up of one file returns, or raises the error of a timestamp
    out of range. *)
Definition reap_outcome (r : outcome unit) : Prop :=
  match r with
  | Ok _ => True
  | Raise e => out_of_range e
  | OutOfFuel => False
  end.

(** Every [OSError] of the clean-up of one file is swallowed; the only
    other errors that can be raised inside the [try] are those of a
    timestamp out of range, and they get out. *)
Lemma reap_may lib p : may (reap lib p) reap_outcome.
Proof.
  unfold reap. eapply may_try with (F := conversion_outcome).
  - apply may_self; intros h.
    eapply may_bind; [apply may_sys_conversion | auto | auto | intros mtime].
    eapply may_bind; [apply may_fromtimestamp | auto | auto | intros t].
    eapply may_bind; [apply serverTimeLock_may | auto | auto | intros now].
    destruct (_ <? _); [apply may_sys_conversion | apply may_ret; exact I].
  - intros a _. exact I.
  - simpl. intros e [H1 | H1] H2; [congruence | exact H1].
  - contradiction.
  - intros e. apply may_ret. exact I.
Qed.

(** A listing returns the ids, or fails because the pattern did not
    compile, because [os.listdir] failed, or on a timestamp out of
    range. *)
Definition listing_outcome (r : outcome (list Z)) : Prop :=
  match r with
  | Ok _ => True
  | Raise (OSError (Listdir _)) | Raise (ReError _) => True
  | Raise OverflowError | Raise ValueError => True
  | _ => False
  end.

Lemma out_of_range_listing (e : exn) : out_of_range e → listing_outcome (Raise e).
Proof. intros [-> | ->]; exact I. Qed.

Lemma getLockFileIds_may lib : may (__getLockFileIds lib) listing_outcome.
Proof.
  unfold __getLockFileIds. apply may_self; intros h.
  destruct (re_compiles lib _); [|apply may_raise_; exact I].
  eapply may_bind; [apply may_sys | intros e ->; exact I | auto | intros names].
  eapply may_bind with (F := reap_outcome);
    [apply may_for_each; [exact I | apply reap_may]
    | intros e; apply out_of_range_listing | contradiction | intros _].
  apply may_ret. exact I.
Qed.

Definition unlock_outcome (r : outcome unit) : Prop :=
  match r with
  | Ok _ => True
  | Raise (OSError (Remove _)) => True
  | _ => False
  end.

Lemma unlock_may : may unlock unlock_outcome.
Proof.
  unfold unlock. apply may_self; intros h.
  eapply may_bind; [apply may_update_world | contradiction | contradiction | intros _].
  destruct (__pathLocker h); [|apply may_ret; exact I].
  eapply may_bind; [apply may_isfile | contradiction | contradiction | intros present].
  destruct present; [|apply may_ret; exact I].
  eapply may_weaken; [apply may_sys|]. intros [a|e|]; simpl; auto. intros ->. exact I.
Qed.

Definition draw_outcome (r : outcome unit) : Prop :=
  match r with Ok _ | OutOfFuel => True | Raise _ => False end.

Lemma draw_ticket_may fuel : may (draw_ticket fuel) draw_outcome.
Proof.
  induction fuel as [|fuel IH]; simpl; [apply may_out_of_fuel; exact I|].
  apply may_self; intros h.
  eapply may_bind with (F := always_ok); [| contradiction | contradiction | intros again].
  { destruct (__pathLocker h); [apply may_isfile | apply may_ret; exact I]. }
  destruct again; [|apply may_ret; exact I].
  eapply may_bind; [apply may_sys_total | contradiction | contradiction | intros i].
  eapply may_bind; [apply may_update | contradiction | contradiction | intros _].
  eapply may_bind; [apply may_update | contradiction | contradiction | intros _].
  exact IH.
Qed.

Definition create_outcome (r : outcome unit) : Prop :=
  match r with
  | Ok _ => True
  | Raise TypeError => True
  | Raise (CannotCreateLockFile _) => True
  | _ => False
  end.

Lemma create_ticket_may : may create_ticket create_outcome.
Proof.
  unfold create_ticket. apply may_self; intros h.
  destruct (__pathLocker h) as [p|]; [|apply may_raise_; exact I].
  eapply may_try; [apply may_sys_os | | | | ].
  - intros; exact I.
  - simpl. intros e H1 H2. congruence.
  - contradiction.
  - intros e. apply may_raise_. exact I.
Qed.

(** * Release *)

Lemma remove_inv p w r w' :
  os_remove p w = (r, w') →
  INSTANCES_LOCKED w' = INSTANCES_LOCKED w
  ∧ (r = Ok tt → files w' !! p = None).
Proof.
  unfold os_remove, sys. destruct (next_env w) as [e w1] eqn:E.
  apply next_env_registry in E as [E1 _].
  destruct (fault e); [intros H; inversion H; subst; simpl; split; [auto | discriminate]|].
  destruct (files w1 !! p);
    intros H; inversion H; subst; simpl; split; auto; try discriminate.
  intros _. apply lookup_delete_eq.
Qed.

Lemma not_elem_of_registry_remove o l : o ∉ registry_remove o l.
Proof.
  unfold registry_remove. intros H. apply list_elem_of_filter in H as [H _]. congruence.
Qed.

(** The handle's own ticket is not in the directory. *)
Definition ticket_absent (s : Self) : Prop :=
  ∀ p, __pathLocker (fst s) = Some p → files (snd s) !! p = None.

(** The handle is not in the process registry. *)
Definition unregistered (s : Self) : Prop :=
  oid (fst s) ∉ INSTANCES_LOCKED (snd s).

(** The existence test of the release could not stat the ticket: it is
    the last call made, it answered [False], and the deletion was
    skipped. *)
Definition probe_failed (s : Self) : Prop :=
  ∃ p, __pathLocker (fst s) = Some p ∧ last (trace (snd s)) = Some (Isfile p, false).

Lemma unlock_spec s r s' :
  unlock s = (r, s') →
  fst s' = fst s ∧ unregistered s' ∧ (r = Ok tt → ticket_absent s' ∨ probe_failed s').
Proof.
  destruct s as [h w]. unfold unlock, bind at 1, self. simpl.
  unfold bind at 1, update_world. simpl.
  pose proof (not_elem_of_registry_remove (oid h) (INSTANCES_LOCKED w)) as Hreg.
  unfold unregistered, ticket_absent, probe_failed.
  destruct (__pathLocker h) as [p|] eqn:Hp.
  - intros E. apply bind_inv in E as [(b & s1 & E1 & E) | [(e & E1 & ->) | (E1 & ->)]].
    + apply liftW_inv in E1 as [Hh1 E1]. destruct s1 as [h1 w1]; simpl in *; subst h1.
      apply isfile_inv in E1 as [Hr1 [[Hb Ht] | [Hb Ht]]]; inversion Hb; subst b.
      * case_bool_decide as Hfile.
        -- apply liftW_inv in E as [Hh2 E]. apply remove_inv in E as [Hr2 Hgone].
           simpl in *. rewrite Hh2, Hr2, Hr1. simpl. rewrite Hp.
           split; [reflexivity|]. split; [exact Hreg|].
           intros Hok. left. intros q [= <-]. auto.
        -- inversion E; subst; simpl. rewrite Hr1, Hp. simpl.
           split; [reflexivity|]. split; [exact Hreg|].
           intros _. left. intros q [= <-]. destruct (files w1 !! p) eqn:Hl; [|reflexivity].
           exfalso. apply Hfile. eauto.
      * inversion E; subst; simpl. rewrite Hr1, Hp. simpl.
        split; [reflexivity|]. split; [exact Hreg|].
        intros _. right. exists p. split; [reflexivity|].
        rewrite Ht. apply last_snoc.
    + apply may_isfile in E1. contradiction.
    + apply may_isfile in E1. contradiction.
  - intros E; inversion E; subst; simpl. rewrite Hp.
    split; [reflexivity|]. split; [exact Hreg|]. intros _. left. intros q [=].
Qed.

(** The calls [post] of a release and its result [r]: nothing for a
    handle without a ticket path; otherwise the existence test of the
    path, and the deletion when the test found the file.  [s'] is the state
    left. *)
Definition release_calls (s' : Self) (r : outcome unit) (post : list (syscall * bool)) : Prop :=
  match __pathLocker (fst s') with
  | None => post = [] ∧ r = Ok tt
  | Some p =>
      (post = [(Isfile p, false)] ∧ r = Ok tt)
      ∨ (post = [(Isfile p, true)] ∧ r = Ok tt ∧ files (snd s') !! p = None)
      ∨ (post = [(Isfile p, true); (Remove p, true)] ∧ r = Ok tt
         ∧ files (snd s') !! p = None)
      ∨ (post = [(Isfile p, true); (Remove p, false)] ∧ r = Raise (OSError (Remove p)))
  end.

Lemma remove_calls p w r w' :
  os_remove p w = (r, w') →
  (r = Ok tt ∧ trace w' = trace w ++ [(Remove p, true)] ∧ files w' !! p = None)
  ∨ (r = Raise (OSError (Remove p)) ∧ trace w' = trace w ++ [(Remove p, false)]).
Proof.
  intros E. pose proof (remove_inv _ _ _ _ E) as [_ Hgone].
  apply sys_inv in E as [_ [([] & -> & Ht) | [-> Ht]]]; auto.
Qed.

Lemma unlock_calls s r s' :
  unlock s = (r, s') →
  ∃ post, trace (snd s') = trace (snd s) ++ post ∧ release_calls s' r post.
Proof.
  intros E. pose proof (unlock_spec _ _ _ E) as (Hfst & _).
  unfold release_calls. rewrite Hfst. clear Hfst.
  destruct s as [h w]. unfold unlock, bind at 1, self in E. cbn [fst snd] in *.
  unfold bind at 1, update_world in E. cbn [fst snd] in E.
  destruct (__pathLocker h) as [p|].
  2: { inversion E; subst. exists []. rewrite app_nil_r. auto. }
  apply bind_inv in E as [(b & [h1 w1] & E1 & E) | [(e & E1 & ->) | (E1 & ->)]].
  2,3: apply may_isfile in E1; contradiction.
  apply liftW_inv in E1 as [_ E1]. cbn [fst snd] in E1.
  apply isfile_inv in E1 as [_ [[Hb Ht] | [Hb Ht]]]; inversion Hb; subst b;
    cbn [trace set_registry] in Ht.
  - case_bool_decide as Hfile.
    + destruct s' as [h' w']. apply liftW_inv in E as [_ E]. cbn [fst snd] in *.
      apply remove_calls in E as [(-> & Ht' & Hgone) | (-> & Ht')]; eexists;
        (split; [rewrite Ht', Ht, <- app_assoc; reflexivity|]); auto 6.
    + inversion E; subst. exists [(Isfile p, true)]. split; [exact Ht|].
      right. left. split; [reflexivity|]. split; [reflexivity|]. cbn [snd].
      destruct (files w1 !! p) eqn:Hl; [|reflexivity]. exfalso. apply Hfile. eauto.
  - inversion E; subst. exists [(Isfile p, false)]. split; [exact Ht|]. auto.
Qed.

(** A release that returned left no file at the ticket path, unless its
    existence test failed. *)
Lemma release_calls_absent s' tr post :
  release_calls s' (Ok tt) post →
  trace (snd s') = tr ++ post →
  ticket_absent s' ∨ probe_failed s'.
Proof.
  unfold release_calls, ticket_absent, probe_failed.
  destruct (__pathLocker (fst s')) as [p|].
  - intros [[-> _] | [(-> & _ & Hn) | [(-> & _ & Hn) | (_ & [=])]]] Htr.
    + right. exists p. split; [reflexivity|]. rewrite Htr. apply last_snoc.
    + left. intros q [= <-]. exact Hn.
    + left. intros q [= <-]. exact Hn.
  - intros _ _. left. intros q [=].
Qed.

(** * An acquisition attempt *)

Section Attempt.

Variable lib : Library.

(** The handle [o] entered [lock] at time [start0] with timeout [T]. *)
Variables (o : nat) (start0 T : Z).

Definition handle_attempting (h : FileLocker) : Prop :=
  __isLocked h = true ∧ oid h = o ∧ __start h = Some start0 ∧ timeout h = T.

Definition attempting_view (h : FileLocker) (reg : list nat) (tr : list (syscall * bool)) : Prop :=
  handle_attempting h ∧ o ∈ reg.

(** Between the entry of [lock] and its end: flag set, handle registered. *)
Definition attempting : Self → Prop := view attempting_view.

(** After the [break]: flag cleared, handle still registered. *)
Definition acquired (s : Self) : Prop :=
  __isLocked (fst s) = false ∧ oid (fst s) = o ∧ __start (fst s) = Some start0
  ∧ timeout (fst s) = T ∧ o ∈ INSTANCES_LOCKED (snd s).

(** The state left by a timeout: at a poll point the clock read [now],
    past the deadline, the handle released itself, and nothing was done
    after that. *)
Definition timed_out (s' : Self) : Prop :=
  ∃ s1 s2 now,
    attempting s1
    ∧ liftW time_time s1 = (Ok now, s2)
    ∧ start0 + seconds T < now
    ∧ unlock s2 = (Ok tt, s').

Definition attempt_post {A} (K : A → Self → Prop) (r : outcome A) (s' : Self) : Prop :=
  match r with
  | Ok a => K a s'
  | Raise (TimeoutError t) => t = T ∧ handle_attempting (fst s') ∧ timed_out s'
  | Raise (OSError (Remove _)) => handle_attempting (fst s') ∧ unregistered s'
  | _ => attempting s'
  end.

(** Outcomes that leave the attempt as it was. *)
Definition plain {A} (r : outcome A) : Prop :=
  match r with
  | Raise (TimeoutError _) | Raise (OSError (Remove _)) => False
  | _ => True
  end.

Lemma attempt_call {A} (m : M Self A) (allowed : outcome A → Prop) :
  invariant attempting m → may m allowed → (∀ r, allowed r → plain r) →
  hoare attempting m (attempt_post (λ _, attempting)).
Proof.
  intros Hi Hm Hp s r s' Hs E.
  pose proof (Hi _ _ _ Hs E) as Hs'. pose proof (Hp _ (Hm _ _ _ E)) as Hr.
  destruct r as [a|e|]; simpl; auto.
  destruct e as [| |c| | | | | | |]; simpl in *; auto; try contradiction.
  destruct c; simpl in *; auto; contradiction.
Qed.

Lemma attempt_bind {A B} (m : M Self A) (k : A → M Self B) (J : A → Self → Prop) K :
  hoare attempting m (attempt_post J) →
  (∀ a, hoare (J a) (k a) (attempt_post K)) →
  hoare attempting (bind m k) (attempt_post K).
Proof.
  intros Hm Hk. apply hoare_bind with (R := J); [|exact Hk].
  intros s r s' Hs E. specialize (Hm _ _ _ Hs E). destruct r; exact Hm.
Qed.

Local Ltac view_auto :=
  unfold attempting_view, handle_attempting; simpl; intros; tauto.

Lemma attempting_sys_total {A} (c : syscall) (f : env_step → gmap path Z → A) :
  is_open c = false → is_mkstemp c = false → invariant attempting (liftW (sys_total c f)).
Proof. apply frame_sys_total. view_auto. Qed.

Lemma attempting_listing : invariant attempting (__getLockFileIds lib).
Proof. apply getLockFileIds_frame; view_auto. Qed.

Lemma attempting_draw fuel : invariant attempting (draw_ticket fuel).
Proof. apply draw_ticket_frame; view_auto. Qed.

Lemma attempting_create : invariant attempting create_ticket.
Proof. apply create_ticket_frame; view_auto. Qed.

Lemma sleep_attempt : hoare attempting __sleep (attempt_post (λ _, attempting)).
Proof.
  intros [h w] r s' Hs E. unfold __sleep, bind at 1, self in E. simpl in E.
  pose proof Hs as [(Hflag & Hoid & Hstart & HT) Hreg]. simpl in *.
  rewrite Hstart, HT in E.
  apply bind_inv in E as [(now & s2 & E1 & E) | [(e & E1 & ->) | (E1 & ->)]].
  2,3: apply may_sys_total in E1; contradiction.
  pose proof (attempting_sys_total TimeTime _ eq_refl eq_refl _ _ _ Hs E1) as Hs2.
  destruct (start0 + seconds T <? now) eqn:Hlate.
  - apply Z.ltb_lt in Hlate.
    apply bind_inv in E as [([] & s3 & E2 & E) | [(e & E2 & ->) | (E2 & ->)]].
    + inversion E; subst; simpl.
      pose proof (unlock_spec _ _ _ E2) as (Hh & _).
      split; [reflexivity|]. split.
      * rewrite Hh. apply Hs2.
      * exists (h, w), s2, now. auto.
    + pose proof (unlock_may _ _ _ E2) as Hr.
      pose proof (unlock_spec _ _ _ E2) as (Hh & Hunreg & _).
      destruct e as [| |c| | | | | | |]; simpl in Hr; try contradiction.
      destruct c; try contradiction. simpl. rewrite Hh. split; [apply Hs2 | exact Hunreg].
    + apply unlock_may in E2. contradiction.
  - pose proof (attempting_sys_total TimeSleep _ eq_refl eq_refl _ _ _ Hs2 E) as Hs3.
    apply may_sys_total in E. destruct r; try contradiction. exact Hs3.
Qed.

Lemma poll_attempt :
  hoare attempting (poll lib)
        (attempt_post (λ b s', if b : bool then acquired s' else attempting s')).
Proof.
  unfold poll. eapply attempt_bind with (J := λ _, attempting); [apply sleep_attempt | intros _; cbv beta].
  eapply attempt_bind with (J := λ _, attempting).
  { eapply attempt_call; [apply attempting_listing | apply getLockFileIds_may |].
    intros [a|e|]; simpl; auto. destruct e; auto. destruct call; auto; contradiction. }
  intros ids; cbv beta. eapply attempt_bind with (J := λ _, attempting).
  { destruct ids; simpl.
    - apply hoare_raise. auto.
    - apply hoare_ret. auto. }
  intros lowest. apply hoare_self; intros h.
  destruct (lowest =? __id h).
  - apply hoare_bind with (R := λ _, acquired).
    + apply hoare_update. intros h' w [[(Hf & Ho & Hs & Ht) Hr] _].
      simpl in *. unfold acquired; simpl. auto.
    + intros _. apply hoare_ret. auto.
  - apply hoare_ret. intros s [Hs _]. exact Hs.
Qed.

Lemma wait_attempt fuel :
  hoare attempting (wait lib fuel) (attempt_post (λ _, acquired)).
Proof.
  induction fuel as [|fuel IH]; simpl.
  - apply hoare_out_of_fuel. auto.
  - eapply attempt_bind; [apply poll_attempt|].
    intros [|]; cbv beta; [apply hoare_ret; auto | exact IH].
Qed.

Lemma lock_loop_released fuel s :
  __isLocked (fst s) = false → lock_loop lib (S fuel) s = (Ok tt, s).
Proof. intros H. simpl. unfold bind, self. rewrite H. reflexivity. Qed.

Lemma lock_loop_attempt fuel :
  hoare attempting (lock_loop lib fuel) (attempt_post (λ _, acquired)).
Proof.
  induction fuel as [|fuel IH]; simpl.
  { apply hoare_out_of_fuel. auto. }
  apply hoare_self; intros h. destruct (__isLocked h) eqn:Hflag.
  2: { intros s r s' [[(Hf & _) _] Hh] _. simpl in Hh. subst h. congruence. }
  apply hoare_conseq with (P' := attempting) (Q' := attempt_post (λ _, acquired)); [|tauto|auto].
  eapply attempt_bind with (J := λ _, attempting).
  { eapply attempt_call; [apply attempting_listing | apply getLockFileIds_may |].
    intros [a|e|]; simpl; auto. destruct e; auto. destruct call; auto; contradiction. }
  intros [|i ids]; cbv beta.
  - destruct fuel as [|fuel].
    { apply hoare_bind with (R := λ _ _, False); [|intros _ ? ? ? []].
      apply hoare_out_of_fuel. auto. }
    eapply attempt_bind with (J := λ _, attempting).
    { eapply attempt_call; [apply attempting_draw | apply draw_ticket_may |].
      intros [a|e|]; simpl; auto; contradiction. }
    intros _; cbv beta. eapply attempt_bind with (J := λ _, attempting).
    { eapply attempt_call; [apply attempting_create | apply create_ticket_may |].
      intros [a|e|]; simpl; auto. destruct e; auto; contradiction. }
    intros _; cbv beta.
    apply hoare_bind with (R := λ _, acquired).
    { intros s r s' Hs E. pose proof (wait_attempt (S fuel) _ _ _ Hs E) as H.
      destruct r; exact H. }
    intros _ s r s' Hs E.
    rewrite lock_loop_released in E by apply Hs. inversion E; subst. exact Hs.
  - eapply attempt_bind with (J := λ _, attempting); [apply sleep_attempt | intros _; exact IH].
Qed.

(** [lock] on a handle whose flag is clear. *)
Definition entering (s : Self) : Prop :=
  __isLocked (fst s) = false ∧ oid (fst s) = o ∧ timeout (fst s) = T
  ∧ ∃ w1, time_time (set_registry (registry_add o (INSTANCES_LOCKED (snd s))) (snd s))
          = (Ok start0, w1).

Lemma elem_of_registry_add i l : i ∈ registry_add i l.
Proof.
  unfold registry_add. case_bool_decide; [assumption|].
  apply elem_of_app. right. apply list_elem_of_singleton. reflexivity.
Qed.

Lemma lock_attempt fuel :
  hoare entering (lock lib fuel) (attempt_post (λ _, acquired)).
Proof.
  intros [h w] r s' (Hflag & Hoid & HT & w1 & Ht) E. simpl in *.
  unfold lock, bind at 1, self in E. simpl in E. rewrite Hflag in E.
  unfold bind at 1, update_world in E. simpl in E.
  unfold bind at 1, liftW in E. simpl in E. rewrite Hoid, Ht in E.
  unfold bind at 1, update in E. simpl in E.
  unfold bind at 1, update in E. simpl in E.
  eapply lock_loop_attempt; [|exact E].
  pose proof (sys_total_inv _ _ _ _ _ Ht) as (Hr & _ & _).
  split; simpl.
  - unfold handle_attempting; simpl. auto.
  - rewrite Hr. simpl. apply elem_of_registry_add.
Qed.

End Attempt.

(** * What [lock] leaves behind *)

Lemma lock_already_locked lib fuel s :
  __isLocked (fst s) = true → lock lib fuel s = (Raise already_locked, s).
Proof. intros H. unfold lock, bind, self. rewrite H. reflexivity. Qed.

Lemma time_time_total w : ∃ t w1, time_time w = (Ok t, w1).
Proof. unfold time_time, sys_total. destruct (next_env w). eauto. Qed.

Lemma entering_intro s :
  __isLocked (fst s) = false →
  ∃ start0, entering (oid (fst s)) start0 (timeout (fst s)) s.
Proof.
  intros H.
  destruct (time_time_total
              (set_registry (registry_add (oid (fst s)) (INSTANCES_LOCKED (snd s))) (snd s)))
    as (t & w1 & E).
  exists t. unfold entering. eauto.
Qed.

(** Every way [lock] can end, from a handle whose flag was clear. *)
Lemma lock_outcome lib fuel s r s' :
  __isLocked (fst s) = false →
  lock lib fuel s = (r, s') →
  ∃ start0,
    entering (oid (fst s)) start0 (timeout (fst s)) s
    ∧ attempt_post (oid (fst s)) start0 (timeout (fst s))
                   (λ _, acquired (oid (fst s)) start0 (timeout (fst s))) r s'.
Proof.
  intros H E. destruct (entering_intro s H) as [start0 He].
  exists start0. split; [exact He|]. eapply lock_attempt; eauto.
Qed.

Lemma lock_ok_clears_flag lib fuel s s' :
  lock lib fuel s = (Ok tt, s') → locked (fst s') = false.
Proof.
  intros E. destruct (__isLocked (fst s)) eqn:H.
  - rewrite lock_already_locked in E by exact H. discriminate.
  - destruct (lock_outcome _ _ _ _ _ H E) as (start0 & _ & Hp). apply Hp.
Qed.

Lemma lock_failure_keeps_flag lib fuel s r s' :
  lock lib fuel s = (r, s') → r ≠ Ok tt → locked (fst s') = true.
Proof.
  intros E Hr. destruct (__isLocked (fst s)) eqn:H.
  - rewrite lock_already_locked in E by exact H. inversion E; subst. exact H.
  - destruct (lock_outcome _ _ _ _ _ H E) as (start0 & _ & Hp).
    destruct r as [[]|e|]; [congruence | |apply Hp].
    destruct e as [| |c| | | | | | |]; simpl in Hp; try apply Hp.
    destruct c; apply Hp.
Qed.

(** ** The life of a handle *)

(** What can happen to a handle between two observations: its methods are
    called, the caller reassigns [timeout], and the rest of the world
    (peers, other handles, the caller's own code) moves on. *)
Inductive step (lib : Library) : Self → Self → Prop :=
| step_lock fuel s r s' : lock lib fuel s = (r, s') → step lib s s'
| step_unlock s r s' : unlock s = (r, s') → step lib s s'
| step_clock s r s' : _serverTimeLock lib s = (r, s') → step lib s s'
| step_timeout h w t : step lib (h, w) (set_timeout t h, w)
| step_world h w w' : step lib (h, w) (h, w').

Definition lifetime (lib : Library) : Self → Self → Prop :=
  rtc (step lib).

Lemma flag_stays_set lib s s' :
  lifetime lib s s' → __isLocked (fst s) = true → __isLocked (fst s') = true.
Proof.
  induction 1 as [s | s1 s2 s3 Hstep _ IH]; [auto|].
  intros H. apply IH. clear IH. destruct Hstep as [fuel s r s' E | s r s' E | s r s' E | h w t | h w w'].
  - rewrite lock_already_locked in E by exact H. inversion E; subst. exact H.
  - apply unlock_spec in E as [-> _]. exact H.
  - eapply (serverTimeLock_frame lib (λ h _ _, __isLocked h = true)); eauto.
  - exact H.
  - exact H.
Qed.

(** C10.  After [lock] has raised the timeout error the flag is never
    cleared again: whatever happens to the handle afterwards, [locked]
    answers true and every further [lock] fails at once with the
    "already locked" state error, leaving handle and world untouched. *)
Theorem timed_out_handle_is_never_reusable lib fuel s t s1 :
  lock lib fuel s = (Raise (TimeoutError t), s1) →
  ∀ s2, lifetime lib s1 s2 →
    locked (fst s2) = true
    ∧ ∀ fuel', lock lib fuel' s2 = (Raise already_locked, s2).
Proof.
  intros E s2 Hlife.
  assert (H1 : locked (fst s1) = true)
    by (eapply lock_failure_keeps_flag; [exact E | discriminate]).
  pose proof (flag_stays_set _ _ _ Hlife H1) as H2.
  split; [exact H2|]. intros fuel'. apply lock_already_locked. exact H2.
Qed.

(** * The reference clock *)

Lemma serverTimeLock_cached lib s v :
  __serverTimeLock (fst s) = Some v → _serverTimeLock lib s = (Ok v, s).
Proof. intros H. unfold _serverTimeLock, bind, self. rewrite H. reflexivity. Qed.

Lemma serverTimeLock_caches lib s v s1 :
  _serverTimeLock lib s = (Ok v, s1) → __serverTimeLock (fst s1) = Some v.
Proof.
  destruct s as [h w]. unfold _serverTimeLock, bind at 1, self. simpl.
  destruct (__serverTimeLock h) eqn:Hc.
  { intros E; inversion E; subst. exact Hc. }
  intros E.
  apply bind_inv in E as [(stamp & s2 & E1 & E) | [(e & _ & [=]) | (_ & [=])]].
  apply bind_inv in E as [(mtime & s3 & E2 & E) | [(e & _ & [=]) | (_ & [=])]].
  apply bind_inv in E as [(t & s4 & _ & E) | [(e & _ & [=]) | (_ & [=])]].
  unfold bind at 1, update in E. simpl in E.
  apply bind_inv in E as [([] & s5 & E3 & E) | [(e & _ & [=]) | (_ & [=])]].
  apply liftW_inv in E3 as [Hh _]. simpl in Hh.
  inversion E; subst. rewrite Hh. reflexivity.
Qed.

(** No reading of the storage clock is taken between the logs [tr0] and
    [tr]. *)
Definition no_new_reading (tr0 tr : list (syscall * bool)) : Prop :=
  ∃ evs, tr = tr0 ++ evs ∧ Forall (λ ev, is_mkstemp (fst ev) = false) evs.

Lemma no_new_reading_refl tr : no_new_reading tr tr.
Proof. exists []. rewrite app_nil_r. auto. Qed.

Lemma no_new_reading_snoc tr0 tr c ok :
  is_mkstemp c = false → no_new_reading tr0 tr → no_new_reading tr0 (tr ++ [(c, ok)]).
Proof.
  intros Hc (evs & -> & Hevs). exists (evs ++ [(c, ok)]).
  rewrite app_assoc. split; [reflexivity|].
  apply Forall_app. split; [exact Hevs|]. constructor; [exact Hc | constructor].
Qed.

Definition cached_view (v : Z) (tr0 : list (syscall * bool))
           (h : FileLocker) (reg : list nat) (tr : list (syscall * bool)) : Prop :=
  __serverTimeLock h = Some v ∧ no_new_reading tr0 tr.

Lemma lock_keeps_cache lib fuel v tr0 :
  invariant (view (cached_view v tr0)) (lock lib fuel).
Proof.
  apply lock_frame; unfold cached_view; simpl;
    try (intros; intuition congruence);
    try (intros; intuition auto using no_new_reading_snoc).
Qed.

Lemma cache_stays lib s s' v :
  lifetime lib s s' →
  __serverTimeLock (fst s) = Some v → __serverTimeLock (fst s') = Some v.
Proof.
  induction 1 as [s | s1 s2 s3 Hstep _ IH]; [auto|].
  intros H. apply IH. clear IH.
  destruct Hstep as [fuel s r s' E | s r s' E | s r s' E | h w t | h w w'].
  - eapply (lock_keeps_cache lib fuel v (trace (snd s))); [|exact E].
    split; [exact H | apply no_new_reading_refl].
  - apply unlock_spec in E as [-> _]. exact H.
  - rewrite serverTimeLock_cached with (v := v) in E by exact H.
    inversion E; subst. exact H.
  - exact H.
  - exact H.
Qed.

(** C9.  The reference-clock reading is taken once and kept for the life
    of the handle: once the clock has answered [v], every later evaluation
    answers [v] again without touching the world, and a later [lock], with
    all its listings, keeps [v] and takes no new reading from the
    storage. *)
Theorem reference_clock_read_once lib s v s1 :
  _serverTimeLock lib s = (Ok v, s1) →
  ∀ s2, lifetime lib s1 s2 →
    _serverTimeLock lib s2 = (Ok v, s2)
    ∧ ∀ fuel r s3, lock lib fuel s2 = (r, s3) →
        __serverTimeLock (fst s3) = Some v
        ∧ no_new_reading (trace (snd s2)) (trace (snd s3)).
Proof.
  intros E s2 Hlife.
  pose proof (cache_stays _ _ _ _ Hlife (serverTimeLock_caches _ _ _ _ E)) as H2.
  split; [apply serverTimeLock_cached; exact H2|].
  intros fuel r s3 E3.
  eapply (lock_keeps_cache lib fuel v (trace (snd s2))); [|exact E3].
  split; [exact H2 | apply no_new_reading_refl].
Qed.

(** ** On the timeout scenario and on a first reading of the clock *)

Lemma timeout_run_raises : fst timeout_run = Raise (TimeoutError 1).
Proof. vm_compute. reflexivity. Qed.

Lemma timeout_run_eq :
  lock literal 5 (h1, world0 outrun) = (Raise (TimeoutError 1), snd timeout_run).
Proof.
  rewrite <- timeout_run_raises. unfold timeout_run.
  destruct (lock literal 5 (h1, world0 outrun)); reflexivity.
Defined.

(** The handle of the timeout scenario. *)
Lemma timed_out_handle_is_never_reusable_witness :
  locked (fst (snd timeout_run)) = true
  ∧ ∀ fuel', lock literal fuel' (snd timeout_run) = (Raise already_locked, snd timeout_run).
Proof.
  apply (timed_out_handle_is_never_reusable literal 5 (h1, world0 outrun) 1 (snd timeout_run)).
  - exact timeout_run_eq.
  - apply rtc_refl.
Defined.

Lemma clock_run_eq :
  _serverTimeLock literal (h1, world0 [rd (seconds 7)]) = (Ok (seconds 7), snd clock_run).
Proof. vm_compute. reflexivity. Defined.

(** A first reading of 7 s. *)
Lemma reference_clock_read_once_witness :
  _serverTimeLock literal (snd clock_run) = (Ok (seconds 7), snd clock_run)
  ∧ ∀ fuel r s3, lock literal fuel (snd clock_run) = (r, s3) →
      __serverTimeLock (fst s3) = Some (seconds 7)
      ∧ no_new_reading (trace (snd (snd clock_run))) (trace (snd s3)).
Proof.
  apply (reference_clock_read_once literal (h1, world0 [rd (seconds 7)]) (seconds 7)
                                   (snd clock_run)).
  - exact clock_run_eq.
  - apply rtc_refl.
Defined.

(** * Timeout *)

(** ** The script along a run *)

(** The value read by the call made [k] calls from now. *)
Definition reading_at (k : nat) (w : World) : Z := reading (nth k (env w) quiet_step).

(** [m] takes one step of the script and logs the call [c]. *)
Definition one_call {A} (c : syscall) (m : M World A) : Prop :=
  ∀ w r w', m w = (r, w') →
    env w' = tail (env w) ∧ ∃ ok, trace w' = trace w ++ [(c, ok)].

Lemma next_env_tail w e w1 :
  next_env w = (e, w1) →
  env w1 = tail (env w) ∧ trace w1 = trace w ∧ reading e = reading_at 0 w.
Proof.
  unfold next_env, reading_at. destruct (env w) as [|e0 es] eqn:He; intros H;
    inversion H; subst; cbn [env trace]; rewrite ?He; auto.
Qed.

Lemma sys_one_call {A} (c : syscall) (f : env_step → gmap path Z → option (A * gmap path Z)) :
  one_call c (sys c f).
Proof.
  intros w r w' E. unfold sys in E. destruct (next_env w) as [e w1] eqn:E1.
  apply next_env_tail in E1 as (He & Ht & _).
  destruct (if fault e then None else f e (files w1)) as [[a fs]|];
    inversion E; subst; simpl; rewrite He, Ht; eauto.
Qed.

Lemma sys_total_one_call {A} (c : syscall) (f : env_step → gmap path Z → A) :
  one_call c (sys_total c f).
Proof.
  intros w r w' E. unfold sys_total in E. destruct (next_env w) as [e w1] eqn:E1.
  apply next_env_tail in E1 as (He & Ht & _).
  inversion E; subst; simpl; rewrite He, Ht; eauto.
Qed.

Lemma isfile_one_call (p : path) : one_call (Isfile p) (os_path_isfile p).
Proof.
  intros w r w' E. unfold os_path_isfile in E. destruct (next_env w) as [e w1] eqn:E1.
  apply next_env_tail in E1 as (He & Ht & _).
  destruct (fault e); inversion E; subst; simpl; rewrite He, Ht; eauto.
Qed.

Lemma time_time_reads w r w' :
  time_time w = (r, w') →
  r = Ok (reading_at 0 w) ∧ env w' = tail (env w) ∧ trace w' = trace w ++ [(TimeTime, true)]
  ∧ INSTANCES_LOCKED w' = INSTANCES_LOCKED w.
Proof.
  unfold time_time, sys_total. destruct (next_env w) as [e w1] eqn:E1.
  pose proof (next_env_registry _ _ _ E1) as [Hr _].
  apply next_env_tail in E1 as (He & Ht & Hrd).
  intros E. inversion E; subst; simpl. rewrite He, Ht, Hrd, Hr. auto.
Qed.

Lemma reading_at_drop (n k : nat) (w0 w : World) :
  env w = drop n (env w0) → reading_at k w = reading_at (n + k) w0.
Proof. unfold reading_at. intros ->. rewrite nth_skipn. reflexivity. Qed.

Section Script.

Variable lib : Library.

(** The world when the run began, and what is known of the calls logged
    since. *)
Variable w0 : World.
Variable P : list (syscall * bool) → Prop.

(** Since [w0] the calls [evs] were logged, one for each step the script
    has advanced. *)
Definition paced (s : Self) : Prop :=
  ∃ evs, trace (snd s) = trace w0 ++ evs
         ∧ env (snd s) = drop (length evs) (env w0)
         ∧ P evs.

(** [P] does not mind calls other than a reading of the clock. *)
Hypothesis P_call : ∀ evs c ok, c ≠ TimeTime → P evs → P (evs ++ [(c, ok)]).

Lemma paced_call {A} (c : syscall) (m : M World A) :
  one_call c m → c ≠ TimeTime → invariant paced (liftW m).
Proof.
  intros Hm Hc [h w] r [h' w'] (evs & Htr & Henv & HP) E.
  apply liftW_inv in E as [_ E]. cbn [fst snd] in *.
  destruct (Hm _ _ _ E) as [He [ok Ht]].
  exists (evs ++ [(c, ok)]). cbn [fst snd]. split; [|split].
  - rewrite Ht, Htr, <- app_assoc. reflexivity.
  - rewrite He, Henv, length_app. change (tail (drop (length evs) (env w0)))
      with (drop 1 (drop (length evs) (env w0))). apply drop_drop.
  - apply P_call; assumption.
Qed.

Lemma paced_sys {A} (c : syscall) (f : env_step → gmap path Z → option (A * gmap path Z)) :
  c ≠ TimeTime → invariant paced (liftW (sys c f)).
Proof. apply (paced_call c), sys_one_call. Qed.

Lemma paced_sys_total {A} (c : syscall) (f : env_step → gmap path Z → A) :
  c ≠ TimeTime → invariant paced (liftW (sys_total c f)).
Proof. apply (paced_call c), sys_total_one_call. Qed.

Lemma paced_isfile (p : path) : invariant paced (liftW (os_path_isfile p)).
Proof. apply (paced_call (Isfile p)); [apply isfile_one_call | discriminate]. Qed.

Local Ltac paced_leaf :=
  first
    [ apply paced_sys; discriminate
    | apply paced_sys_total; discriminate
    | apply paced_isfile
    | apply inv_update; intros ? ? H; exact H ].

Local Ltac paced_auto := repeat first [inv_step | paced_leaf | assumption].

Lemma serverTimeLock_paced : invariant paced (_serverTimeLock lib).
Proof. unfold _serverTimeLock. paced_auto. Qed.

Lemma reap_paced (p : path) : invariant paced (reap lib p).
Proof. unfold reap. paced_auto. apply serverTimeLock_paced. Qed.

Lemma getLockFileIds_paced : invariant paced (__getLockFileIds lib).
Proof. unfold __getLockFileIds. paced_auto. apply reap_paced. Qed.

Lemma draw_ticket_paced (fuel : nat) : invariant paced (draw_ticket fuel).
Proof. induction fuel as [|fuel IH]; simpl; paced_auto. Qed.

Lemma create_ticket_paced : invariant paced create_ticket.
Proof. unfold create_ticket. paced_auto. Qed.

End Script.

(** ** The poll point that raises *)

Section Deadline.

Variable lib : Library.

(** The world in which the wait began, the time [lock] was entered and
    the timeout of the handle. *)
Variable w0 : World.
Variables (start T : Z).

(** Every poll point among the calls [evs] came before the deadline. *)
Definition in_time (evs : list (syscall * bool)) : Prop :=
  ∀ k, evs !! k = Some (TimeTime, true) → reading_at k w0 <= start + seconds T.

Lemma in_time_call evs c ok : c ≠ TimeTime → in_time evs → in_time (evs ++ [(c, ok)]).
Proof.
  intros Hc H k Hk. apply lookup_snoc_Some in Hk as [[_ Hk] | [_ Hk]]; [auto | congruence].
Qed.

Definition waiting_handle (h : FileLocker) (_ : list nat) (_ : list (syscall * bool)) : Prop :=
  __start h = Some start ∧ timeout h = T.

(** While the handle waits: the script and the log advance together, and
    no poll point has been late. *)
Definition waiting (s : Self) : Prop := paced w0 in_time s ∧ view waiting_handle s.

(** What a timeout leaves: the calls [pre] of the wait, none of them a
    late poll point, then the reading of the clock that was late, then the
    calls [post] of the release and nothing more. *)
Definition late (s' : Self) : Prop :=
  ∃ pre post,
    trace (snd s') = trace w0 ++ pre ++ (TimeTime, true) :: post
    ∧ in_time pre
    ∧ start + seconds T < reading_at (length pre) w0
    ∧ release_calls s' (Ok tt) post
    ∧ unregistered s'.

Definition deadline_post {A} (K : A → Self → Prop) (r : outcome A) (s' : Self) : Prop :=
  match r with
  | Ok a => K a s'
  | Raise (TimeoutError t) => t = T ∧ late s'
  | Raise (OSError (Remove _)) => True
  | _ => waiting s'
  end.

Lemma deadline_call {A} (m : M Self A) (allowed : outcome A → Prop) :
  invariant (paced w0 in_time) m → invariant (view waiting_handle) m →
  may m allowed → (∀ r, allowed r → plain r) →
  hoare waiting m (deadline_post (λ _, waiting)).
Proof.
  intros Hp Hv Hm Hpl s r s' [Hs1 Hs2] E.
  assert (Hs' : waiting s') by (split; [eapply Hp | eapply Hv]; eauto).
  pose proof (Hpl _ (Hm _ _ _ E)) as Hr.
  destruct r as [a|e|]; simpl; auto.
  destruct e as [| |c| | | | | | |]; simpl in *; auto; try contradiction.
  destruct c; simpl in *; auto; contradiction.
Qed.

Lemma deadline_bind {A B} (m : M Self A) (k : A → M Self B) (J : A → Self → Prop) K :
  hoare waiting m (deadline_post J) →
  (∀ a, hoare (J a) (k a) (deadline_post K)) →
  hoare waiting (bind m k) (deadline_post K).
Proof.
  intros Hm Hk. apply hoare_bind with (R := J); [|exact Hk].
  intros s r s' Hs E. specialize (Hm _ _ _ Hs E). destruct r; exact Hm.
Qed.

Local Ltac handle_auto := unfold waiting_handle; simpl; intros; tauto.

Lemma listing_deadline :
  hoare waiting (__getLockFileIds lib) (deadline_post (λ _, waiting)).
Proof.
  eapply deadline_call;
    [ apply getLockFileIds_paced; apply in_time_call
    | apply getLockFileIds_frame; handle_auto
    | apply getLockFileIds_may |].
  intros [a|e|]; simpl; auto. destruct e; auto. destruct call; auto; contradiction.
Qed.

Lemma draw_deadline fuel : hoare waiting (draw_ticket fuel) (deadline_post (λ _, waiting)).
Proof.
  eapply deadline_call;
    [ apply draw_ticket_paced; apply in_time_call
    | apply draw_ticket_frame; handle_auto
    | apply draw_ticket_may |].
  intros [a|e|]; simpl; auto; contradiction.
Qed.

Lemma create_deadline : hoare waiting create_ticket (deadline_post (λ _, waiting)).
Proof.
  eapply deadline_call;
    [ apply create_ticket_paced; apply in_time_call
    | apply create_ticket_frame; handle_auto
    | apply create_ticket_may |].
  intros [a|e|]; simpl; auto. destruct e; auto; contradiction.
Qed.

(** A poll point: in time, the handle sleeps and waits on; late, it
    releases itself and raises. *)
Lemma sleep_deadline : hoare waiting __sleep (deadline_post (λ _, waiting)).
Proof.
  intros [h w] r s' [(evs & Htr & Henv & Hin) Hh] E.
  pose proof Hh as [Hstart HT]. cbn [fst snd] in *.
  unfold __sleep, bind at 1, self in E. cbn [fst snd] in E. rewrite Hstart, HT in E.
  apply bind_inv in E as [(now & [h2 w2] & E1 & E) | [(e & E1 & ->) | (E1 & ->)]].
  2,3: apply may_sys_total in E1; contradiction.
  apply liftW_inv in E1 as [Hh2 E1]. cbn [fst snd] in *. subst h2.
  apply time_time_reads in E1 as (Hnow & Henv2 & Htr2 & Hreg2). inversion Hnow; subst now.
  rewrite (reading_at_drop (length evs) 0 w0 w Henv), Nat.add_0_r in E.
  destruct (Z.ltb_spec (start + seconds T) (reading_at (length evs) w0)) as [Hlate|Hok].
  - apply bind_inv in E as [([] & s3 & E2 & E) | [(e & E2 & ->) | (E2 & ->)]].
    + inversion E; subst; simpl. split; [reflexivity|].
      pose proof (unlock_spec _ _ _ E2) as (Hfst & Hunreg & _).
      destruct (unlock_calls _ _ _ E2) as (post & Htr3 & Hcalls).
      exists evs, post. cbn [fst snd] in Htr3.
      rewrite Htr3, Htr2, Htr, <- !app_assoc. auto.
    + pose proof (unlock_may _ _ _ E2) as Hr.
      destruct e as [| |c| | | | | | |]; simpl in Hr; try contradiction.
      destruct c; try contradiction. exact I.
    + apply unlock_may in E2. contradiction.
  - destruct r as [[]|e|].
    + simpl. destruct s' as [h3 w3]. apply liftW_inv in E as [Hh3 E]. cbn [fst snd] in *.
      subst h3. split; [|exact Hh].
      destruct (sys_total_one_call _ _ _ _ _ E) as [He3 [ok Ht3]].
      pose proof (sys_total_inv _ _ _ _ _ E) as (_ & _ & Ht3').
      exists (evs ++ [(TimeTime, true)] ++ [(TimeSleep, true)]). cbn [fst snd].
      split; [|split].
      * rewrite Ht3', Htr2, Htr, <- !app_assoc. reflexivity.
      * rewrite He3, Henv2, Henv, !length_app. cbn [length].
        change (tail (tail (drop (length evs) (env w0))))
          with (drop 1 (drop 1 (drop (length evs) (env w0)))).
        rewrite !drop_drop. f_equal.
      * rewrite app_assoc. apply in_time_call; [discriminate|].
        intros k Hk. apply lookup_snoc_Some in Hk as [[_ Hk] | [-> _]]; [auto | exact Hok].
    + apply may_sys_total in E. contradiction.
    + apply may_sys_total in E. contradiction.
Qed.

Lemma poll_deadline : hoare waiting (poll lib) (deadline_post (λ _, waiting)).
Proof.
  unfold poll. eapply deadline_bind with (J := λ _, waiting); [apply sleep_deadline | intros _].
  eapply deadline_bind with (J := λ _, waiting); [apply listing_deadline | intros ids].
  eapply deadline_bind with (J := λ _, waiting).
  { destruct ids; simpl; [apply hoare_raise | apply hoare_ret]; auto. }
  intros lowest. apply hoare_self; intros h.
  apply hoare_conseq with (P' := waiting) (Q' := deadline_post (λ _, waiting)); [|tauto|auto].
  destruct (lowest =? __id h).
  - apply hoare_bind with (R := λ _, waiting).
    + apply hoare_update. intros h' w [Hp Hv]. split; [exact Hp | exact Hv].
    + intros _. apply hoare_ret. auto.
  - apply hoare_ret. auto.
Qed.

Lemma wait_deadline fuel : hoare waiting (wait lib fuel) (deadline_post (λ _, waiting)).
Proof.
  induction fuel as [|fuel IH]; simpl.
  - apply hoare_out_of_fuel. auto.
  - eapply deadline_bind; [apply poll_deadline|].
    intros [|]; cbv beta; [apply hoare_ret; auto | exact IH].
Qed.

Lemma lock_loop_deadline fuel :
  hoare waiting (lock_loop lib fuel) (deadline_post (λ _, waiting)).
Proof.
  induction fuel as [|fuel IH]; simpl.
  { apply hoare_out_of_fuel. auto. }
  apply hoare_self; intros h.
  apply hoare_conseq with (P' := waiting) (Q' := deadline_post (λ _, waiting)); [|tauto|auto].
  destruct (__isLocked h); [|apply hoare_ret; auto].
  eapply deadline_bind with (J := λ _, waiting); [apply listing_deadline | intros [|i ids]].
  - eapply deadline_bind with (J := λ _, waiting); [apply draw_deadline | intros _].
    eapply deadline_bind with (J := λ _, waiting); [apply create_deadline | intros _].
    eapply deadline_bind with (J := λ _, waiting); [apply wait_deadline | intros _; exact IH].
  - eapply deadline_bind with (J := λ _, waiting); [apply sleep_deadline | intros _; exact IH].
Qed.

End Deadline.

(** C3, as the code has it.  When [lock] fails with the timeout error,
    the calls it has made are: the reading of the clock at its entry, which
    gives [start]; the calls [pre] of the wait, in which every poll point
    read the clock at [start + timeout] at the latest; one more reading of
    the clock, later than [start + timeout]; and the calls [post] of the
    release, after which nothing more is called (no retry).  The release
    takes the handle out of the registry and tests whether its ticket is
    there: when the test finds no file, or finds it and deletes it, no
    file is left at the ticket path; when the stat of the test fails, the
    test answers false, the deletion is skipped and the ticket may be
    left. *)
Theorem lock_timeout_self_releases lib fuel s t s' :
  lock lib fuel s = (Raise (TimeoutError t), s') →
  ∃ pre post,
    trace (snd s') = trace (snd s) ++ (TimeTime, true) :: pre ++ (TimeTime, true) :: post
    ∧ t = timeout (fst s)
    ∧ (∀ k, pre !! k = Some (TimeTime, true) →
            reading_at (S k) (snd s) <= reading_at 0 (snd s) + seconds t)
    ∧ reading_at 0 (snd s) + seconds t < reading_at (S (length pre)) (snd s)
    ∧ release_calls s' (Ok tt) post
    ∧ unregistered s'
    ∧ (ticket_absent s' ∨ probe_failed s').
Proof.
  intros E. destruct s as [h w]. cbn [fst snd].
  destruct (__isLocked h) eqn:Hflag.
  { rewrite lock_already_locked in E by exact Hflag. discriminate. }
  unfold lock, bind at 1, self in E. cbn [fst snd] in E. rewrite Hflag in E.
  unfold bind at 1, update_world in E. cbn [fst snd] in E.
  apply bind_inv in E as [(now & [h1 w1] & Et & E) | [(e & Et & [=]) | (_ & [=])]].
  2: { apply may_sys_total in Et. contradiction. }
  apply liftW_inv in Et as [Hh1 Et]. cbn [fst snd] in *. subst h1.
  apply time_time_reads in Et as (Hnow & Henv & Htr & _). inversion Hnow; subst now.
  change (reading_at 0 (set_registry (registry_add (oid h) (INSTANCES_LOCKED w)) w))
    with (reading_at 0 w) in E.
  cbn [env trace set_registry] in Henv, Htr.
  unfold bind at 1, update in E. cbn [fst snd] in E.
  unfold bind at 1, update in E. cbn [fst snd] in E.
  assert (Hw : waiting w1 (reading_at 0 w) (timeout h)
                       (set_isLocked true (set_start (Some (reading_at 0 w)) h), w1)).
  { split; [|split; reflexivity]. exists []. cbn [fst snd length drop].
    rewrite app_nil_r. split; [reflexivity|]. split; [reflexivity|].
    intros k Hk. discriminate. }
  pose proof (lock_loop_deadline lib w1 (reading_at 0 w) (timeout h) fuel _ _ _ Hw E) as Hpost.
  cbn [deadline_post] in Hpost.
  destruct Hpost as (-> & pre & post & Htr' & Hin & Hlate & Hcalls & Hunreg).
  assert (Hrd : ∀ k, reading_at k w1 = reading_at (S k) w).
  { intros k. apply (reading_at_drop 1 k w w1). exact Henv. }
  exists pre, post. split; [|split; [reflexivity|split; [|split; [|split; [exact Hcalls|split]]]]].
  - rewrite Htr', Htr, <- app_assoc. reflexivity.
  - intros k Hk. rewrite <- Hrd. apply Hin. exact Hk.
  - rewrite <- Hrd. exact Hlate.
  - exact Hunreg.
  - apply release_calls_absent with (tr := trace w1 ++ pre ++ [(TimeTime, true)]) (post := post);
      [exact Hcalls|].
    rewrite Htr', <- !app_assoc. reflexivity.
Qed.

(** The timeout scenario. *)
Lemma lock_timeout_self_releases_witness :
  ∃ pre post,
    trace (snd (snd timeout_run))
    = trace (world0 outrun) ++ (TimeTime, true) :: pre ++ (TimeTime, true) :: post
    ∧ 1 = timeout h1
    ∧ (∀ k, pre !! k = Some (TimeTime, true) →
            reading_at (S k) (world0 outrun) <= reading_at 0 (world0 outrun) + seconds 1)
    ∧ reading_at 0 (world0 outrun) + seconds 1 < reading_at (S (length pre)) (world0 outrun)
    ∧ release_calls (snd timeout_run) (Ok tt) post
    ∧ unregistered (snd timeout_run)
    ∧ (ticket_absent (snd timeout_run) ∨ probe_failed (snd timeout_run)).
Proof.
  exact (lock_timeout_self_releases literal 5 (h1, world0 outrun) 1 (snd timeout_run)
                                    timeout_run_eq).
Defined.

(** In the scenario the handle had created ticket 500; after the timeout
    only the peer's ticket is left.  The late poll point is the call after
    the twelve of the wait: the clock read 1001.5 s there, and 1000 s at
    the entry and at the first poll point. *)
Example timeout_run_files :
  __pathLocker (fst (snd timeout_run)) = Some ("d", "locker.000500")
  ∧ map_to_list (files (snd (snd timeout_run))) = [(("d", "locker.000001"), seconds 1000)]
  ∧ INSTANCES_LOCKED (snd (snd timeout_run)) = []
  ∧ reading_at 0 (world0 outrun) = seconds 1000
  ∧ reading_at 5 (world0 outrun) = seconds 1000
  ∧ reading_at 13 (world0 outrun) = seconds 1001 + 500000
  ∧ drop 13 (trace (snd (snd timeout_run)))
    = [ (TimeTime, true); (Isfile ("d", "locker.000500"), true);
        (Remove ("d", "locker.000500"), true) ].
Proof. vm_compute. repeat split; reflexivity. Qed.

(** C3, against the claim.  The same run, except that at the release the
    stat of the handle's ticket fails: [os.path.isfile] answers false, the
    deletion is skipped, and [lock] raises the timeout error with the
    ticket of the handle still in the directory. *)
Lemma timeout_may_leave_the_ticket :
  fst blind_run = Raise (TimeoutError 1)
  ∧ __pathLocker (fst (snd blind_run)) = Some ("d", "locker.000500")
  ∧ files (snd (snd blind_run)) !! ("d", "locker.000500") = Some (seconds 1000)
  ∧ ¬ ticket_absent (snd blind_run)
  ∧ drop 13 (trace (snd (snd blind_run)))
    = [ (TimeTime, true); (Isfile ("d", "locker.000500"), false) ].
Proof.
  split; [vm_compute; reflexivity|]. split; [vm_compute; reflexivity|].
  assert (H : files (snd (snd blind_run)) !! ("d", "locker.000500") = Some (seconds 1000))
    by (vm_compute; reflexivity).
  split; [exact H|]. split; [|vm_compute; reflexivity].
  intros Habs. specialize (Habs ("d", "locker.000500")%string eq_refl).
  pose proof (eq_trans (eq_sym H) Habs) as Hc. discriminate Hc.
Qed.

(** * The flag after a successful [lock] *)

Definition no_RuntimeError {A} (r : outcome A) : Prop :=
  match r with Raise (RuntimeError _) => False | _ => True end.

Lemma sleep_may : may __sleep no_RuntimeError.
Proof.
  unfold __sleep. apply may_self; intros h.
  destruct (__start h); [|apply may_raise_; exact I].
  eapply may_bind; [apply may_sys_total | contradiction | contradiction | intros now].
  destruct (_ <? _).
  - eapply may_bind; [apply unlock_may | | contradiction | intros _; apply may_raise_; exact I].
    intros [| |c| | | | | | |]; simpl; auto.
  - eapply may_weaken; [apply may_sys_total|]. intros [a|e|]; simpl; try contradiction; auto.
Qed.

Lemma poll_may lib : may (poll lib) no_RuntimeError.
Proof.
  unfold poll.
  eapply may_bind; [apply sleep_may | auto | auto | intros _].
  eapply may_bind; [apply getLockFileIds_may | | contradiction | intros ids].
  { intros [| |c| | | | | | |]; simpl; auto. }
  eapply may_bind with (F := no_RuntimeError); [| auto | auto | intros lowest].
  { destruct ids; [apply may_raise_ | apply may_ret]; exact I. }
  apply may_self; intros h. destruct (_ =? _); [|apply may_ret; exact I].
  eapply may_bind; [apply may_update | contradiction | contradiction | intros _].
  apply may_ret; exact I.
Qed.

Lemma wait_may lib fuel : may (wait lib fuel) no_RuntimeError.
Proof.
  induction fuel as [|fuel IH]; simpl; [apply may_out_of_fuel; exact I|].
  eapply may_bind; [apply poll_may | auto | auto | intros [|]]; [apply may_ret; exact I | exact IH].
Qed.

Lemma lock_loop_may lib fuel : may (lock_loop lib fuel) no_RuntimeError.
Proof.
  induction fuel as [|fuel IH]; simpl; [apply may_out_of_fuel; exact I|].
  apply may_self; intros h. destruct (__isLocked h); [|apply may_ret; exact I].
  eapply may_bind; [apply getLockFileIds_may | | contradiction | intros ids].
  { intros [| |c| | | | | | |]; simpl; auto. }
  destruct ids.
  - eapply may_bind; [apply draw_ticket_may | contradiction | auto | intros _].
    eapply may_bind; [apply create_ticket_may | | contradiction | intros _].
    { intros [| |c| | | | | | |]; simpl; auto. }
    eapply may_bind; [apply wait_may | auto | auto | intros _; exact IH].
  - eapply may_bind; [apply sleep_may | auto | auto | intros _; exact IH].
Qed.

(** A second [lock] on a handle that holds the lock is not rejected: it
    reads the clock and goes on to poll the directory. *)
Lemma relock_is_not_rejected lib fuel s s1 fuel2 r2 s2 :
  lock lib fuel s = (Ok tt, s1) →
  lock lib fuel2 s1 = (r2, s2) →
  no_RuntimeError r2
  ∧ ∃ evs, trace (snd s2) = trace (snd s1) ++ (TimeTime, true) :: evs.
Proof.
  intros E1 E2. pose proof (lock_ok_clears_flag _ _ _ _ E1) as Hflag.
  unfold locked in Hflag. destruct s1 as [h w]. simpl in Hflag.
  unfold lock, bind at 1, self in E2. simpl in E2. rewrite Hflag in E2.
  unfold bind at 1, update_world in E2. simpl in E2.
  apply bind_inv in E2 as [(now & s3 & Et & E2) | [(e & Et & ->) | (Et & ->)]].
  2,3: apply may_sys_total in Et; contradiction.
  apply liftW_inv in Et as [_ Et]. apply sys_total_inv in Et as (_ & _ & Htr). simpl in Htr.
  unfold bind at 1, update in E2. simpl in E2.
  unfold bind at 1, update in E2. simpl in E2.
  split; [eapply lock_loop_may; exact E2|].
  assert (Hgrow : invariant
            (view (λ _ _ tr, ∃ evs, tr = trace w ++ (TimeTime, true) :: evs))
            (lock_loop lib fuel2)).
  { apply lock_loop_frame; simpl; intros; try assumption;
      match goal with
      | H : ∃ _, _ |- _ =>
          destruct H as [evs ->]; eexists (evs ++ [_]);
          rewrite <- app_assoc; reflexivity
      end. }
  eapply Hgrow; [|exact E2]. exists []. exact Htr.
Qed.

(** ** A solo acquisition, and a second [lock] on the same handle *)

(** C5, on the code.  A fresh handle acquires the lock in an empty
    directory: [lock] returns successfully, and the [locked] query then
    answers false, where the claim has true; it answers false before [lock]
    and after [unlock] as the claim says. *)
Theorem locked_is_false_while_holding :
  locked h0 = false
  ∧ fst solo_run = Ok tt
  ∧ locked (fst (snd solo_run)) = false
  ∧ locked (fst (snd (unlock (snd solo_run)))) = false.
Proof. vm_compute. auto. Qed.

(** C4, on the code.  On the handle that holds the lock (ticket 123 is in
    the directory), a second [lock] does not fail with the state error: it
    reads the clock, lists the directory, stats the ticket, and at the next
    poll point times out, deleting the ticket the handle was holding. *)
Theorem second_lock_is_not_rejected :
  fst solo_run = Ok tt
  ∧ files (snd (snd solo_run)) !! ("d", "locker.000123") = Some (seconds 1000)
  ∧ fst relock_run = Raise (TimeoutError 20)
  ∧ fst relock_run ≠ Raise already_locked
  ∧ files (snd (snd relock_run)) !! ("d", "locker.000123") = None
  ∧ trace (snd (snd relock_run)) =
      trace (snd (snd solo_run))
      ++ [ (TimeTime, true); (Listdir "d", true); (Getmtime ("d", "locker.000123"), true);
           (TimeTime, true); (Isfile ("d", "locker.000123"), true);
           (Remove ("d", "locker.000123"), true) ].
Proof. vm_compute. repeat split; auto. discriminate. Qed.

(** * One poll of the wait loop *)

(** The lowest of the listed ids, if any is listed. *)
Definition lowest (ids : list Z) : option Z :=
  match ids with
  | [] => None
  | x :: l => Some (foldl Z.min x l)
  end.

Lemma foldl_min_le (l : list Z) (x : Z) :
  foldl Z.min x l <= x ∧ ∀ y, y ∈ l → foldl Z.min x l <= y.
Proof.
  revert x. induction l as [|a l IH]; intros x; simpl.
  - split; [lia|]. intros y Hy. inversion Hy.
  - destruct (IH (Z.min x a)) as [H1 H2]. split; [lia|].
    intros y Hy. apply elem_of_cons in Hy as [->|Hy]; [lia | auto].
Qed.

Lemma lowest_le ids m y : lowest ids = Some m → y ∈ ids → m <= y.
Proof.
  destruct ids as [|x l]; [discriminate|]. intros [= <-] Hy.
  destruct (foldl_min_le l x) as [H1 H2].
  apply elem_of_cons in Hy as [->|Hy]; auto.
Qed.

(** What a poll does once it has slept and listed [ids]. *)
Lemma poll_after_listing lib s s1 ids s2 :
  __sleep s = (Ok tt, s1) →
  __getLockFileIds lib s1 = (Ok ids, s2) →
  poll lib s =
    match lowest ids with
    | None => (Raise ValueError, s2)
    | Some m =>
        if m =? __id (fst s2)
        then (Ok true, (set_isLocked false (fst s2), snd s2))
        else (Ok false, s2)
    end.
Proof.
  intros E1 E2. unfold poll, bind at 1. rewrite E1.
  unfold bind at 1. rewrite E2.
  destruct ids as [|x l]; simpl; [reflexivity|].
  unfold bind at 1, ret. unfold bind at 1, self.
  destruct (foldl Z.min x l =? __id (fst s2)); reflexivity.
Qed.

Lemma sleep_keeps_id s r s' : __sleep s = (r, s') → __id (fst s') = __id (fst s).
Proof.
  intros E. symmetry.
  eapply (sleep_frame (λ h _ _, __id (fst s) = __id h));
    try exact E; try (intros; assumption); reflexivity.
Qed.

Lemma listing_keeps_id lib s r s' :
  __getLockFileIds lib s = (r, s') → __id (fst s') = __id (fst s).
Proof.
  intros E. symmetry.
  eapply (getLockFileIds_frame lib (λ h _ _, __id (fst s) = __id h));
    try exact E; try (intros; assumption); reflexivity.
Qed.

(** On a poll that sleeps and lists [ids], the handle breaks out of the
    wait loop exactly when the lowest listed id is its own; when a lower
    id is listed it goes round the loop again; when nothing is listed,
    [min] raises. *)
Lemma poll_acquires_iff_lowest lib s s1 ids s2 :
  __sleep s = (Ok tt, s1) →
  __getLockFileIds lib s1 = (Ok ids, s2) →
  (fst (poll lib s) = Ok true ↔ lowest ids = Some (__id (fst s)))
  ∧ (∀ m, lowest ids = Some m → m ≠ __id (fst s) → poll lib s = (Ok false, s2))
  ∧ (lowest ids = None → poll lib s = (Raise ValueError, s2)).
Proof.
  intros E1 E2. rewrite (poll_after_listing _ _ _ _ _ E1 E2).
  rewrite (listing_keeps_id _ _ _ _ E2), (sleep_keeps_id _ _ _ E1).
  destruct (lowest ids) as [m|]; simpl.
  - destruct (Z.eqb_spec m (__id (fst s))) as [->|Hne]; simpl.
    + split; [tauto|]. split; [congruence | discriminate].
    + split; [split; [discriminate | congruence]|]. split; [auto | discriminate].
  - split; [split; discriminate|]. split; [discriminate | auto].
Qed.

(** A poll that finds the handle's id lowest ends [lock] successfully. *)
Lemma wait_returns_on_lowest lib fuel s s1 ids s2 :
  __sleep s = (Ok tt, s1) →
  __getLockFileIds lib s1 = (Ok ids, s2) →
  lowest ids = Some (__id (fst s)) →
  wait lib (S fuel) s = (Ok tt, (set_isLocked false (fst s2), snd s2))
  ∧ lock_loop lib (S fuel) (set_isLocked false (fst s2), snd s2)
    = (Ok tt, (set_isLocked false (fst s2), snd s2)).
Proof.
  intros E1 E2 Hlow. split; [|apply lock_loop_released; reflexivity].
  simpl. unfold bind at 1. rewrite (poll_after_listing _ _ _ _ _ E1 E2), Hlow.
  rewrite (listing_keeps_id _ _ _ _ E2), (sleep_keeps_id _ _ _ E1), Z.eqb_refl.
  reflexivity.
Qed.

(** A poll that finds a lower id goes round the wait loop again. *)
Lemma wait_continues_on_higher lib fuel s s1 ids s2 m :
  __sleep s = (Ok tt, s1) →
  __getLockFileIds lib s1 = (Ok ids, s2) →
  lowest ids = Some m → m ≠ __id (fst s) →
  wait lib (S fuel) s = wait lib fuel s2.
Proof.
  intros E1 E2 Hlow Hne. simpl. unfold bind at 1.
  destruct (poll_acquires_iff_lowest _ _ _ _ _ E1 E2) as (_ & H & _).
  rewrite (H _ Hlow Hne). reflexivity.
Qed.

(** Of two ids both listed, the higher one is not the lowest: its handle
    cannot acquire on that poll. *)
Lemma higher_ticket_cannot_acquire lib s s1 ids s2 other :
  __sleep s = (Ok tt, s1) →
  __getLockFileIds lib s1 = (Ok ids, s2) →
  other ∈ ids → other < __id (fst s) →
  fst (poll lib s) ≠ Ok true.
Proof.
  intros E1 E2 Hin Hlt Hacq.
  apply (poll_acquires_iff_lowest _ _ _ _ _ E1 E2) in Hacq.
  pose proof (lowest_le _ _ _ Hacq Hin). lia.
Qed.

(** C1, on the code.  The handle has created its ticket and polls; the
    listing of that poll is empty, so no minimum equals its id; instead of
    waiting on, [lock] ends with the [ValueError] of [min] on an empty
    sequence, the flag still set and the handle still registered. *)
Theorem empty_listing_ends_the_wait :
  fst reaped_run = Raise ValueError
  ∧ __pathLocker (fst (snd reaped_run)) = Some ("d", "locker.000500")
  ∧ locked (fst (snd reaped_run)) = true
  ∧ INSTANCES_LOCKED (snd (snd reaped_run)) = [1%nat]
  ∧ last (trace (snd (snd reaped_run))) = Some (Listdir "d", true).
Proof. vm_compute. auto. Qed.

(** * Listing and clean-up *)

Lemma run_eq {A B} (x : A * B) : x = (fst x, snd x).
Proof. destruct x; reflexivity. Defined.

(** ** The clean-up of one file, in any environment *)

(** The age of the file [p] as the clean-up computes it: the reference
    clock minus the modification time of the file, both converted to
    naive local datetimes first. *)
Definition age (lib : Library) (p : path) : M Self Z :=
  let* mtime := liftW (os_path_getmtime p) in
  let* serverTimeOtherLock := datetime_fromtimestamp lib mtime in
  let* serverTime := _serverTimeLock lib in
  ret (serverTime - serverTimeOtherLock).






(** [q] is an entry of the handle's folder that the pattern matches. *)
Definition is_ticket (lib : Library) (h : FileLocker) (q : path) : Prop :=
  fst q = __folder h ∧ is_Some (re_match lib (__filename h) (snd q)).

(** The paths of the matched entries among [names], in the order of the
    listing. *)
Definition fullPaths (lib : Library) (h : FileLocker) (names : list string) : list path :=
  (λ m, (__folder h, fst m)) <$> fileLockerMatches lib (__filename h) names.


(** The listing of [rough_world], where the stat of the first ticket
    fails and a peer removes the second just before the handle's own
    [os.remove]. *)
Definition rough_run : outcome (list Z) * Self := __getLockFileIds literal (h1, rough_world).


Example rough_listing_returns :
  fst rough_run = Ok [7; 9]
  ∧ trace (snd (snd rough_run)) =
      [ (Listdir "d", true);
        (Getmtime ("d", "locker.000007"), false);
        (Getmtime ("d", "locker.000009"), true);
        (Mkstemp "d", true); (TempStat "d", true); (TempClose "d", true);
        (Remove ("d", "locker.000009"), false) ].
Proof. vm_compute. auto. Qed.

(** ** Without interference *)

(** An environment without peers and without faults. *)
Definition quiet (w : World) : Prop :=
  Forall (λ e, peers e = [] ∧ fault e = false) (env w).

(** The world once the environment has taken its next step, a quiet one. *)
Definition advance (w : World) : World :=
  mkWorld (files w) (dirs w) (INSTANCES_LOCKED w) (next_oid w) (tail (env w)) (trace w).

(** The value the next call reads. *)
Definition next_reading (w : World) : Z :=
  match env w with
  | [] => 0
  | e :: _ => reading e
  end.

Lemma next_env_quiet_eq (w : World) :
  quiet w → next_env w = (EnvStep [] false (next_reading w), advance w).
Proof.
  unfold quiet, next_env, advance, next_reading.
  destruct w as [fs ds reg n [|e es] tr]; simpl; intros H; [reflexivity|].
  inversion H as [|? ? [Hp Hf] Hes]; subst. destruct e as [ps flt v]; simpl in *; subst.
  reflexivity.
Qed.

Lemma quiet_advance (w : World) : quiet w → quiet (advance w).
Proof.
  unfold quiet, advance. destruct (env w) as [|e es]; simpl; intros H; [constructor|].
  inversion H; assumption.
Qed.

Lemma sys_quiet_eq {A} (c : syscall) (f : env_step → gmap path Z → option (A * gmap path Z))
      (w : World) :
  quiet w →
  sys c f w = match f (EnvStep [] false (next_reading w)) (files w) with
              | Some (a, fs) => (Ok a, log c true (set_files fs (advance w)))
              | None => (Raise (OSError c), log c false (advance w))
              end.
Proof. intros H. unfold sys. rewrite (next_env_quiet_eq w H). reflexivity. Qed.

Lemma sys_total_quiet_eq {A} (c : syscall) (f : env_step → gmap path Z → A) (w : World) :
  quiet w →
  sys_total c f w = (Ok (f (EnvStep [] false (next_reading w)) (files w)), log c true (advance w)).
Proof. intros H. unfold sys_total. rewrite (next_env_quiet_eq w H). reflexivity. Qed.

(** Without a fault the existence test is exact. *)
Lemma isfile_quiet_eq (p : path) (w : World) :
  quiet w →
  os_path_isfile p w = (Ok (bool_decide (is_Some (files w !! p))), log (Isfile p) true (advance w)).
Proof. intros H. unfold os_path_isfile. rewrite (next_env_quiet_eq w H). reflexivity. Qed.


Lemma next_reading_at (w : World) : next_reading w = reading_at 0 w.
Proof. unfold next_reading, reading_at. destruct (env w); reflexivity. Qed.

Lemma reading_at_advance (k : nat) (w : World) :
  reading_at k (advance w) = reading_at (S k) w.
Proof.
  unfold reading_at, advance. cbn [env]. destruct (env w) as [|e es]; [|reflexivity].
  destruct k; reflexivity.
Qed.

(** The naive local datetime of a timestamp that converts. *)
Definition local (lib : Library) (t : Z) : option Z :=
  match fromtimestamp lib t with
  | Local d => Some d
  | _ => None
  end.

Lemma fromtimestamp_local {S} lib t d (s : S) :
  local lib t = Some d → datetime_fromtimestamp lib t s = (Ok d, s).
Proof.
  unfold local, datetime_fromtimestamp. destruct (fromtimestamp lib t); intros [=]. subst.
  reflexivity.
Qed.

(** The timestamps a run without interference can meet are in the range
    of the conversion: the modification times of the files and the
    readings of the script. *)
Definition in_range (lib : Library) (w : World) : Prop :=
  (∀ p t, files w !! p = Some t → is_Some (local lib t))
  ∧ ∀ k, is_Some (local lib (reading_at k w)).

Lemma in_range_mono lib w w' n :
  (∀ p t, files w' !! p = Some t → files w !! p = Some t ∨ ∃ k, t = reading_at k w) →
  env w' = drop n (env w) →
  in_range lib w → in_range lib w'.
Proof.
  intros Hf He [H1 H2]. split.
  - intros p t Ht. destruct (Hf p t Ht) as [H | [k ->]]; eauto.
  - intros k. rewrite (reading_at_drop n k w w' He). apply H2.
Qed.

(** After a call that leaves the files as they were or deletes one. *)
Lemma in_range_next lib w w' :
  (∀ p t, files w' !! p = Some t → files w !! p = Some t) →
  env w' = tail (env w) →
  in_range lib w → in_range lib w'.
Proof. intros Hf He. apply (in_range_mono lib w w' 1); [auto | exact He]. Qed.

Lemma serverTimeLock_quiet lib h w :
  quiet w → in_range lib w →
  ∃ c h' w',
    _serverTimeLock lib (h, w) = (Ok c, (h', w'))
    ∧ __serverTimeLock h' = Some c
    ∧ timeout h' = timeout h
    ∧ (∀ c0, __serverTimeLock h = Some c0 → c0 = c)
    ∧ (__serverTimeLock h = None → local lib (reading_at 0 w) = Some c)
    ∧ files w' = files w ∧ quiet w' ∧ in_range lib w'.
Proof.
  intros Hq Hr. unfold _serverTimeLock, bind at 1, self. cbn [fst snd].
  destruct (__serverTimeLock h) as [c0|] eqn:Hc.
  { exists c0, h, w. repeat split; auto; try apply Hr; congruence. }
  unfold bind at 1, liftW, NamedTemporaryFile. cbn [fst snd].
  rewrite (sys_quiet_eq _ _ w Hq). cbn [fst snd reading].
  set (w1 := log (Mkstemp (__folder h)) true (set_files (files w) (advance w))).
  assert (Hq1 : quiet w1) by (apply quiet_advance; exact Hq).
  unfold bind at 1, temp_getmtime. cbn [fst snd].
  rewrite (sys_quiet_eq _ _ w1 Hq1). cbn [fst snd].
  set (w2 := log (TempStat (__folder h)) true (set_files (files w1) (advance w1))).
  assert (Hq2 : quiet w2) by (apply quiet_advance; exact Hq1).
  destruct (proj2 Hr 0%nat) as [c Hcv]. rewrite <- next_reading_at in Hcv.
  unfold bind at 1. rewrite (fromtimestamp_local lib _ c _ Hcv).
  unfold bind at 1, update. cbn [fst snd].
  unfold bind at 1, temp_close. cbn [fst snd].
  rewrite (sys_quiet_eq _ _ w2 Hq2). cbn [fst snd].
  eexists c, _, _. split; [reflexivity|]. cbn [__serverTimeLock set_serverTimeLock timeout].
  split; [reflexivity|]. split; [reflexivity|]. split; [intros c0 [=]|].
  split; [intros _; rewrite <- next_reading_at; exact Hcv|].
  split; [reflexivity|]. split; [apply quiet_advance; exact Hq2|].
  apply (in_range_mono lib w _ 3); [intros p t Ht; left; exact Ht | | exact Hr].
  unfold w2, w1. cbn [env log set_files advance].
  destruct (env w) as [|e1 [|e2 [|e3 es]]]; reflexivity.
Qed.

(** The clean-up of one file in a quiet environment. *)
Lemma reap_quiet lib p h w :
  quiet w → in_range lib w →
  ∃ h' w',
    reap lib p (h, w) = (Ok tt, (h', w'))
    ∧ quiet w' ∧ in_range lib w'
    ∧ timeout h' = timeout h
    ∧ (∀ c0, __serverTimeLock h = Some c0 → __serverTimeLock h' = Some c0)
    ∧ match files w !! p with
      | None => files w' = files w
      | Some t =>
          ∃ c d, __serverTimeLock h' = Some c
                 ∧ local lib t = Some d
                 ∧ (__serverTimeLock h = None → local lib (reading_at 1 w) = Some c)
                 ∧ files w' = if seconds (timeout h) <? c - d
                              then delete p (files w) else files w
      end.
Proof.
  intros Hq Hr. unfold reap, try_except, bind at 1, self. cbn [fst snd].
  unfold bind at 1, liftW, os_path_getmtime. cbn [fst snd].
  rewrite (sys_quiet_eq _ _ w Hq).
  destruct (files w !! p) as [t|] eqn:Hp; cbn [fmap option_fmap option_map fst snd].
  2: { eexists _, _. split; [reflexivity|]. cbn [fst snd].
       split; [apply quiet_advance; exact Hq|].
       split; [apply (in_range_next lib w); [auto | reflexivity | exact Hr]|]. auto. }
  set (w1 := log (Getmtime p) true (set_files (files w) (advance w))).
  assert (Hq1 : quiet w1) by (apply quiet_advance; exact Hq).
  assert (Hr1 : in_range lib w1)
    by (apply (in_range_next lib w); [auto | reflexivity | exact Hr]).
  destruct (proj1 Hr p t Hp) as [d Hd].
  unfold bind at 1. rewrite (fromtimestamp_local lib t d _ Hd).
  destruct (serverTimeLock_quiet lib h w1 Hq1 Hr1)
    as (c & h' & w2 & E2 & Hc & HT & Hc0 & Hnew & Hf2 & Hq2 & Hr2).
  unfold bind at 1. rewrite E2.
  assert (Hnew' : __serverTimeLock h = None → local lib (reading_at 1 w) = Some c).
  { intros Hn. rewrite <- (Hnew Hn). unfold w1.
    change (reading_at 0 (advance w)) with (reading_at 0 (advance w)).
    rewrite <- (reading_at_advance 0 w). reflexivity. }
  destruct (seconds (timeout h) <? c - d) eqn:Hage.
  - unfold liftW, os_remove. cbn [fst snd]. rewrite (sys_quiet_eq _ _ w2 Hq2), Hf2.
    change (files w1) with (files w). rewrite Hp.
    eexists _, _. split; [reflexivity|]. cbn [fst snd].
    split; [apply quiet_advance; exact Hq2|].
    split.
    { apply (in_range_next lib w2); [|reflexivity|exact Hr2].
      intros q t' Ht'. cbn [files log set_files] in Ht'.
      apply lookup_delete_Some in Ht' as [_ Ht']. rewrite Hf2. exact Ht'. }
    split; [exact HT|]. split.
    { intros c0 H0. rewrite (Hc0 _ H0). exact Hc. }
    exists c, d. rewrite Hage. auto.
  - eexists _, _. split; [reflexivity|]. cbn [fst snd].
    split; [exact Hq2|]. split; [exact Hr2|]. split; [exact HT|]. split.
    { intros c0 H0. rewrite (Hc0 _ H0). exact Hc. }
    exists c, d. rewrite Hage. auto.
Qed.

Lemma for_each_reap_quiet lib L : ∀ h w,
  quiet w → in_range lib w →
  ∃ h' w',
    for_each (reap lib) L (h, w) = (Ok tt, (h', w'))
    ∧ quiet w' ∧ in_range lib w'
    ∧ timeout h' = timeout h
    ∧ (∀ c0, __serverTimeLock h = Some c0 → __serverTimeLock h' = Some c0)
    ∧ ∀ q, match files w !! q with
           | None => files w' !! q = None
           | Some t =>
               if decide (q ∈ L)
               then ∃ c d, __serverTimeLock h' = Some c
                           ∧ local lib t = Some d
                           ∧ files w' !! q = if seconds (timeout h) <? c - d
                                             then None else Some t
               else files w' !! q = Some t
           end.
Proof.
  induction L as [|p L IH]; intros h w Hq Hr.
  { exists h, w. simpl. repeat split; auto; try apply Hr.
    intros q. destruct (files w !! q) eqn:E; [|reflexivity].
    destruct (decide (q ∈ [])) as [Hin|_]; [inversion Hin | reflexivity]. }
  destruct (reap_quiet lib p h w Hq Hr) as (h1 & w1 & E1 & Hq1 & Hr1 & HT1 & Hc1 & Hp).
  destruct (IH h1 w1 Hq1 Hr1) as (h' & w' & E2 & Hq2 & Hr2 & HT2 & Hc2 & Hall).
  exists h', w'. split; [simpl; unfold bind; rewrite E1; exact E2|].
  split; [exact Hq2|]. split; [exact Hr2|]. split; [congruence|]. split; [auto|].
  intros q. specialize (Hall q). rewrite HT1 in Hall.
  destruct (decide (q = p)) as [->|Hne].
  - destruct (files w !! p) as [t|] eqn:Ep.
    + destruct Hp as (c & d & Hc & Hd & _ & Hfs).
      destruct (decide (p ∈ p :: L)) as [_|Hn]; [|exfalso; apply Hn; left].
      exists c, d. split; [auto|]. split; [exact Hd|].
      destruct (seconds (timeout h) <? c - d) eqn:Hage.
      * rewrite Hfs, lookup_delete_eq in Hall. exact Hall.
      * rewrite Hfs, Ep in Hall. destruct (decide (p ∈ L)) as [Hin|Hn]; [|exact Hall].
        destruct Hall as (c' & d' & Hc' & Hd' & Hres). rewrite (Hc2 _ Hc) in Hc'.
        inversion Hc'; subst c'. rewrite Hd in Hd'. inversion Hd'; subst d'.
        rewrite Hage in Hres. exact Hres.
    + rewrite Hp, Ep in Hall. exact Hall.
  - assert (Hsame : files w1 !! q = files w !! q).
    { destruct (files w !! p) as [t|].
      - destruct Hp as (c & d & _ & _ & _ & ->).
        destruct (_ <? _); [apply lookup_delete_ne; auto | auto].
      - rewrite Hp. reflexivity. }
    rewrite Hsame in Hall. destruct (files w !! q) as [t|]; [|exact Hall].
    destruct (decide (q ∈ L)) as [Hin|Hn].
    + destruct (decide (q ∈ p :: L)) as [_|Hn']; [exact Hall|].
      exfalso. apply Hn'. right. exact Hin.
    + destruct (decide (q ∈ p :: L)) as [Hin'|_]; [|exact Hall].
      apply elem_of_cons in Hin' as [?|?]; contradiction.
Qed.

Lemma elem_of_listdir (folder : string) (fs : gmap path Z) (name : string) :
  name ∈ listdir folder fs ↔ is_Some (fs !! (folder, name)).
Proof.
  unfold listdir. rewrite list_elem_of_fmap. split.
  - intros ([[d n] t] & -> & Hin). apply list_elem_of_filter in Hin as [Hd Hin].
    simpl in *. subst d. apply elem_of_map_to_list in Hin. eauto.
  - intros [t Ht]. exists ((folder, name), t). split; [reflexivity|].
    apply list_elem_of_filter. split; [reflexivity|].
    apply elem_of_map_to_list. exact Ht.
Qed.

Section Listing.

Variable lib : Library.

Lemma elem_of_fullPaths (h : FileLocker) (fs : gmap path Z) (q : path) :
  q ∈ fullPaths lib h (listdir (__folder h) fs)
  ↔ is_ticket lib h q ∧ is_Some (fs !! q).
Proof.
  unfold fullPaths, fileLockerMatches, is_ticket. rewrite list_elem_of_fmap. split.
  - intros ([n c] & -> & Hin). apply list_elem_of_omap in Hin as (n' & Hn' & Hm).
    destruct (re_match lib (__filename h) n') as [c'|] eqn:Hre; [|discriminate].
    simpl in Hm. inversion Hm; subst. simpl.
    apply elem_of_listdir in Hn'. rewrite Hre. eauto.
  - intros [[Hd [c Hc]] Hq]. destruct q as [d n]. simpl in *. subst d.
    exists (n, c). split; [reflexivity|].
    apply list_elem_of_omap. exists n. split; [apply elem_of_listdir; exact Hq|].
    rewrite Hc. reflexivity.
Qed.

Lemma getLockFileIds_quiet h w :
  quiet w → in_range lib w →
  re_compiles lib (_LOCK_REGEX_FORMAT (__filename h)) = true →
  ∃ h' w',
    __getLockFileIds lib (h, w)
    = (Ok (snd <$> fileLockerMatches lib (__filename h) (listdir (__folder h) (files w))),
       (h', w'))
    ∧ quiet w' ∧ in_range lib w'
    ∧ ∀ q t, files w !! q = Some t →
        (is_ticket lib h q →
         ∃ c d, __serverTimeLock h' = Some c
                ∧ local lib t = Some d
                ∧ files w' !! q = if seconds (timeout h) <? c - d then None else Some t)
        ∧ (¬ is_ticket lib h q → files w' !! q = Some t).
Proof.
  intros Hq Hr Hre. unfold __getLockFileIds, bind at 1, self. cbn [fst snd]. rewrite Hre.
  unfold bind at 1, liftW, os_listdir. cbn [fst snd]. rewrite (sys_quiet_eq _ _ w Hq).
  cbn [fst snd].
  set (w1 := log (Listdir (__folder h)) true (set_files (files w) (advance w))).
  assert (Hq1 : quiet w1) by (apply quiet_advance; exact Hq).
  assert (Hr1 : in_range lib w1)
    by (apply (in_range_next lib w); [auto | reflexivity | exact Hr]).
  fold (fullPaths lib h (listdir (__folder h) (files w))).
  set (L := fullPaths lib h (listdir (__folder h) (files w))).
  destruct (for_each_reap_quiet lib L h w1 Hq1 Hr1) as (h' & w' & E2 & Hq' & Hr' & _ & _ & Hall).
  exists h', w'. split; [unfold bind; rewrite E2; reflexivity|].
  split; [exact Hq'|]. split; [exact Hr'|].
  intros q t Ht. specialize (Hall q). change (files w1) with (files w) in Hall.
  rewrite Ht in Hall.
  case_decide as Hin; [|rename Hin into Hn].
  - split; [intros _; exact Hall|]. intros Hnt. exfalso. apply Hnt.
    apply elem_of_fullPaths in Hin. apply Hin.
  - split; [|intros _; exact Hall]. intros Htk. exfalso. apply Hn.
    apply elem_of_fullPaths. split; [exact Htk | eauto].
Qed.

End Listing.



(** Under UTC every timestamp converts. *)
Lemma literal_in_range (w : World) : in_range literal w.
Proof. split; intros; eexists; reflexivity. Defined.


(** The old ticket is deleted, the recent one and the unrelated file stay,
    and both ids are returned. *)
Example sweep_run_result :
  (∃ ids, fst sweep_run = Ok ids ∧ 7 ∈ ids ∧ 9 ∈ ids ∧ length ids = 2%nat)
  ∧ files (snd (snd sweep_run)) !! ("d", "locker.000007") = None
  ∧ files (snd (snd sweep_run)) !! ("d", "locker.000009") = Some (seconds 1000 - 500000)
  ∧ files (snd (snd sweep_run)) !! ("d", "notes.txt") = Some 0
  ∧ __serverTimeLock (fst (snd sweep_run)) = Some (seconds 1000).
Proof.
  vm_compute. split; [|auto]. eexists. split; [reflexivity|]. 
  split; [|split; [|reflexivity]]; repeat constructor.
Qed.

(** ** Across a change of the local time *)

(** C2, on the code.  The process runs in a time zone whose clocks go
    forward by one hour at 01:00:00 UTC on 2024-03-31.  The folder holds
    one ticket, stamped 5 s before that instant; the handle, of timeout
    20 s, lists the folder, and its reference clock reads 5 s after it.
    The ticket is 10 s old by the reference clock, within the timeout, yet
    the listing deletes it: the age it computes from the two naive local
    datetimes is one hour and 10 s.  Under UTC the same listing leaves the
    ticket. *)
Theorem clean_up_reaps_a_live_ticket :
  files dst_world !! ("d", "locker.000007") = Some (spring_forward - seconds 5)
  ∧ (spring_forward + seconds 5) - (spring_forward - seconds 5) = seconds 10
  ∧ seconds 10 <= seconds (timeout h0)
  ∧ fst dst_run = Ok [7]
  ∧ __serverTimeLock (fst (snd dst_run)) = local paris (spring_forward + seconds 5)
  ∧ files (snd (snd dst_run)) !! ("d", "locker.000007") = None
  ∧ trace (snd (snd dst_run)) =
      [ (Listdir "d", true); (Getmtime ("d", "locker.000007"), true);
        (Mkstemp "d", true); (TempStat "d", true); (TempClose "d", true);
        (Remove ("d", "locker.000007"), true) ]
  ∧ fst (age paris ("d", "locker.000007") (h0, snd (os_listdir "d" dst_world)))
    = Ok (seconds 3610)
  ∧ fst (__getLockFileIds literal (h0, dst_world)) = Ok [7]
  ∧ files (snd (snd (__getLockFileIds literal (h0, dst_world)))) !! ("d", "locker.000007")
    = Some (spring_forward - seconds 5).
Proof.
  split; [reflexivity|]. split; [reflexivity|]. split; [vm_compute; discriminate|].
  split; [vm_compute; reflexivity|]. split; [vm_compute; reflexivity|].
  split; [vm_compute; reflexivity|]. split; [vm_compute; reflexivity|].
  split; [vm_compute; reflexivity|]. split; vm_compute; reflexivity.
Qed.

(** * Failure to create the ticket *)

(** No file creation among the calls [evs]. *)
Definition no_open (evs : list (syscall * bool)) : Prop :=
  Forall (λ ev, is_open (fst ev) = false) evs.

(** Since the log [tr0], no file creation has been attempted. *)
Definition nothing_created (tr0 tr : list (syscall * bool)) : Prop :=
  ∃ evs, tr = tr0 ++ evs ∧ no_open evs.

(** Since the log [tr0], one file creation has been attempted, and it
    succeeded. *)
Definition ticket_created (tr0 tr : list (syscall * bool)) : Prop :=
  ∃ pre p post, tr = tr0 ++ pre ++ (OpenW p, true) :: post ∧ no_open pre ∧ no_open post.

(** The calls of an attempt and its outcome: no creation, or one that
    succeeded, or one that failed, after which nothing more was called and
    the generic exception naming the path was raised. *)
Definition creation_spec {A} (tr0 tr : list (syscall * bool)) (r : outcome A) : Prop :=
  nothing_created tr0 tr
  ∨ ticket_created tr0 tr
  ∨ ∃ pre p, tr = tr0 ++ pre ++ [(OpenW p, false)] ∧ no_open pre
             ∧ r = Raise (CannotCreateLockFile p).

Lemma no_open_snoc evs c ok : is_open c = false → no_open evs → no_open (evs ++ [(c, ok)]).
Proof.
  intros Hc H. apply Forall_app. split; [exact H|]. constructor; [exact Hc | constructor].
Qed.

Lemma nothing_created_snoc tr0 tr c ok :
  is_open c = false → nothing_created tr0 tr → nothing_created tr0 (tr ++ [(c, ok)]).
Proof.
  intros Hc (evs & -> & H). exists (evs ++ [(c, ok)]).
  rewrite app_assoc. split; [reflexivity | apply no_open_snoc; assumption].
Qed.

Lemma ticket_created_snoc tr0 tr c ok :
  is_open c = false → ticket_created tr0 tr → ticket_created tr0 (tr ++ [(c, ok)]).
Proof.
  intros Hc (pre & p & post & -> & H1 & H2). exists pre, p, (post ++ [(c, ok)]).
  split; [|split; [exact H1 | apply no_open_snoc; assumption]].
  rewrite <- !app_assoc. reflexivity.
Qed.

Section Creation.

Variable lib : Library.
Variables (o : nat) (start0 T : Z).
Variable tr0 : list (syscall * bool).

Definition before_creation (s : Self) : Prop :=
  (attempting o start0 T) s ∧ view (λ _ _, nothing_created tr0) s.

Definition after_creation (s : Self) : Prop :=
  (attempting o start0 T) s ∧ view (λ _ _, ticket_created tr0) s.

Definition creation_post {A} (r : outcome A) (s' : Self) : Prop :=
  creation_spec tr0 (trace (snd s')) r.

Lemma before_creation_post {A} (r : outcome A) s :
  view (λ _ _, nothing_created tr0) s → creation_post r s.
Proof. intros H. left. exact H. Qed.

Lemma after_creation_post {A} (r : outcome A) s :
  view (λ _ _, ticket_created tr0) s → creation_post r s.
Proof. intros H. right. left. exact H. Qed.

(** A step of the attempt that creates no file. *)
Lemma creation_call {A} (m : M Self A) (I : FileLocker → list nat → list (syscall * bool) → Prop) :
  hoare (attempting o start0 T) m (attempt_post o start0 T (λ _, (attempting o start0 T))) →
  invariant (view I) m →
  hoare (λ s, (attempting o start0 T) s ∧ view I s) m
        (λ r s', view I s' ∧ match r with Ok _ => (attempting o start0 T) s' | _ => True end).
Proof.
  intros Ha Hi s r s' [H1 H2] E. split; [eapply Hi; eauto|].
  specialize (Ha _ _ _ H1 E). destruct r; auto.
Qed.

Lemma creation_bind {A B} (m : M Self A) (k : A → M Self B)
      (I : FileLocker → list nat → list (syscall * bool) → Prop) :
  hoare (λ s, (attempting o start0 T) s ∧ view I s) m
        (λ r s', view I s' ∧ match r with Ok _ => (attempting o start0 T) s' | _ => True end) →
  (∀ B' (r : outcome B') s, view I s → creation_post r s) →
  (∀ a, hoare (λ s, (attempting o start0 T) s ∧ view I s) (k a) creation_post) →
  hoare (λ s, (attempting o start0 T) s ∧ view I s) (bind m k) creation_post.
Proof.
  intros Hm HI Hk. eapply hoare_bind; [|exact Hk].
  intros s r s' Hs E. destruct (Hm _ _ _ Hs E) as [H1 H2].
  destruct r; auto.
Qed.

Lemma create_ticket_creation :
  hoare before_creation create_ticket
        (λ r s', match r with
                 | Ok _ => after_creation s'
                 | _ => creation_post r s'
                 end).
Proof.
  intros [h w] r s' [Ha (evs & Htr & Hevs)] E. simpl in Htr.
  pose proof (attempting_create o start0 T _ _ _ Ha E) as Ha'.
  unfold create_ticket, bind at 1, self in E. simpl in E.
  destruct (__pathLocker h) as [p|].
  2: { inversion E; subst. left. exists evs. auto. }
  unfold try_except in E.
  destruct (liftW (open_w_close p) (h, w)) as [r1 s1] eqn:E1.
  apply liftW_inv in E1 as [_ E1]. simpl in E1.
  apply sys_inv in E1 as [_ [(a & -> & Ht) | [-> Ht]]].
  - inversion E; subst. split; [exact Ha'|].
    exists evs, p, []. unfold view; simpl. rewrite Ht, Htr, <- app_assoc.
    split; [reflexivity|]. split; [exact Hevs | constructor].
  - simpl in E. inversion E; subst. right. right. exists evs, p.
    simpl. rewrite Ht, Htr, <- app_assoc. auto.
Qed.

Local Ltac snoc_auto :=
  simpl; intros;
  first [ assumption
        | apply nothing_created_snoc; auto
        | apply ticket_created_snoc; auto ].

Lemma lock_loop_creation fuel :
  hoare before_creation (lock_loop lib fuel) creation_post.
Proof.
  induction fuel as [|fuel IH]; simpl.
  { apply hoare_out_of_fuel. intros s [_ H]. apply before_creation_post. exact H. }
  apply hoare_self; intros h. destruct (__isLocked h) eqn:Hflag.
  2: { apply hoare_ret. intros s [[_ H] _]. apply before_creation_post. exact H. }
  apply hoare_conseq with (P' := before_creation) (Q' := creation_post); [|tauto|auto].
  apply creation_bind; [| intros; apply before_creation_post; assumption | intros ids].
  { apply creation_call; [|apply getLockFileIds_frame; snoc_auto].
    eapply attempt_call; [apply attempting_listing | apply getLockFileIds_may |].
    intros [a|e|]; simpl; auto. destruct e; auto. destruct call; auto; contradiction. }
  destruct ids as [|i ids].
  - destruct fuel as [|fuel].
    { apply hoare_bind with (R := λ _ _, False); [|intros _ ? ? ? []].
      apply hoare_out_of_fuel. intros s [_ H]. apply before_creation_post. exact H. }
    apply creation_bind; [| intros; apply before_creation_post; assumption | intros _].
    { apply creation_call; [|apply draw_ticket_frame; snoc_auto].
      eapply attempt_call; [apply attempting_draw | apply draw_ticket_may |].
      intros [a|e|]; simpl; auto; contradiction. }
    eapply hoare_bind with (R := λ _, after_creation).
    { intros s r s' Hs E. pose proof (create_ticket_creation _ _ _ Hs E) as H.
      destruct r; exact H. }
    intros _.
    eapply hoare_bind with (R := λ _ s, (acquired o start0 T) s ∧ view (λ _ _, ticket_created tr0) s).
    { intros s r s' [Ha Hv] E.
      pose proof (wait_attempt lib o start0 T (S fuel) _ _ _ Ha E) as H1.
      assert (H2 : view (λ _ _, ticket_created tr0) s')
        by (eapply (wait_frame lib (λ _ _, ticket_created tr0)); try exact E; snoc_auto).
      destruct r; auto using after_creation_post. }
    intros _ s r s' [Ha Hv] E.
    rewrite lock_loop_released in E by apply Ha. inversion E; subst.
    apply after_creation_post. exact Hv.
  - apply creation_bind; [| intros; apply before_creation_post; assumption | intros _; exact IH].
    apply creation_call; [apply sleep_attempt | apply sleep_frame; snoc_auto].
Qed.

End Creation.

(** [lock] up to the loop: the handle is registered and the clock read,
    before any call on the directory. *)
Lemma lock_enters_loop lib fuel s :
  __isLocked (fst s) = false →
  ∃ s0 start0,
    lock lib fuel s = lock_loop lib fuel s0
    ∧ attempting (oid (fst s)) start0 (timeout (fst s)) s0
    ∧ trace (snd s0) = trace (snd s) ++ [(TimeTime, true)].
Proof.
  destruct s as [h w]. simpl. intros Hflag.
  unfold lock, bind at 1, self. simpl. rewrite Hflag.
  unfold bind at 1, update_world. simpl.
  unfold bind at 1, liftW. simpl.
  destruct (time_time (set_registry (registry_add (oid h) (INSTANCES_LOCKED w)) w))
    as [r w1] eqn:Et.
  pose proof (sys_total_inv _ _ _ _ _ Et) as (Hr & [now ->] & Htr).
  unfold bind at 1, update. simpl. unfold bind at 1. simpl.
  eexists _, now. split; [reflexivity|]. simpl. split; [|exact Htr].
  split; simpl; [unfold handle_attempting; simpl; auto|].
  rewrite Hr. simpl. apply elem_of_registry_add.
Qed.

Lemma lock_creation lib fuel s r s' :
  lock lib fuel s = (r, s') →
  creation_spec (trace (snd s)) (trace (snd s')) r.
Proof.
  intros E. destruct (__isLocked (fst s)) eqn:Hflag.
  { rewrite lock_already_locked in E by exact Hflag. inversion E; subst.
    left. exists []. rewrite app_nil_r. split; [reflexivity | constructor]. }
  destruct (lock_enters_loop lib fuel s Hflag) as (s0 & start0 & E0 & Ha & Htr).
  rewrite E0 in E.
  eapply (lock_loop_creation lib (oid (fst s)) start0 (timeout (fst s)) (trace (snd s)));
    [|exact E].
  split; [exact Ha|]. exists [(TimeTime, true)]. split; [exact Htr|].
  repeat constructor.
Qed.

(** C7, as the code has it.  If the creation of the ticket file at [p]
    fails during [lock], the attempt is aborted there: the failed creation
    is the last call [lock] makes and the only creation it attempts (no
    retry), and the caller gets the generic exception "Cannot create the
    lock file" naming [p], which replaces the I/O error of the creation. *)
Theorem creation_failure_aborts_lock lib fuel s r s' evs p :
  lock lib fuel s = (r, s') →
  trace (snd s') = trace (snd s) ++ evs →
  (OpenW p, false) ∈ evs →
  r = Raise (CannotCreateLockFile p)
  ∧ r ≠ Raise (OSError (OpenW p))
  ∧ ∃ pre, evs = pre ++ [(OpenW p, false)] ∧ no_open pre.
Proof.
  intros E Htr Hin.
  assert (Hno : ∀ l, no_open l → (OpenW p, false) ∈ l → False).
  { intros l Hl Hp. unfold no_open in Hl. rewrite Forall_forall in Hl.
    specialize (Hl _ Hp). discriminate. }
  destruct (lock_creation _ _ _ _ _ E) as [(evs' & H1 & H2) | [(pre & q & post & H1 & H2 & H3) | (pre & q & H1 & H2 & H3)]];
    rewrite Htr in H1; apply app_inv_head in H1; subst evs.
  - exfalso. eauto.
  - exfalso. apply elem_of_app in Hin as [Hin|Hin]; [eauto|].
    apply elem_of_cons in Hin as [Hin|Hin]; [discriminate | eauto].
  - apply elem_of_app in Hin as [Hin|Hin]; [exfalso; eauto|].
    apply list_elem_of_singleton in Hin. inversion Hin; subst q.
    split; [exact H3|]. split; [rewrite H3; discriminate|]. eauto.
Qed.

Lemma denied_run_failed_open :
  (OpenW ("d", "locker.000500"), false) ∈ trace (snd (snd denied_run)).
Proof. vm_compute. repeat constructor. Defined.

(** The scenario of the failed creation. *)
Lemma creation_failure_aborts_lock_witness :
  fst denied_run = Raise (CannotCreateLockFile ("d", "locker.000500"))
  ∧ fst denied_run ≠ Raise (OSError (OpenW ("d", "locker.000500")))
  ∧ ∃ pre, trace (snd (snd denied_run)) = pre ++ [(OpenW ("d", "locker.000500"), false)]
           ∧ no_open pre.
Proof.
  exact (creation_failure_aborts_lock literal 5 (h0, world0 denied)
           (fst denied_run) (snd denied_run) (trace (snd (snd denied_run)))
           ("d", "locker.000500") (run_eq _) eq_refl denied_run_failed_open).
Defined.

Lemma open_failure_is_OSError p w e w' :
  open_w_close p w = (Raise e, w') → e = OSError (OpenW p).
Proof.
  intros E. apply sys_inv in E as [_ [(a & [=] & _) | [[= ->] _]]]. reflexivity.
Qed.

(** C7, against the claim.  The creation of ticket 500 fails; whatever
    exception the creation raises (it is the [OSError] of [open]), the
    caller of [lock] gets another one, the generic exception naming the
    path. *)
Lemma creation_error_is_replaced :
  last (trace (snd (snd denied_run))) = Some (OpenW ("d", "locker.000500"), false)
  ∧ fst denied_run = Raise (CannotCreateLockFile ("d", "locker.000500"))
  ∧ ∀ w e w', open_w_close ("d", "locker.000500") w = (Raise e, w') →
              e = OSError (OpenW ("d", "locker.000500")) ∧ fst denied_run ≠ Raise e.
Proof.
  split; [vm_compute; reflexivity|]. split; [vm_compute; reflexivity|].
  intros w e w' E. apply open_failure_is_OSError in E. subst e.
  split; [reflexivity|]. vm_compute. discriminate.
Qed.

(** * The process registry *)


Lemma lock_leaves_registered lib fuel s r s' :
  lock lib fuel s = (r, s') →
  __isLocked (fst s) = false →
  (∀ t, r ≠ Raise (TimeoutError t)) →
  (∀ p, r ≠ Raise (OSError (Remove p))) →
  oid (fst s) ∈ INSTANCES_LOCKED (snd s').
Proof.
  intros E Hflag Ht Hr.
  destruct (lock_outcome _ _ _ _ _ Hflag E) as (start0 & _ & Hp).
  destruct r as [[]|e|]; simpl in Hp; [apply Hp | | apply Hp].
  destruct e as [| |c| | | | | | |]; try apply Hp.
  - exfalso. eapply Ht. reflexivity.
  - destruct c; try apply Hp. exfalso. eapply Hr. reflexivity.
Qed.



Lemma find_handle_oid objs o h : find_handle objs o = Some h → oid h = o.
Proof.
  unfold find_handle. intros H. apply head_Some_elem_of in H.
  apply list_elem_of_filter in H as [H _]. exact H.
Qed.







(** The hook at the exit of the process that holds the lock after the solo
    acquisition: the handle's flag is clear, so the hook does not release
    it; the ticket stays in the directory. *)
Example hook_skips_the_holder :
  let w := snd (snd solo_run) in
  __unlockall [fst (snd solo_run)] w = (Ok tt, w)
  ∧ INSTANCES_LOCKED w = [1%nat]
  ∧ files w !! ("d", "locker.000123") = Some (seconds 1000).
Proof. vm_compute. auto. Qed.

(** Two registered handles with their flag set: the hook releases the
    first, and the next step of the iteration raises the [RuntimeError]
    that the hook swallows; the second handle is not released. *)
Example hook_stops_after_one_release :
  let w := mkWorld (<[("d", "locker.000500") := seconds 1000]>
                      (<[("d", "locker.000600") := seconds 1000]> ∅))
                   ["d"%string] [1%nat; 2%nat] 3 [] [] in
  let r := __unlockall [stuck; stuck2] w in
  fst r = Ok tt
  ∧ INSTANCES_LOCKED (snd r) = [2%nat]
  ∧ files (snd r) !! ("d", "locker.000500") = None
  ∧ files (snd r) !! ("d", "locker.000600") = Some (seconds 1000).
Proof. vm_compute. auto. Qed.

(** * Wrapping a callable *)

(** The handle a construction returns. *)
Lemma init_spec os_path_split os_path_abspath p t w h w' :
  __init__ os_path_split os_path_abspath p t w = (Ok h, w') →
  oid h = next_oid w
  ∧ timeout h = t
  ∧ __pathLocker h = None ∧ __id h = -1 ∧ __isLocked h = false
  ∧ __start h = None ∧ __serverTimeLock h = None
  ∧ (p ∈ dirs w → (__folder h, __filename h) = (p, "locker"%string))
  ∧ (p ∉ dirs w → (__folder h, __filename h) = os_path_split (os_path_abspath p)).
Proof.
  unfold __init__, bind at 1, new_object. simpl.
  unfold bind at 1, os_path_isdir at 1.
  set (w0 := mkWorld (files w) (dirs w) (INSTANCES_LOCKED w) (S (next_oid w)) (env w) (trace w)).
  destruct (next_env w0) as [e1 w1] eqn:E1.
  assert (Hd1 : dirs w1 = dirs w).
  { unfold next_env in E1. destruct (env w0); inversion E1; subst; reflexivity. }
  simpl. rewrite Hd1.
  unfold bind at 1, os_path_isdir.
  destruct (next_env (log (Isdir p) true w1)) as [e2 w2].
  destruct (bool_decide (_ ∈ dirs w2)); intros E; inversion E; subst; simpl.
  repeat split; auto.
  - intros Hin. rewrite bool_decide_eq_true_2 by exact Hin. reflexivity.
  - intros Hn. rewrite bool_decide_eq_false_2 by exact Hn.
    destruct (os_path_split (os_path_abspath p)); reflexivity.
Qed.

(** What a scoped acquisition does, when it ends. *)
Lemma scoped_spec lib {R} fuel h (body : M World R) w r w' :
  scoped lib fuel h body w = (r, w') →
  r ≠ OutOfFuel →
  (∃ e s1, lock lib fuel (h, w) = (Raise e, s1) ∧ r = Raise e ∧ w' = snd s1)
  ∨ (∃ s1 rb w2 ru s3,
       lock lib fuel (h, w) = (Ok tt, s1)
       ∧ body (snd s1) = (rb, w2)
       ∧ unlock (fst s1, w2) = (ru, s3)
       ∧ w' = snd s3
       ∧ (oid h ∉ INSTANCES_LOCKED w')
       ∧ (ru = Ok tt → r = rb ∧ (ticket_absent s3 ∨ probe_failed s3))
       ∧ (∀ e, ru = Raise e → r = Raise e)).
Proof.
  unfold scoped, __enter__, __exit__. intros E Hr.
  destruct (lock lib fuel (h, w)) as [[[]|e|] [h1 w1]] eqn:El.
  - right.
    assert (Hoid : oid h1 = oid h).
    { symmetry. change (oid h = oid (fst (h1, w1))).
      eapply (lock_frame lib (λ x _ _, oid h = oid x));
        try exact El; try (intros; assumption); reflexivity. }
    destruct (body w1) as [rb w2] eqn:Eb.
    assert (Hrb : rb ≠ OutOfFuel) by (intros ->; inversion E; subst; congruence).
    destruct (unlock (h1, w2)) as [ru [h3 w3]] eqn:Eu.
    pose proof (unlock_spec _ _ _ Eu) as (Hh & Hreg & Habs).
    exists (h1, w1), rb, w2, ru, (h3, w3). simpl in *. subst h3.
    assert (Hw : w' = w3 ∧ r = match ru with Ok _ => rb | Raise e => Raise e | OutOfFuel => OutOfFuel end).
    { destruct rb as [v|eb|]; [| |congruence]; destruct ru as [[]|eu|]; inversion E; subst; auto. }
    destruct Hw as [-> ->].
    repeat split; auto.
    + unfold unregistered in Hreg. simpl in Hreg. rewrite <- Hoid. exact Hreg.
    + subst ru. reflexivity.
    + intros e ->. reflexivity.
  - left. inversion E; subst. eauto.
  - inversion E; subst. congruence.
Qed.

(** C8, as the code has it.  The wrapped callable evaluates the condition
    on the arguments of the call.  If it is false, the call is the call of
    [method] from the world the condition left: same result, same error,
    no handle and no ticket of the wrapper's own.  If it is true, or if no
    condition was given, a fresh handle is built by the constructor from
    the path [join folder filename] with the timeout of [self], and
    [method] is called inside a scoped acquisition of that handle: only
    after [lock] has succeeded, and followed by [unlock] whether it returns
    or raises.  The fresh handle has the namespace of [self] provided
    that path is not a directory and splits back into [self]'s folder and
    base name; when the path is a directory, the constructor makes the
    namespace that directory with the base name "locker". *)
Theorem wrapper_guards_by_condition lib os_path_join os_path_split os_path_abspath
        {A R} (self : FileLocker) fuel (condition : option (A → M World bool))
        (method : A → M World R) (args : A) :
  let p := os_path_join (__folder self) (__filename self) in
  let wrapped := wrapper lib os_path_join os_path_split os_path_abspath
                         self fuel condition method in
  wrapWithDecorator lib os_path_join os_path_split os_path_abspath
                    self fuel (Some method) condition = inl wrapped
  ∧ (∀ c w w1, condition = Some c → c args w = (Ok false, w1) →
     wrapped args w = method args w1)
  ∧ (∀ w w1,
       (condition = None ∧ w1 = w) ∨ (∃ c, condition = Some c ∧ c args w = (Ok true, w1)) →
       wrapped args w =
         match __init__ os_path_split os_path_abspath p (timeout self) w1 with
         | (Ok h, w2) => scoped lib fuel h (method args) w2
         | (Raise e, w2) => (Raise e, w2)
         | (OutOfFuel, w2) => (OutOfFuel, w2)
         end)
  ∧ (∀ w1 h w2, __init__ os_path_split os_path_abspath p (timeout self) w1 = (Ok h, w2) →
       oid h = next_oid w1 ∧ timeout h = timeout self
       ∧ __pathLocker h = None ∧ __isLocked h = false ∧ __serverTimeLock h = None
       ∧ (p ∉ dirs w1 → os_path_split (os_path_abspath p) = (__folder self, __filename self) →
          (__folder h, __filename h) = (__folder self, __filename self))
       ∧ (p ∈ dirs w1 → (__folder h, __filename h) = (p, "locker"%string)))
  ∧ (∀ h w r w', scoped lib fuel h (method args) w = (r, w') → r ≠ OutOfFuel →
       (∃ e s1, lock lib fuel (h, w) = (Raise e, s1) ∧ r = Raise e ∧ w' = snd s1)
       ∨ (∃ s1 rb w2 ru s3,
            lock lib fuel (h, w) = (Ok tt, s1)
            ∧ method args (snd s1) = (rb, w2)
            ∧ unlock (fst s1, w2) = (ru, s3)
            ∧ w' = snd s3
            ∧ (oid h ∉ INSTANCES_LOCKED w')
            ∧ (ru = Ok tt → r = rb ∧ (ticket_absent s3 ∨ probe_failed s3))
            ∧ (∀ e, ru = Raise e → r = Raise e))).
Proof.
  intros p wrapped. subst wrapped. split; [reflexivity|]. split; [|split; [|split]].
  - intros c w w1 -> Ec. unfold wrapper, bind. rewrite Ec. reflexivity.
  - intros w w1 [[-> ->] | (c & -> & Ec)]; unfold wrapper, bind at 1.
    + unfold ret. unfold bind. fold p.
      destruct (__init__ os_path_split os_path_abspath p (timeout self) w) as [[h| |] w2];
        reflexivity.
    + rewrite Ec. unfold bind. fold p.
      destruct (__init__ os_path_split os_path_abspath p (timeout self) w1) as [[h| |] w2];
        reflexivity.
  - intros w1 h w2 E.
    destruct (init_spec _ _ _ _ _ _ _ E) as (H1 & H2 & H3 & _ & H5 & _ & H7 & H8 & H9).
    repeat split; auto. intros Hn Hs. rewrite (H9 Hn). exact Hs.
  - intros h w r w'. apply scoped_spec.
Qed.

Example posix_split_samples :
  posix_split "/srv/locker" = ("/srv", "locker")%string
  ∧ posix_split "/x" = ("/", "x")%string
  ∧ posix_split "a" = ("", "a")%string
  ∧ posix_split "/srv//b/" = ("/srv//b", "")%string
  ∧ posix_join "/srv" "locker" = "/srv/locker"%string
  ∧ posix_join "/srv/" "locker" = "/srv/locker"%string
  ∧ posix_join "/srv" "/tmp" = "/tmp"%string.
Proof. vm_compute. repeat split; reflexivity. Qed.

(** ** A directory that contains a directory called "locker" *)

Example srv_handle_constructed :
  fst (__init__ posix_split (λ p, p) "/srv" 20
                (mkWorld ∅ ["/srv"%string] [] 1 [] []))
  = Ok srv_handle.
Proof. vm_compute. reflexivity. Qed.

(** C8, against the claim.  The handle was built on the directory "/srv",
    which contains a directory "locker".  The wrapped callable builds its
    fresh handle on "/srv/locker", a directory, so that handle's namespace
    is ("/srv/locker", "locker") and not ("/srv", "locker"): the ticket of
    the scoped acquisition is created inside "/srv/locker". *)
Lemma wrapper_may_change_namespace :
  let w := srv_world ["/srv"; "/srv/locker"]%string in
  let p := posix_join (__folder srv_handle) (__filename srv_handle) in
  (∃ h, fst (__init__ posix_split (λ p, p) p (timeout srv_handle) w) = Ok h
        ∧ (__folder h, __filename h) = ("/srv/locker", "locker")%string
        ∧ (__folder h, __filename h) ≠ (__folder srv_handle, __filename srv_handle))
  ∧ fst (wrapped_answer tt w) = Ok 42
  ∧ filter (λ ev, is_open (fst ev) = true) (trace (snd (wrapped_answer tt w)))
    = [(OpenW ("/srv/locker", "locker.000123"), true)].
Proof.
  split; [|split].
  - eexists. split; [vm_compute; reflexivity|]. split; [reflexivity | discriminate].
  - vm_compute. reflexivity.
  - vm_compute. reflexivity.
Qed.

(** Without that directory, the same call locks the namespace of the
    handle: the ticket is created in "/srv", and is gone after the call. *)
Example wrapper_same_namespace :
  let w := srv_world ["/srv"%string] in
  fst (wrapped_answer tt w) = Ok 42
  ∧ filter (λ ev, is_open (fst ev) = true) (trace (snd (wrapped_answer tt w)))
    = [(OpenW ("/srv", "locker.000123"), true)]
  ∧ files (snd (wrapped_answer tt w)) = ∅
  ∧ INSTANCES_LOCKED (snd (wrapped_answer tt w)) = [].
Proof. vm_compute. repeat split; reflexivity. Qed.

(** With a condition that answers false, the wrapped callable is the
    callable: no call is logged, nothing is created. *)
Example wrapper_skips_the_lock :
  let w := srv_world ["/srv"%string] in
  wrapper literal posix_join posix_split (λ p, p) srv_handle 5
          (Some (λ _ : unit, ret false)) answer tt w
  = (Ok 42, w).
Proof. vm_compute. reflexivity. Qed.

(** The wrapped callable on "/srv", where "/srv/locker" is not a
    directory. *)
Lemma wrapper_guards_by_condition_witness :
  let w := srv_world ["/srv"%string] in
  wrapper literal posix_join posix_split (λ p, p) srv_handle 5
          (Some (λ _ : unit, ret false)) answer tt w
  = answer tt w
  ∧ wrapped_answer tt w =
      match __init__ posix_split (λ p, p) (posix_join "/srv" "locker") 20 w with
      | (Ok h, w2) => scoped literal 5 h (answer tt) w2
      | (Raise e, w2) => (Raise e, w2)
      | (OutOfFuel, w2) => (OutOfFuel, w2)
      end
  ∧ (∃ h w2, __init__ posix_split (λ p, p) (posix_join "/srv" "locker") 20 w = (Ok h, w2)
             ∧ (__folder h, __filename h) = ("/srv", "locker")%string).
Proof.
  intros w. split; [|split].
  - pose proof (wrapper_guards_by_condition literal posix_join posix_split (λ p, p)
                  srv_handle 5 (Some (λ _ : unit, ret false)) answer tt) as H.
    cbv zeta in H. destruct H as (_ & H1 & _).
    apply (H1 (λ _ : unit, ret false) w w); reflexivity.
  - pose proof (wrapper_guards_by_condition literal posix_join posix_split (λ p, p)
                  srv_handle 5 None answer tt) as H.
    cbv zeta in H. destruct H as (_ & _ & H2 & _).
    apply (H2 w w). left. split; reflexivity.
  - pose proof (wrapper_guards_by_condition literal posix_join posix_split (λ p, p)
                  srv_handle 5 None answer tt) as H.
    cbv zeta in H. destruct H as (_ & _ & _ & H3 & _).
    assert (E : __init__ posix_split (λ p, p) (posix_join "/srv" "locker") 20 w
                = (Ok (fresh 2 20 "/srv" "locker"),
                   snd (__init__ posix_split (λ p, p) (posix_join "/srv" "locker") 20 w)))
      by (vm_compute; reflexivity).
    eexists _, _. split; [exact E|].
    refine (proj1 (proj2 (proj2 (proj2 (proj2 (proj2 (H3 w _ _ E)))))) _ _).
    + intros Hin. apply list_elem_of_singleton in Hin. discriminate.
    + reflexivity.
Defined.

(** * Ticket names *)

Lemma digit_value_digit_char (d : Z) : 0 <= d <= 9 → digit_value (digit_char d) = Some d.
Proof.
  intros H.
  assert (Hd : d = 0 ∨ d = 1 ∨ d = 2 ∨ d = 3 ∨ d = 4 ∨ d = 5 ∨ d = 6 ∨ d = 7 ∨ d = 8 ∨ d = 9)
    by lia.
  repeat (destruct Hd as [-> | Hd]; [reflexivity|]). subst d. reflexivity.
Qed.

Lemma append_cons (x : ascii) (a b : string) : String x a +:+ b = String x (a +:+ b).
Proof. reflexivity. Qed.

Lemma append_assoc (a b c : string) : (a +:+ b) +:+ c = a +:+ (b +:+ c).
Proof.
  induction a as [|x a IH]; [reflexivity|].
  rewrite !append_cons, IH. reflexivity.
Qed.

Lemma strip_prefix_app (a b : string) : strip_prefix a (a +:+ b) = Some b.
Proof.
  induction a as [|x a IH]; [reflexivity|].
  rewrite append_cons. cbn [strip_prefix].
  rewrite bool_decide_eq_true_2 by reflexivity. exact IH.
Qed.

(** Reading back the [k] digits that [zfill] wrote. *)
Lemma read_digits_zfill (k : nat) : ∀ (n : Z) (m : nat) (rest : string) (acc : Z),
  0 <= n →
  read_digits (k + m) (zfill k n +:+ rest) acc
  = read_digits m rest (acc * 10 ^ Z.of_nat k + n mod 10 ^ Z.of_nat k).
Proof.
  induction k as [|k IH]; intros n m rest acc Hn.
  - change (read_digits m rest acc = read_digits m rest (acc * 1 + n mod 1)).
    rewrite Z.mod_1_r. f_equal. lia.
  - cbn [zfill]. rewrite append_assoc.
    replace (S k + m)%nat with (k + S m)%nat by lia.
    rewrite IH by (apply Z.div_pos; lia).
    rewrite append_cons. cbn [read_digits].
    rewrite digit_value_digit_char by (pose proof (Z.mod_pos_bound n 10); lia).
    f_equal. rewrite Nat2Z.inj_succ, Z.pow_succ_r by lia.
    rewrite Z.rem_mul_r by lia. change ("" +:+ rest) with rest. lia.
Qed.

(** The matcher on a ticket name followed by anything. *)
Lemma literal_match_ticket (filename : string) (i : Z) (suffix : string) :
  0 <= i < _RAND_RANGE →
  literal_match filename (_LOCK_FORMAT filename i +:+ suffix) = Some i.
Proof.
  intros Hi. unfold literal_match, _LOCK_FORMAT.
  rewrite !append_assoc. rewrite <- (append_assoc filename ".").
  rewrite strip_prefix_app.
  change 6%nat with (6 + 0)%nat at 1. rewrite read_digits_zfill by lia.
  cbn [read_digits]. f_equal. unfold _RAND_RANGE in Hi.
  change (10 ^ Z.of_nat 6) with 1000000. rewrite Z.mod_small by lia. lia.
Qed.

Lemma append_nil_r (a : string) : a +:+ "" = a.
Proof. induction a as [|x a IH]; [reflexivity|]. rewrite append_cons, IH. reflexivity. Qed.

Lemma literal_match_name (filename : string) (i : Z) :
  0 <= i < _RAND_RANGE → literal_match filename (_LOCK_FORMAT filename i) = Some i.
Proof.
  intros Hi. rewrite <- (append_nil_r (_LOCK_FORMAT filename i)).
  apply literal_match_ticket. exact Hi.
Qed.

(** The name [_LOCK_FORMAT] gives to ticket [i] is one the pattern built
    from the same base name matches, with [i] as its counter; and since
    [pattern.match] anchors at the start only, so is that name followed by
    any suffix. *)
Theorem ticket_name_round_trip (filename : string) (i : Z) (suffix : string) :
  0 <= i < _RAND_RANGE →
  literal_match filename (_LOCK_FORMAT filename i) = Some i
  ∧ literal_match filename (_LOCK_FORMAT filename i +:+ suffix) = Some i.
Proof.
  intros Hi. split; [apply literal_match_name | apply literal_match_ticket]; exact Hi.
Qed.

Lemma ticket_name_round_trip_witness :
  literal_match "locker" (_LOCK_FORMAT "locker" 42) = Some 42
  ∧ literal_match "locker" (_LOCK_FORMAT "locker" 42 +:+ ".bak") = Some 42.
Proof. apply (ticket_name_round_trip "locker" 42 ".bak"). unfold _RAND_RANGE. lia. Defined.

(** Two ids of the range never share a ticket name. *)
Theorem ticket_names_differ (filename : string) (i j : Z) :
  0 <= i < _RAND_RANGE → 0 <= j < _RAND_RANGE → i ≠ j →
  _LOCK_FORMAT filename i ≠ _LOCK_FORMAT filename j.
Proof.
  intros Hi Hj Hne E.
  pose proof (literal_match_ticket filename i "" Hi) as H1.
  pose proof (literal_match_ticket filename j "" Hj) as H2.
  rewrite E, H2 in H1. congruence.
Qed.

Lemma ticket_names_differ_witness :
  _LOCK_FORMAT "locker" 7 ≠ _LOCK_FORMAT "locker" 70.
Proof. apply (ticket_names_differ "locker" 7 70); unfold _RAND_RANGE; lia. Defined.

(** * Release without interference *)

Lemma registry_remove_idemp (o : nat) (l : list nat) :
  registry_remove o (registry_remove o l) = registry_remove o l.
Proof.
  unfold registry_remove. induction l as [|x l IH]; [reflexivity|].
  rewrite (filter_cons _ x l). case_decide as Hx.
  - rewrite (filter_cons _ x (filter _ l)). rewrite decide_True by exact Hx.
    f_equal. exact IH.
  - exact IH.
Qed.

(** [unlock] where nothing interferes: it succeeds, the handle leaves the
    registry and its ticket, if it has one, leaves the directory. *)
Lemma unlock_quiet (h : FileLocker) (w : World) :
  quiet w →
  ∃ w', unlock (h, w) = (Ok tt, (h, w'))
        ∧ quiet w'
        ∧ INSTANCES_LOCKED w' = registry_remove (oid h) (INSTANCES_LOCKED w)
        ∧ files w' = match __pathLocker h with
                     | Some p => delete p (files w)
                     | None => files w
                     end.
Proof.
  intros Hq. unfold unlock, bind at 1, self. cbn [fst snd].
  unfold bind at 1, update_world. cbn [fst snd].
  set (w0 := set_registry (registry_remove (oid h) (INSTANCES_LOCKED w)) w).
  assert (Hq0 : quiet w0) by exact Hq.
  destruct (__pathLocker h) as [p|].
  2: { exists w0. repeat split; auto. }
  unfold bind at 1, liftW. cbn [fst snd].
  rewrite (isfile_quiet_eq p w0 Hq0). cbn [fst snd].
  set (w1 := log (Isfile p) true (advance w0)).
  assert (Hq1 : quiet w1) by (apply quiet_advance; exact Hq0).
  change (files w0) with (files w).
  destruct (files w !! p) as [t|] eqn:Hp.
  - rewrite bool_decide_eq_true_2 by eauto.
    unfold os_remove. rewrite (sys_quiet_eq _ _ w1 Hq1).
    change (files w1) with (files w). rewrite Hp.
    eexists. split; [reflexivity|]. split; [|split; reflexivity].
    apply quiet_advance. exact Hq1.
  - rewrite bool_decide_eq_false_2 by (intros [? ?]; congruence).
    exists w1. split; [reflexivity|]. split; [exact Hq1|]. split; [reflexivity|].
    symmetry. apply delete_id. exact Hp.
Qed.

(** In a quiet environment [unlock] always succeeds and touches no file
    but the handle's own ticket; called again, it changes neither the
    directory nor the registry. *)
Theorem unlock_twice_is_unlock_once (h : FileLocker) (w : World)
        (r1 : outcome unit) (s1 : Self) (r2 : outcome unit) (s2 : Self) :
  quiet w →
  unlock (h, w) = (r1, s1) →
  unlock s1 = (r2, s2) →
  r1 = Ok tt ∧ r2 = Ok tt
  ∧ fst s1 = h ∧ fst s2 = h
  ∧ (∀ q, __pathLocker h ≠ Some q → files (snd s1) !! q = files w !! q)
  ∧ (∀ q, __pathLocker h = Some q → files (snd s1) !! q = None)
  ∧ INSTANCES_LOCKED (snd s1) = registry_remove (oid h) (INSTANCES_LOCKED w)
  ∧ files (snd s2) = files (snd s1)
  ∧ INSTANCES_LOCKED (snd s2) = INSTANCES_LOCKED (snd s1).
Proof.
  intros Hq E1 E2.
  destruct (unlock_quiet h w Hq) as (w1 & E1' & Hq1 & Hr1 & Hf1).
  rewrite E1' in E1. inversion E1; subst r1 s1. clear E1.
  destruct (unlock_quiet h w1 Hq1) as (w2 & E2' & _ & Hr2 & Hf2).
  rewrite E2' in E2. inversion E2; subst r2 s2. clear E2. cbn [fst snd].
  repeat split; auto.
  - intros q Hne. rewrite Hf1. destruct (__pathLocker h) as [p|]; [|reflexivity].
    apply lookup_delete_ne. congruence.
  - intros q Hp. rewrite Hf1, Hp. apply lookup_delete_eq.
  - rewrite Hf2, Hf1. destruct (__pathLocker h) as [p|]; [|reflexivity].
    apply delete_id. apply lookup_delete_eq.
  - rewrite Hr2, Hr1. apply registry_remove_idemp.
Qed.

(** * The handle's ticket along its life *)

(** The handle has no ticket path, or the path is the one [_LOCK_FORMAT]
    gives its id in its folder, the id being in the range of the draw. *)
Definition well_formed (h : FileLocker) : Prop :=
  match __pathLocker h with
  | None => True
  | Some p => p = (__folder h, _LOCK_FORMAT (__filename h) (__id h))
              ∧ 0 <= __id h < _RAND_RANGE
  end.

(** The handle [h] is the object [h0], on the namespace [h0] was built
    with. *)
Definition same_handle (h0 h : FileLocker) : Prop :=
  oid h = oid h0 ∧ __folder h = __folder h0 ∧ __filename h = __filename h0.

Definition sound (h0 : FileLocker) (h : FileLocker) (_ : list nat) (_ : list (syscall * bool))
  : Prop :=
  same_handle h0 h ∧ well_formed h.

Section Sound.

Variable lib : Library.
Variable h0 : FileLocker.

Local Ltac sound_auto :=
  unfold sound, same_handle, well_formed; simpl; intros; tauto.

Lemma draw_ticket_sound (fuel : nat) : invariant (view (sound h0)) (draw_ticket fuel).
Proof.
  induction fuel as [|fuel IH]; simpl; [inv_step|].
  apply hoare_self; intros h.
  apply hoare_bind with (R := λ _ s, view (sound h0) s ∧ fst s = h).
  { intros s r s' [Hs Hh] E. destruct (__pathLocker h).
    - pose proof (frame_isfile (sound h0) ltac:(sound_auto) p _ _ _ Hs E) as Hs'.
      apply liftW_inv in E as [Hh' E].
      apply isfile_inv in E as [_ [[-> _] | [-> _]]]; (split; [exact Hs' | congruence]).
    - inversion E; subst. auto. }
  intros [|]; [|apply hoare_ret; tauto].
  apply hoare_bind with (R := λ i s, (view (sound h0) s ∧ fst s = h) ∧ 0 <= i < _RAND_RANGE).
  { intros s r s' [Hs Hh] E.
    pose proof (frame_sys_total (sound h0) ltac:(sound_auto) Randrange _ eq_refl eq_refl
                  _ _ _ Hs E) as Hs'.
    apply liftW_inv in E as [Hh' E]. unfold random_randrange, sys_total in E.
    destruct (next_env (snd s)) as [e w1]. inversion E; subst r.
    split; [split; [exact Hs' | congruence]|].
    apply Z.mod_pos_bound. reflexivity. }
  intros i [h' w] r s' [[Hs Hh] Hi] E. cbn [fst] in Hh. subst h'.
  unfold bind at 1, update in E. cbn [fst snd] in E.
  unfold bind at 1, update in E. cbn [fst snd] in E.
  eapply IH; [|exact E].
  destruct Hs as [Hsame _]. split; [exact Hsame|].
  unfold well_formed. simpl. auto.
Qed.

Lemma lock_loop_sound (fuel : nat) : invariant (view (sound h0)) (lock_loop lib fuel).
Proof.
  induction fuel as [|fuel IH]; simpl; [inv_step|].
  inv_step. inv_step; [|inv_step].
  inv_step; [apply getLockFileIds_frame; sound_auto|]. inv_step.
  - inv_step; [apply draw_ticket_sound|].
    inv_step; [apply create_ticket_frame; sound_auto|].
    inv_step; [apply wait_frame; sound_auto | exact IH].
  - inv_step; [apply sleep_frame; sound_auto | exact IH].
Qed.

Lemma lock_sound (fuel : nat) : invariant (view (sound h0)) (lock lib fuel).
Proof.
  apply hoare_self; intros h. destruct (__isLocked h).
  { apply hoare_raise. intros s [HI _]. exact HI. }
  apply hoare_bind with (R := λ _, view (sound h0)).
  - apply hoare_update_world. intros h' w [HI Hh]. exact HI.
  - intros _. inv_step; [apply frame_sys_total; [sound_auto | reflexivity | reflexivity]|].
    inv_step; [apply inv_update; sound_auto|].
    inv_step; [apply inv_update; sound_auto|].
    apply lock_loop_sound.
Qed.

Lemma step_sound (s s' : Self) :
  step lib s s' → view (sound h0) s → view (sound h0) s'.
Proof.
  intros Hstep H.
  destruct Hstep as [fuel s r s' E | s r s' E | s r s' E | h w t | h w w'].
  - eapply lock_sound; eassumption.
  - apply unlock_spec in E as [Hh _]. unfold view in *. rewrite Hh. exact H.
  - eapply (serverTimeLock_frame lib (sound h0)); try exact E; try exact H; sound_auto.
  - exact H.
  - exact H.
Qed.

End Sound.

(** Whatever is done with a handle, it stays the same object on the same
    namespace, and its ticket path, once it has one, is the name of its
    current id in its folder, an id of the range; so the matcher of a
    literal base name reads the handle's id from its own ticket. *)
Theorem handle_ticket_is_consistent (lib : Library) (s s' : Self) :
  lifetime lib s s' →
  well_formed (fst s) →
  same_handle (fst s) (fst s')
  ∧ well_formed (fst s')
  ∧ ∀ p, __pathLocker (fst s') = Some p →
         fst p = __folder (fst s)
         ∧ literal_match (__filename (fst s)) (snd p) = Some (__id (fst s')).
Proof.
  intros Hlife Hwf.
  assert (H : view (sound (fst s)) s').
  { induction Hlife as [s | s1 s2 s3 Hstep _ IH].
    - split; [repeat split | exact Hwf].
    - assert (H2 : view (sound (fst s1)) s2).
      { eapply step_sound; [exact Hstep|]. split; [repeat split | exact Hwf]. }
      destruct H2 as [Hsame2 Hwf2]. destruct (IH Hwf2) as [Hsame3 Hwf3].
      split; [|exact Hwf3]. unfold same_handle in *.
      destruct Hsame2 as (? & ? & ?), Hsame3 as (? & ? & ?). repeat split; congruence. }
  destruct H as [Hsame Hwf']. split; [exact Hsame|]. split; [exact Hwf'|].
  intros p Hp. unfold well_formed in Hwf'. rewrite Hp in Hwf'.
  destruct Hwf' as [-> Hi]. destruct Hsame as (_ & Hfo & Hfi). cbn [fst snd].
  split; [exact Hfo|]. rewrite Hfi. apply literal_match_name. exact Hi.
Qed.

(** * The errors of [lock] *)



Section Errors.

Variable lib : Library.











End Errors.


(** * The termination hook *)

Lemma unlock_registry (s : Self) (r : outcome unit) (s' : Self) :
  unlock s = (r, s') →
  INSTANCES_LOCKED (snd s') = registry_remove (oid (fst s)) (INSTANCES_LOCKED (snd s)).
Proof.
  destruct s as [h w]. unfold unlock, bind at 1, self. cbn [fst snd].
  unfold bind at 1, update_world. cbn [fst snd].
  destruct (__pathLocker h) as [p|]; [|intros E; inversion E; reflexivity].
  intros E. apply bind_inv in E as [(b & s1 & E1 & E) | [(e & E1 & _) | (E1 & _)]].
  2,3: apply may_isfile in E1; contradiction.
  apply liftW_inv in E1 as [_ E1]. apply isfile_inv in E1 as (Hr1 & _).
  cbn [snd] in Hr1. destruct b.
  - apply liftW_inv in E as [_ E]. apply sys_inv in E as [Hr2 _].
    rewrite Hr2, Hr1. reflexivity.
  - inversion E; subst. exact Hr1.
Qed.

Lemma registry_remove_shrinks (o : nat) (l : list nat) :
  o ∈ l → length (registry_remove o l) ≠ length l.
Proof.
  intros Hin. unfold registry_remove.
  pose proof (length_filter_lt (λ x, x ≠ o) l o Hin) as H.
  assert (Hn : ¬ o ≠ o) by (intros Hne; apply Hne; reflexivity).
  specialize (H Hn). lia.
Qed.

(** The sweep over handles none of which has its flag set. *)
Lemma sweep_idle (objs : list FileLocker) (refs : list nat) (w : World) :
  (∀ o h, o ∈ refs → find_handle objs o = Some h → locked h = false) →
  sweep objs (length (INSTANCES_LOCKED w)) refs w = (Ok tt, w).
Proof.
  induction refs as [|o refs IH]; intros H; simpl.
  - rewrite bool_decide_eq_true_2 by reflexivity. reflexivity.
  - rewrite bool_decide_eq_true_2 by reflexivity.
    assert (IH' : sweep objs (length (INSTANCES_LOCKED w)) refs w = (Ok tt, w)).
    { apply IH. intros o' h' Hin. apply H. right. exact Hin. }
    destruct (find_handle objs o) as [h|] eqn:Hf; [|exact IH'].
    rewrite (H o h) by (left || exact Hf). exact IH'.
Qed.

(** What the sweep has done when it ends: nothing, or exactly one
    release. *)
Definition one_release (objs : list FileLocker) (refs : list nat) (w : World)
           (r : outcome unit) (w' : World) : Prop :=
  ∃ o h, o ∈ refs ∧ find_handle objs o = Some h ∧ locked h = true
         ∧ INSTANCES_LOCKED w' = registry_remove o (INSTANCES_LOCKED w)
         ∧ (r = Raise set_changed_size ∨ ∃ p, r = Raise (OSError (Remove p))).

Lemma sweep_releases_one (objs : list FileLocker) (refs : list nat) :
  ∀ (w : World) (r : outcome unit) (w' : World),
  (∀ o, o ∈ refs → o ∈ INSTANCES_LOCKED w) →
  sweep objs (length (INSTANCES_LOCKED w)) refs w = (r, w') →
  (r = Ok tt ∧ w' = w) ∨ one_release objs refs w r w'.
Proof.
  induction refs as [|o refs IH]; intros w r w' Hrefs E; simpl in E.
  { rewrite bool_decide_eq_true_2 in E by reflexivity. inversion E; auto. }
  rewrite bool_decide_eq_true_2 in E by reflexivity.
  assert (Hrest : sweep objs (length (INSTANCES_LOCKED w)) refs w = (r, w') →
                  (r = Ok tt ∧ w' = w) ∨ one_release objs (o :: refs) w r w').
  { intros E'. destruct (IH w r w') as [H | (o' & h' & Hin & H)]; auto.
    - intros o' Hin. apply Hrefs. right. exact Hin.
    - right. exists o', h'. split; [right; exact Hin | exact H]. }
  destruct (find_handle objs o) as [h|] eqn:Hf; [|auto].
  destruct (locked h) eqn:Hflag; [|auto]. clear Hrest.
  right. exists o, h. split; [left|]. split; [exact Hf|]. split; [exact Hflag|].
  unfold bind, call_unlock in E.
  destruct (unlock (h, w)) as [r1 [h1 w1]] eqn:Eu. cbn [snd] in E.
  pose proof (unlock_registry _ _ _ Eu) as Hreg. cbn [fst snd] in Hreg.
  rewrite (find_handle_oid _ _ _ Hf) in Hreg.
  pose proof (unlock_may _ _ _ Eu) as Hm.
  destruct r1 as [[]|e|]; [| |contradiction].
  - assert (Hsize : length (INSTANCES_LOCKED w1) ≠ length (INSTANCES_LOCKED w)).
    { rewrite Hreg. apply registry_remove_shrinks. apply Hrefs. left. }
    destruct refs as [|o2 refs]; simpl in E;
      rewrite bool_decide_eq_false_2 in E by exact Hsize;
      inversion E; subst; auto.
  - inversion E; subst. split; [exact Hreg|]. right.
    destruct e as [| |c| | | | | | |]; try contradiction.
    destruct c; try contradiction. eauto.
Qed.

(** At the exit of a process none of whose registered handles has its
    flag set, the hook does nothing: no call, no file deleted, every
    handle left registered.  A handle that holds the lock is such a
    handle, its flag having been cleared by the acquisition. *)
Theorem hook_ignores_unflagged_handles (objs : list FileLocker) (w : World) :
  (∀ o h, o ∈ INSTANCES_LOCKED w → find_handle objs o = Some h → locked h = false) →
  __unlockall objs w = (Ok tt, w).
Proof.
  intros H. unfold __unlockall, try_except.
  rewrite (sweep_idle objs (INSTANCES_LOCKED w) w H). reflexivity.
Qed.

(** However many handles are registered with their flag set, one run of
    the hook releases at most one of them: the release shrinks the set
    under the iteration, the next step of the loop raises the
    [RuntimeError] the hook swallows, and every other handle is left
    registered. *)
Theorem hook_releases_at_most_one (objs : list FileLocker) (w : World)
        (r : outcome unit) (w' : World) :
  __unlockall objs w = (r, w') →
  (r = Ok tt ∧ w' = w)
  ∨ ∃ o h, o ∈ INSTANCES_LOCKED w ∧ find_handle objs o = Some h ∧ locked h = true
           ∧ INSTANCES_LOCKED w' = registry_remove o (INSTANCES_LOCKED w)
           ∧ (r = Ok tt ∨ ∃ p, r = Raise (OSError (Remove p)))
           ∧ ∀ o', o' ≠ o → o' ∈ INSTANCES_LOCKED w → o' ∈ INSTANCES_LOCKED w'.
Proof.
  unfold __unlockall, try_except.
  destruct (sweep objs (length (INSTANCES_LOCKED w)) (INSTANCES_LOCKED w) w) as [r1 w1] eqn:E.
  destruct (sweep_releases_one objs _ w r1 w1 (λ _ H, H) E)
    as [[-> ->] | (o & h & Hin & Hf & Hflag & Hreg & Hr)].
  { intros H; inversion H; auto. }
  intros H. right. exists o, h.
  assert (Hw : w' = w1 ∧ (r = Ok tt ∨ ∃ p, r = Raise (OSError (Remove p)))).
  { destruct Hr as [-> | [p ->]]; simpl in H; inversion H; subst; eauto. }
  destruct Hw as [-> Hr']. repeat split; auto.
  intros o' Hne Hin'. rewrite Hreg. unfold registry_remove.
  apply list_elem_of_filter. auto.
Qed.

(** * What a successful [lock] has done *)

(** Since the log [tr0] one file has been opened for writing, the ticket
    of the handle, and no other [open] was attempted. *)
Definition created_own (tr0 : list (syscall * bool)) (h : FileLocker) (_ : list nat)
           (tr : list (syscall * bool)) : Prop :=
  ∃ pre p post, tr = tr0 ++ pre ++ (OpenW p, true) :: post
                ∧ no_open pre ∧ no_open post ∧ __pathLocker h = Some p.

Lemma created_own_snoc (tr0 : list (syscall * bool)) (h : FileLocker) (reg : list nat)
      (tr : list (syscall * bool)) (c : syscall) (ok : bool) :
  is_open c = false → created_own tr0 h reg tr → created_own tr0 h reg (tr ++ [(c, ok)]).
Proof.
  intros Hc (pre & p & post & -> & H1 & H2 & H3). exists pre, p, (post ++ [(c, ok)]).
  split; [|split; [exact H1 | split; [apply no_open_snoc; assumption | exact H3]]].
  rewrite <- !app_assoc. reflexivity.
Qed.

Section Success.

Variable lib : Library.
Variables (o : nat) (start0 T : Z).
Variable tr0 : list (syscall * bool).

Definition success_post (r : outcome unit) (s' : Self) : Prop :=
  r = Ok tt → view (created_own tr0) s'.

Local Ltac nothing_auto :=
  simpl; intros; first [assumption | apply nothing_created_snoc; auto].

Local Ltac own_auto :=
  simpl; intros; first [assumption | apply created_own_snoc; auto].

Lemma success_bind {A} (m : M Self A) (k : A → M Self unit) :
  hoare (before_creation o start0 T tr0) m
        (λ r s', view (λ _ _, nothing_created tr0) s'
                 ∧ match r with Ok _ => attempting o start0 T s' | _ => True end) →
  (∀ a, hoare (before_creation o start0 T tr0) (k a) success_post) →
  hoare (before_creation o start0 T tr0) (bind m k) success_post.
Proof.
  intros Hm Hk. eapply hoare_bind; [|exact Hk].
  intros s r s' Hs E. destruct (Hm _ _ _ Hs E) as [H1 H2].
  destruct r; [split; assumption | discriminate | discriminate].
Qed.

Lemma create_ticket_success :
  hoare (before_creation o start0 T tr0) create_ticket
        (λ r s', match r with
                 | Ok _ => attempting o start0 T s' ∧ view (created_own tr0) s'
                 | _ => True
                 end).
Proof.
  intros [h w] r s' [Ha (evs & Htr & Hevs)] E. simpl in Htr.
  pose proof (attempting_create o start0 T _ _ _ Ha E) as Ha'.
  destruct r as [u|e|]; [|exact I|exact I]. split; [exact Ha'|].
  unfold create_ticket, bind at 1, self in E. cbn [fst snd] in E.
  destruct (__pathLocker h) as [p|] eqn:Hp; [|discriminate].
  unfold try_except in E.
  destruct (liftW (open_w_close p) (h, w)) as [r1 [h1 w1]] eqn:E1.
  apply liftW_inv in E1 as [Hh E1]. cbn [fst snd] in Hh, E1. subst h1.
  apply sys_inv in E1 as [_ [(a & -> & Ht) | [-> Ht]]]; [|simpl in E; discriminate].
  inversion E; subst s'. exists evs, p, []. unfold view; cbn [fst snd].
  rewrite Ht, Htr, <- app_assoc.
  split; [reflexivity|]. split; [exact Hevs|]. split; [constructor | exact Hp].
Qed.

Lemma lock_loop_success (fuel : nat) :
  hoare (before_creation o start0 T tr0) (lock_loop lib fuel) success_post.
Proof.
  induction fuel as [|fuel IH]; simpl.
  { apply hoare_out_of_fuel. intros s _ [=]. }
  apply hoare_self; intros h. destruct (__isLocked h) eqn:Hflag.
  2: { intros s r s' [[[[Hf _] _] _] Hh] _. simpl in Hh. subst h. congruence. }
  apply hoare_conseq with (P' := before_creation o start0 T tr0) (Q' := success_post);
    [|tauto|auto].
  apply success_bind; [|intros ids].
  { apply creation_call; [|apply getLockFileIds_frame; nothing_auto].
    eapply attempt_call; [apply attempting_listing | apply getLockFileIds_may |].
    intros [a|e|]; simpl; auto. destruct e; auto. destruct call; auto; contradiction. }
  destruct ids as [|i ids].
  - apply success_bind; [|intros _].
    { apply creation_call; [|apply draw_ticket_frame; nothing_auto].
      eapply attempt_call; [apply attempting_draw | apply draw_ticket_may |].
      intros [a|e|]; simpl; auto; contradiction. }
    eapply hoare_bind
      with (R := λ _ s, attempting o start0 T s ∧ view (created_own tr0) s).
    { intros s r s' Hs E. pose proof (create_ticket_success _ _ _ Hs E) as H.
      destruct r; [exact H | discriminate | discriminate]. }
    intros _.
    eapply hoare_bind
      with (R := λ _ s, acquired o start0 T s ∧ view (created_own tr0) s).
    { intros s r s' [Ha Hv] E.
      pose proof (wait_attempt lib o start0 T fuel _ _ _ Ha E) as H1.
      assert (H2 : view (created_own tr0) s')
        by (eapply (wait_frame lib (created_own tr0)); try exact E; own_auto).
      destruct r; [split; assumption | discriminate | discriminate]. }
    intros _ s r s' [Ha Hv] E. destruct fuel as [|fuel]; [inversion E; discriminate|].
    rewrite lock_loop_released in E by apply Ha. inversion E; subst. intros _. exact Hv.
  - apply success_bind; [|intros _; exact IH].
    apply creation_call; [apply sleep_attempt | apply sleep_frame; nothing_auto].
Qed.

End Success.

(** A [lock] that returns has opened exactly one file for writing during
    the call, the ticket whose path the handle holds, and that [open]
    succeeded: no other [open] was attempted, before or after.  (The
    throwaway file of the reference clock is made by [tempfile], not by
    [open], and is not counted here.) *)
Theorem successful_lock_created_its_ticket (lib : Library)
        (fuel : nat) (s s' : Self) :
  lock lib fuel s = (Ok tt, s') →
  ∃ pre p post,
    trace (snd s') = trace (snd s) ++ pre ++ (OpenW p, true) :: post
    ∧ no_open pre ∧ no_open post
    ∧ __pathLocker (fst s') = Some p.
Proof.
  intros E. destruct (__isLocked (fst s)) eqn:Hflag.
  { rewrite lock_already_locked in E by exact Hflag. discriminate. }
  destruct (lock_enters_loop lib fuel s Hflag) as (s0 & start0 & E0 & Ha & Htr).
  rewrite E0 in E.
  refine (lock_loop_success lib (oid (fst s)) start0 (timeout (fst s)) (trace (snd s))
            fuel s0 _ _ _ E eq_refl).
  split; [exact Ha|]. exists [(TimeTime, true)]. split; [exact Htr|].
  repeat constructor.
Qed.

(** * The methods in a quiet environment *)

Lemma listing_quiet_empty (lib : Library) (h : FileLocker) (w : World) :
  quiet w →
  re_compiles lib (_LOCK_REGEX_FORMAT (__filename h)) = true →
  fileLockerMatches lib (__filename h) (listdir (__folder h) (files w)) = [] →
  __getLockFileIds lib (h, w)
  = (Ok [], (h, log (Listdir (__folder h)) true (advance w))).
Proof.
  intros Hq Hre Hnone. unfold __getLockFileIds, bind at 1, self. cbn [fst snd]. rewrite Hre.
  unfold bind at 1, liftW, os_listdir. cbn [fst snd].
  rewrite (sys_quiet_eq _ _ w Hq). rewrite Hnone. reflexivity.
Qed.

Lemma draw_ticket_quiet (n : nat) (h : FileLocker) (w : World) :
  let i := next_reading w mod _RAND_RANGE in
  let p : path := (__folder h, _LOCK_FORMAT (__filename h) i) in
  quiet w → __pathLocker h = None → files w !! p = None →
  draw_ticket (S (S n)) (h, w)
  = (Ok tt, (set_pathLocker (Some p) (set_id i h),
             log (Isfile p) true (advance (log Randrange true (advance w))))).
Proof.
  intros i p Hq Hnone Hfree.
  change (draw_ticket (S (S n))) with
    (let* h := self in
     let* again :=
       match __pathLocker h with
       | None => ret true
       | Some p => liftW (os_path_isfile p)
       end in
     if again : bool then
       let* i := liftW random_randrange in
       update (set_id i) ;;
       update (set_pathLocker (Some (__folder h, _LOCK_FORMAT (__filename h) i))) ;;
       draw_ticket (S n)
     else ret tt).
  unfold bind at 1, self. cbn [fst snd]. rewrite Hnone.
  unfold bind at 1, ret.
  unfold bind at 1, liftW, random_randrange. cbn [fst snd].
  rewrite (sys_total_quiet_eq _ _ w Hq). cbn [reading]. fold i.
  unfold bind at 1, update. cbn [fst snd].
  unfold bind at 1, update. cbn [fst snd]. fold p.
  set (w1 := log Randrange true (advance w)).
  assert (Hq1 : quiet w1) by (apply quiet_advance; exact Hq).
  cbn [draw_ticket]. unfold bind at 1, self. cbn [fst snd __pathLocker set_pathLocker].
  unfold bind at 1, liftW. cbn [fst snd].
  rewrite (isfile_quiet_eq _ w1 Hq1).
  rewrite bool_decide_eq_false_2; [reflexivity|].
  intros [t Ht]. pose proof (eq_trans (eq_sym Ht) Hfree) as Hc. discriminate Hc.
Qed.

Lemma create_ticket_quiet (h : FileLocker) (w : World) (p : path) :
  quiet w → __pathLocker h = Some p →
  create_ticket (h, w)
  = (Ok tt, (h, log (OpenW p) true (set_files (<[p:=next_reading w]> (files w)) (advance w)))).
Proof.
  intros Hq Hp. unfold create_ticket, bind at 1, self. cbn [fst snd]. rewrite Hp.
  unfold try_except, liftW, open_w_close. cbn [fst snd].
  rewrite (sys_quiet_eq _ _ w Hq). reflexivity.
Qed.

(** A poll point before the deadline: the clock is read and the handle
    sleeps. *)
Lemma sleep_quiet_in_time (h : FileLocker) (w : World) (start : Z) :
  quiet w → __start h = Some start →
  next_reading w <= start + seconds (timeout h) →
  __sleep (h, w) = (Ok tt, (h, log TimeSleep true (advance (log TimeTime true (advance w))))).
Proof.
  intros Hq Hs Hnow. unfold __sleep, bind at 1, self. cbn [fst snd]. rewrite Hs.
  unfold bind at 1, liftW, time_time. cbn [fst snd].
  rewrite (sys_total_quiet_eq _ _ w Hq). cbn [reading fst snd].
  destruct (Z.ltb_spec (start + seconds (timeout h)) (next_reading w)) as [Hlt|_]; [lia|].
  unfold time_sleep.
  rewrite (sys_total_quiet_eq _ _ (log TimeTime true (advance w)) (quiet_advance w Hq)).
  reflexivity.
Qed.


(** ** The calls of a listing *)

Definition cleanup_call (c : syscall) : bool :=
  match c with
  | Getmtime _ | Mkstemp _ | TempStat _ | TempClose _ | Remove _ => true
  | _ => false
  end.

(** From the log [tr0] on, only calls of the clean-up were made. *)
Definition cleanup_only (tr0 tr : list (syscall * bool)) : Prop :=
  ∃ evs, tr = tr0 ++ evs ∧ Forall (λ ev, cleanup_call (fst ev) = true) evs.

Lemma cleanup_only_refl (tr : list (syscall * bool)) : cleanup_only tr tr.
Proof. exists []. rewrite app_nil_r. auto. Qed.

Lemma cleanup_sys {A} (tr0 : list (syscall * bool)) (c : syscall)
      (f : env_step → gmap path Z → option (A * gmap path Z)) :
  cleanup_call c = true →
  invariant (λ s, cleanup_only tr0 (trace (snd s))) (liftW (sys c f)).
Proof.
  intros Hc s r s' (evs & Htr & Hevs) E. apply liftW_inv in E as [_ E].
  assert (Ht : ∃ ok, trace (snd s') = trace (snd s) ++ [(c, ok)]).
  { apply sys_inv in E as [_ [(a & _ & Ht) | [_ Ht]]]; eauto. }
  destruct Ht as [ok Ht]. exists (evs ++ [(c, ok)]).
  rewrite Ht, Htr, <- app_assoc. split; [reflexivity|].
  apply Forall_app. split; [exact Hevs|]. constructor; [exact Hc | constructor].
Qed.

Lemma reap_cleanup (lib : Library) (tr0 : list (syscall * bool)) (p : path) :
  invariant (λ s, cleanup_only tr0 (trace (snd s))) (reap lib p).
Proof.
  unfold reap, _serverTimeLock.
  repeat first [inv_step | apply cleanup_sys; reflexivity | apply inv_update; auto].
Qed.

(** Whether [os.listdir] went through, by the result of the listing. *)
Definition listed {A} (r : outcome A) : bool :=
  match r with
  | Raise (OSError (Listdir _)) => false
  | _ => true
  end.

(** A listing whose pattern compiles calls [os.listdir] once, and after
    it makes calls of the clean-up only. *)
Lemma listing_calls (lib : Library) (s : Self) (r : outcome (list Z)) (s' : Self) :
  re_compiles lib (_LOCK_REGEX_FORMAT (__filename (fst s))) = true →
  __getLockFileIds lib s = (r, s') →
  cleanup_only (trace (snd s) ++ [(Listdir (__folder (fst s)), listed r)]) (trace (snd s')).
Proof.
  unfold __getLockFileIds, bind at 1, self. intros Hre E. cbn [fst snd] in E.
  rewrite Hre in E.
  apply bind_inv in E as [(names & s1 & E1 & E) | [(e & E1 & ->) | (E1 & _)]].
  - apply liftW_inv in E1 as [_ E1]. apply sys_inv in E1 as [_ [(a & _ & Ht) | [[=] _]]].
    assert (H : invariant (λ s, cleanup_only (trace (snd s1)) (trace (snd s)))
                  (for_each (reap lib)
                     ((λ m, (__folder (fst s), fst m)) <$>
                        fileLockerMatches lib (__filename (fst s)) names)))
      by (inv_step; apply reap_cleanup).
    apply bind_inv in E as [(u & s2 & E2 & E) | [(e & E2 & ->) | (E2 & _)]].
    + inversion E; subst. cbn [listed]. rewrite <- Ht.
      exact (H _ _ _ (cleanup_only_refl _) E2).
    + pose proof (may_for_each (reap lib) _ reap_outcome I (reap_may lib) _ _ _ E2) as Hr.
      pose proof (H _ _ _ (cleanup_only_refl _) E2) as Hc.
      destruct Hr as [-> | ->]; cbn [listed]; rewrite <- Ht; exact Hc.
    + exfalso. exact (may_for_each (reap lib) _ reap_outcome I (reap_may lib) _ _ _ E2).
  - pose proof (may_sys _ _ _ _ _ E1) as He. simpl in He. subst e.
    apply liftW_inv in E1 as [_ E1]. apply sys_inv in E1 as [_ [(a & [=] & _) | [_ Ht]]].
    cbn [listed]. rewrite <- Ht. apply cleanup_only_refl.
  - apply may_sys in E1. contradiction.
Qed.

(** ** A solo acquisition *)

Lemma lock_loop_step (lib : Library) (fuel : nat) (s : Self) :
  __isLocked (fst s) = true →
  lock_loop lib (S fuel) s
  = (let* ids := __getLockFileIds lib in
     match ids with
     | [] => draw_ticket fuel ;; create_ticket ;; wait lib fuel ;; lock_loop lib fuel
     | _ :: _ => __sleep ;; lock_loop lib fuel
     end) s.
Proof. intros H. simpl. unfold bind at 1, self. rewrite H. reflexivity. Qed.

Lemma lowest_all_equal (ids : list Z) (i : Z) :
  ids ≠ [] → (∀ y, y ∈ ids → y = i) → lowest ids = Some i.
Proof.
  destruct ids as [|x l]; [congruence|]. intros _ H. simpl. f_equal.
  assert (Hx : x = i) by (apply H; left). subst x.
  assert (Hl : ∀ y, y ∈ l → y = i) by (intros y Hy; apply H; right; exact Hy).
  clear H. induction l as [|a l IH]; [reflexivity|]. simpl.
  rewrite (Hl a) by left. rewrite Z.min_id. apply IH.
  intros y Hy. apply Hl. right. exact Hy.
Qed.

(** The matched entries of a folder to which the ticket [name] was added,
    no other entry matching. *)
Lemma matches_after_creation (lib : Library)
      (folder filename name : string) (fs : gmap path Z) (stamp i : Z) :
  re_match lib filename name = Some i →
  (∀ n, is_Some (fs !! (folder, n)) → re_match lib filename n = None) →
  lowest (snd <$> fileLockerMatches lib filename
                    (listdir folder (<[(folder, name) := stamp]> fs)))
  = Some i.
Proof.
  intros Hname Hnone. apply lowest_all_equal.
  - intros Hnil. apply fmap_nil_inv in Hnil.
    assert (Hin : (name, i) ∈ fileLockerMatches lib filename
                                 (listdir folder (<[(folder, name) := stamp]> fs))).
    { apply list_elem_of_omap. exists name. split; [|rewrite Hname; reflexivity].
      apply elem_of_listdir. rewrite lookup_insert_eq. eauto. }
    rewrite Hnil in Hin. inversion Hin.
  - intros y Hy. apply list_elem_of_fmap in Hy as ([n c] & -> & Hin).
    apply list_elem_of_omap in Hin as (n' & Hn' & Hm).
    destruct (re_match lib filename n') as [c'|] eqn:Hre; [|discriminate].
    simpl in Hm. inversion Hm; subst n' c'. simpl.
    apply elem_of_listdir in Hn'.
    destruct (decide (n = name)) as [->|Hne]; [congruence|].
    rewrite lookup_insert_ne in Hn' by congruence.
    rewrite (Hnone _ Hn') in Hre. discriminate.
Qed.

(** A handle whose flag is clear and that has no ticket path yet, alone
    on its namespace (no entry of its folder matches its pattern), with
    nothing interfering: provided the pattern of its base name compiles
    and reads the counter back from each of the handle's ticket names, the
    timestamps are in the range of the conversion, and the first poll
    point comes before the deadline, [lock] returns after one sleep.  Its
    calls are the reading of the clock, the listing that finds no ticket,
    the draw and the check that the name is free, the creation, the poll
    point and its sleep, and one more listing with its clean-up. *)
Theorem solo_acquisition (lib : Library) (n : nat)
        (h : FileLocker) (w : World) :
  let i := reading_at 2 w mod _RAND_RANGE in
  let p : path := (__folder h, _LOCK_FORMAT (__filename h) i) in
  quiet w →
  in_range lib w →
  __isLocked h = false →
  __pathLocker h = None →
  re_compiles lib (_LOCK_REGEX_FORMAT (__filename h)) = true →
  (∀ j, 0 <= j < _RAND_RANGE →
        re_match lib (__filename h) (_LOCK_FORMAT (__filename h) j) = Some j) →
  (∀ name, is_Some (files w !! (__folder h, name)) → re_match lib (__filename h) name = None) →
  reading_at 5 w <= reading_at 0 w + seconds (timeout h) →
  ∃ s', lock lib (S (S (S n))) (h, w) = (Ok tt, s')
        ∧ __id (fst s') = i
        ∧ __pathLocker (fst s') = Some p
        ∧ oid h ∈ INSTANCES_LOCKED (snd s')
        ∧ cleanup_only
            (trace w ++ [ (TimeTime, true); (Listdir (__folder h), true); (Randrange, true);
                          (Isfile p, true); (OpenW p, true); (TimeTime, true);
                          (TimeSleep, true); (Listdir (__folder h), true) ])
            (trace (snd s')).
Proof.
  intros i p Hq Hrange Hflag Hnone Hcomp Hrec Halone Hnow.
  assert (Hi : 0 <= i < _RAND_RANGE) by (apply Z.mod_pos_bound; reflexivity).
  unfold lock, bind at 1, self. cbn [fst snd]. rewrite Hflag.
  unfold bind at 1, update_world. cbn [fst snd].
  set (w0 := set_registry (registry_add (oid h) (INSTANCES_LOCKED w)) w).
  assert (Hq0 : quiet w0) by exact Hq.
  unfold bind at 1, liftW, time_time. cbn [fst snd].
  rewrite (sys_total_quiet_eq _ _ w0 Hq0). cbn [reading fst snd].
  unfold bind at 1, update. cbn [fst snd].
  unfold bind at 1, update. cbn [fst snd].
  set (w1 := log TimeTime true (advance w0)).
  assert (Hq1 : quiet w1) by (apply quiet_advance; exact Hq0).
  set (start := next_reading w0).
  set (hA := set_isLocked true (set_start (Some start) h)).
  rewrite lock_loop_step by reflexivity.
  unfold bind at 1.
  rewrite (listing_quiet_empty lib hA w1 Hq1 Hcomp).
  2: { change (files w1) with (files w).
       destruct (fileLockerMatches lib (__filename hA) (listdir (__folder hA) (files w)))
         as [|[name c] l] eqn:Hm; [reflexivity|]. exfalso.
       assert (Hin : (name, c) ∈ fileLockerMatches lib (__filename hA)
                                    (listdir (__folder hA) (files w)))
         by (rewrite Hm; left).
       apply list_elem_of_omap in Hin as (n' & Hn' & Hre).
       apply elem_of_listdir in Hn'. pose proof (Halone _ Hn') as Hx.
       change (__filename hA) with (__filename h) in Hre. rewrite Hx in Hre. discriminate. }
  set (w2 := log (Listdir (__folder hA)) true (advance w1)).
  assert (Hq2 : quiet w2) by (apply quiet_advance; exact Hq1).
  assert (Hr2 : next_reading w2 = reading_at 2 w).
  { rewrite next_reading_at. unfold w2, w1, w0.
    change (reading_at 0 (advance (advance w)) = reading_at 2 w).
    rewrite !reading_at_advance. reflexivity. }
  unfold bind at 1.
  rewrite (draw_ticket_quiet n hA w2 Hq2 Hnone).
  2: { rewrite Hr2. fold i.
       destruct (files w !! (__folder h, _LOCK_FORMAT (__filename h) i)) as [t|] eqn:Hp;
         [|exact Hp].
       exfalso. pose proof (Halone (_LOCK_FORMAT (__filename h) i) (ex_intro _ t Hp)) as Hre.
       rewrite (Hrec i Hi) in Hre. discriminate. }
  rewrite Hr2. fold i. change (__folder hA) with (__folder h).
  change (__filename hA) with (__filename h). fold p.
  set (hB := set_pathLocker (Some p) (set_id i hA)).
  set (w4 := log (Isfile p) true (advance (log Randrange true (advance w2)))).
  assert (Hq4 : quiet w4) by (do 2 apply quiet_advance; exact Hq2).
  unfold bind at 1.
  rewrite (create_ticket_quiet hB w4 p Hq4 eq_refl).
  set (w5 := log (OpenW p) true (set_files (<[p:=next_reading w4]> (files w4)) (advance w4))).
  assert (Hq5 : quiet w5) by (apply quiet_advance; exact Hq4).
  assert (Hr5 : next_reading w5 = reading_at 5 w).
  { rewrite next_reading_at. unfold w5, w4, w2, w1, w0.
    change (reading_at 0 (advance (advance (advance (advance (advance w))))) = reading_at 5 w).
    rewrite !reading_at_advance. reflexivity. }
  assert (Hstart : start = reading_at 0 w) by exact (next_reading_at w).
  assert (Esleep : __sleep (hB, w5)
                   = (Ok tt, (hB, log TimeSleep true (advance (log TimeTime true (advance w5)))))).
  { apply (sleep_quiet_in_time hB w5 start Hq5 eq_refl). rewrite Hr5, Hstart. exact Hnow. }
  set (w7 := log TimeSleep true (advance (log TimeTime true (advance w5)))) in *.
  assert (Hq7 : quiet w7) by (do 2 apply quiet_advance; exact Hq5).
  assert (Hr4 : next_reading w4 = reading_at 4 w).
  { rewrite next_reading_at. unfold w4, w2, w1, w0.
    change (reading_at 0 (advance (advance (advance (advance w)))) = reading_at 4 w).
    rewrite !reading_at_advance. reflexivity. }
  assert (Hrange7 : in_range lib w7).
  { apply (in_range_mono lib w w7 7); [| |exact Hrange].
    - intros q t Ht. change (files w7) with (<[p:=next_reading w4]> (files w)) in Ht.
      apply lookup_insert_Some in Ht as [[_ <-] | [_ Ht]]; [right | left; exact Ht].
      exists 4%nat. exact Hr4.
    - unfold w7, w5, w4, w2, w1, w0. cbn [env log advance set_files set_registry].
      destruct (env w) as [|e1 [|e2 [|e3 [|e4 [|e5 [|e6 [|e7 es]]]]]]]; reflexivity. }
  destruct (getLockFileIds_quiet lib hB w7 Hq7 Hrange7 Hcomp) as (h' & w' & Elist & _).
  change (files w7) with (<[p:=next_reading w4]> (files w)) in Elist.
  change (__filename hB) with (__filename h) in Elist.
  change (__folder hB) with (__folder h) in Elist.
  pose proof (matches_after_creation lib (__folder h) (__filename h)
                (_LOCK_FORMAT (__filename h) i) (files w) (next_reading w4) i
                (Hrec i Hi) Halone) as Hlow.
  fold p in Hlow.
  destruct (wait_returns_on_lowest lib (S n) (hB, w5) _ _ _ Esleep Elist Hlow)
    as [Ewait Eloop].
  unfold bind at 1. rewrite Ewait. rewrite Eloop.
  eexists. split; [reflexivity|]. cbn [fst snd].
  assert (Hh' : view (λ x reg _, __id x = i ∧ __pathLocker x = Some p ∧ oid h ∈ reg) (h', w')).
  { eapply (getLockFileIds_frame lib
              (λ x reg _, __id x = i ∧ __pathLocker x = Some p ∧ oid h ∈ reg));
      try exact Elist; try (simpl; intros; assumption).
    split; [reflexivity|]. split; [reflexivity|].
    change (oid h ∈ registry_add (oid h) (INSTANCES_LOCKED w)).
    apply elem_of_registry_add. }
  destruct Hh' as (Hid & Hpath & Hreg). cbn [fst snd] in Hid, Hpath, Hreg.
  split; [exact Hid|]. split; [exact Hpath|]. split; [exact Hreg|].
  pose proof (listing_calls lib (hB, w7) _ _ Hcomp Elist) as Hcalls. cbn [fst snd listed] in Hcalls.
  assert (Htr : trace w7 ++ [(Listdir (__folder hB), true)]
                = trace w ++ [ (TimeTime, true); (Listdir (__folder h), true);
                               (Randrange, true); (Isfile p, true); (OpenW p, true);
                               (TimeTime, true); (TimeSleep, true);
                               (Listdir (__folder h), true) ]).
  { unfold w7, w5, w4, w2, w1, w0.
    cbn [trace log advance set_files set_registry]. rewrite <- !app_assoc. reflexivity. }
  rewrite <- Htr. exact Hcalls.
Qed.

(** * Waiting behind a live ticket *)


Section Blocked.

Variable lib : Library.

(** The ticket [q], its modification time [t] with its naive local
    datetime [d], the reading [c] of the reference clock of the handle,
    the namespace and the timeout of the handle, and the log when [lock]
    was called. *)
Variables (q : path) (t d c : Z) (F N : string) (T : Z).
Variable tr0 : list (syscall * bool).

Hypothesis q_is_ticket : fst q = F ∧ is_Some (re_match lib N (snd q)).
Hypothesis N_compiles : re_compiles lib (_LOCK_REGEX_FORMAT N) = true.
Hypothesis t_local : local lib t = Some d.

(** By the reference clock of the handle, [q] is not older than the
    timeout. *)
Hypothesis q_is_live : c - d <= seconds T.










End Blocked.


(** * The theorems on the scenarios *)

(** The handle that holds the lock after the solo acquisition. *)
Definition held : Self := snd solo_run.

Definition released : outcome unit * Self := unlock (fst held, snd held).

Definition released_again : outcome unit * Self := unlock (snd released).

Lemma held_quiet : quiet (snd held).
Proof. vm_compute. repeat constructor. Defined.

Lemma unlock_twice_is_unlock_once_witness :
  fst released = Ok tt ∧ fst released_again = Ok tt
  ∧ fst (snd released) = fst held ∧ fst (snd released_again) = fst held
  ∧ (∀ q, __pathLocker (fst held) ≠ Some q →
          files (snd (snd released)) !! q = files (snd held) !! q)
  ∧ (∀ q, __pathLocker (fst held) = Some q → files (snd (snd released)) !! q = None)
  ∧ INSTANCES_LOCKED (snd (snd released))
    = registry_remove (oid (fst held)) (INSTANCES_LOCKED (snd held))
  ∧ files (snd (snd released_again)) = files (snd (snd released))
  ∧ INSTANCES_LOCKED (snd (snd released_again)) = INSTANCES_LOCKED (snd (snd released)).
Proof.
  exact (unlock_twice_is_unlock_once (fst held) (snd held) (fst released) (snd released)
           (fst released_again) (snd released_again) held_quiet (run_eq _) (run_eq _)).
Defined.

Lemma solo_run_eq :
  lock literal 5 (h0, world0 (solo ++ relock)) = (Ok tt, snd solo_run).
Proof.
  assert (H : fst solo_run = Ok tt) by (vm_compute; reflexivity).
  rewrite <- H. apply run_eq.
Defined.

Lemma handle_ticket_is_consistent_witness :
  same_handle h0 (fst held)
  ∧ well_formed (fst held)
  ∧ ∀ p, __pathLocker (fst held) = Some p →
         fst p = __folder h0
         ∧ literal_match (__filename h0) (snd p) = Some (__id (fst held)).
Proof.
  apply (handle_ticket_is_consistent literal (h0, world0 (solo ++ relock)) held).
  - apply rtc_once. exact (step_lock literal 5 _ _ _ solo_run_eq).
  - exact I.
Defined.


Lemma hook_ignores_unflagged_handles_witness :
  __unlockall [fst held] (snd held) = (Ok tt, snd held).
Proof.
  apply (hook_ignores_unflagged_handles [fst held] (snd held)).
  intros o h _ Hf. unfold find_handle in Hf. apply head_Some_elem_of in Hf.
  apply list_elem_of_filter in Hf as [_ Hin]. apply list_elem_of_singleton in Hin.
  subst h. vm_compute. reflexivity.
Defined.

(** Two handles registered with their flag set, each with its ticket in
    the directory. *)
Definition two_stuck : World :=
  mkWorld (<[("d", "locker.000500") := seconds 1000]>
             (<[("d", "locker.000600") := seconds 1000]> ∅))
          ["d"%string] [1%nat; 2%nat] 3 [] [].

Definition exit_run : outcome unit * World := __unlockall [stuck; stuck2] two_stuck.

Lemma hook_releases_at_most_one_witness :
  (fst exit_run = Ok tt ∧ snd exit_run = two_stuck)
  ∨ ∃ o h, o ∈ INSTANCES_LOCKED two_stuck ∧ find_handle [stuck; stuck2] o = Some h
           ∧ locked h = true
           ∧ INSTANCES_LOCKED (snd exit_run) = registry_remove o (INSTANCES_LOCKED two_stuck)
           ∧ (fst exit_run = Ok tt ∨ ∃ p, fst exit_run = Raise (OSError (Remove p)))
           ∧ ∀ o', o' ≠ o → o' ∈ INSTANCES_LOCKED two_stuck →
                   o' ∈ INSTANCES_LOCKED (snd exit_run).
Proof.
  exact (hook_releases_at_most_one [stuck; stuck2] two_stuck (fst exit_run) (snd exit_run)
           (run_eq _)).
Defined.

Lemma successful_lock_created_its_ticket_witness :
  ∃ pre p post,
    trace (snd held) = trace (world0 (solo ++ relock)) ++ pre ++ (OpenW p, true) :: post
    ∧ no_open pre ∧ no_open post
    ∧ __pathLocker (fst held) = Some p.
Proof.
  exact (successful_lock_created_its_ticket literal 5 (h0, world0 (solo ++ relock)) held
           solo_run_eq).
Defined.

Lemma world0_solo_quiet : quiet (world0 solo).
Proof. vm_compute. repeat constructor. Defined.

Lemma solo_acquisition_witness :
  ∃ s', lock literal 5 (h0, world0 solo) = (Ok tt, s')
        ∧ __id (fst s') = 123
        ∧ __pathLocker (fst s') = Some ("d", "locker.000123")%string
        ∧ oid h0 ∈ INSTANCES_LOCKED (snd s')
        ∧ cleanup_only
            ([] ++ [ (TimeTime, true); (Listdir "d", true); (Randrange, true);
                     (Isfile ("d", "locker.000123")%string, true);
                     (OpenW ("d", "locker.000123")%string, true); (TimeTime, true);
                     (TimeSleep, true); (Listdir "d", true) ])
            (trace (snd s')).
Proof.
  apply (solo_acquisition literal 2 h0 (world0 solo)).
  - exact world0_solo_quiet.
  - apply literal_in_range.
  - reflexivity.
  - reflexivity.
  - reflexivity.
  - intros j Hj. apply literal_match_name. exact Hj.
  - intros name [t Ht]. exfalso. revert Ht. change (files (world0 solo)) with (∅ : gmap path Z).
    rewrite lookup_empty. discriminate.
  - vm_compute. discriminate.
Defined.

(** A live ticket, number 1, stamped at 1000 s on the storage clock; the
    handle, with a one-second timeout, starts at 0 s on its own clock,
    reads 1000 s from the storage at its first listing, and finds its own
    clock at 1001 s at the first poll point. *)
Definition behind : list env_step :=
  [ rd 0;                               (* time.time(): start *)
    rd 0;                               (* os.listdir *)
    rd 0;                               (* os.path.getmtime *)
    rd (seconds 1000);                  (* NamedTemporaryFile: the reference clock *)
    rd 0; rd 0;                         (* its getmtime and close *)
    rd (seconds 1001) ].                (* time.time(): too late *)

Definition behind_world : World :=
  mkWorld (<[("d", "locker.000001") := seconds 1000]> ∅) ["d"%string] [] 2 behind [].

Definition behind_run : outcome unit * Self := lock literal 5 (h1, behind_world).



(** In that scenario the handle does time out. *)
Example behind_run_times_out :
  fst behind_run = Raise (TimeoutError 1)
  ∧ trace (snd (snd behind_run))
    = [ (TimeTime, true); (Listdir "d", true); (Getmtime ("d", "locker.000001"), true);
        (Mkstemp "d", true); (TempStat "d", true); (TempClose "d", true);
        (TimeTime, true) ].
Proof. vm_compute. auto. Qed.

(** * One poll, nothing interfering *)




Example lowest_of_two_wins :
  fst (poll literal (stuck, two_stuck)) = Ok true
  ∧ fst (poll literal (stuck2, two_stuck)) = Ok false.
Proof. vm_compute. auto. Qed.

(** * Construction *)


(** The construction on a path whose folder does not exist. *)
Definition nowhere_init : outcome FileLocker * World :=
  __init__ posix_split (λ p, p) "/gone/locker" 20 (srv_world ["/srv"%string]).


Example nowhere_init_fails :
  fst nowhere_init = Raise (NotInExistingDirectory "/gone/locker").
Proof. vm_compute. reflexivity. Qed.

(** * The aggregation of the users' matrices (create_global_comparison_matrix.py)

    [computeCommonCompDict] visits the entries of the results folder and,
    for each result file, takes a [FileLocker] on it, reads the user's
    matrix and adds it to the common one. *)

(** ** Which entries are result files *)

(** [needle in s], on strings. *)
Fixpoint contains (needle s : string) : bool :=
  match strip_prefix needle s with
  | Some _ => true
  | None =>
      match s with
      | EmptyString => false
      | String _ s' => contains needle s'
      end
  end.

(** [s.rfind(c)], [None] for -1. *)
Fixpoint rfind (c : ascii) (s : string) : option nat :=
  match s with
  | EmptyString => None
  | String d s' =>
      match rfind c s' with
      | Some k => Some (S k)
      | None => if bool_decide (d = c) then Some O else None
      end
  end.

(** [s[n:]] and [s[:n]]. *)
Fixpoint skip (n : nat) (s : string) : string :=
  match n, s with
  | O, _ => s
  | S k, String _ s' => skip k s'
  | S _, EmptyString => EmptyString
  end.

Fixpoint upto (n : nat) (s : string) : string :=
  match n, s with
  | O, _ => EmptyString
  | S k, String c s' => String c (upto k s')
  | S _, EmptyString => EmptyString
  end.

Fixpoint all_dots (s : string) : bool :=
  match s with
  | EmptyString => true
  | String c s' => bool_decide (c = "."%char) && all_dots s'
  end.

(** [os.path.splitext(p)[-1]]: the extension starts at the last dot,
    provided that dot comes after the last separator and after a
    character of the base name that is not a dot. *)
Definition splitext_ext (p : string) : string :=
  match rfind "." p with
  | None => ""
  | Some dotIndex =>
      let filenameIndex :=
        match rfind "/" p with
        | None => O
        | Some sepIndex => S sepIndex
        end in
      if bool_decide (filenameIndex ≤ dotIndex)%nat
      then if all_dots (upto (dotIndex - filenameIndex) (skip filenameIndex p))
           then ""
           else skip dotIndex p
      else ""
  end.

(** The test of line 15:
    ["compMat" in file and os.path.splitext(file)[-1] == ".npz"]. *)
Definition is_result_file (file : string) : bool :=
  contains "compMat" file && bool_decide (splitext_ext file = ".npz"%string).

Example result_files :
  is_result_file "compMat_user1.npz" = true
  ∧ is_result_file "compMat_user1.npz.000123" = false
  ∧ is_result_file "scores_user1.npz" = false
  ∧ is_result_file "compMat_user1.txt" = false
  ∧ is_result_file ".compMat.npz" = true
  ∧ splitext_ext "a/b.c/compMat" = ""%string
  ∧ splitext_ext "...npz" = ""%string.
Proof. vm_compute. repeat split; reflexivity. Qed.

Lemma rfind_app (c : ascii) (a b : string) :
  rfind c (a +:+ b) = match rfind c b with
                      | Some k => Some (String.length a + k)%nat
                      | None => rfind c a
                      end.
Proof.
  induction a as [|d a IH].
  - change (EmptyString +:+ b) with b. destruct (rfind c b); reflexivity.
  - rewrite append_cons. cbn [rfind String.length]. rewrite IH.
    destruct (rfind c b); reflexivity.
Qed.

Lemma skip_app (a b : string) : skip (String.length a) (a +:+ b) = b.
Proof.
  induction a as [|d a IH]; [destruct b; reflexivity|].
  rewrite append_cons. exact IH.
Qed.

Lemma length_app (a b : string) :
  String.length (a +:+ b) = (String.length a + String.length b)%nat.
Proof.
  induction a as [|d a IH]; [reflexivity|].
  rewrite append_cons. cbn [String.length]. rewrite IH. reflexivity.
Qed.

Lemma length_zfill (k : nat) (n : Z) : String.length (zfill k n) = k.
Proof.
  revert n. induction k as [|k IH]; intros n; [reflexivity|].
  cbn [zfill]. rewrite length_app, IH. cbn [String.length]. lia.
Qed.

Lemma digit_char_not_dot (d : Z) : 0 <= d <= 9 → digit_char d ≠ "."%char.
Proof.
  intros Hd E. pose proof (digit_value_digit_char d Hd) as H.
  rewrite E in H. vm_compute in H. discriminate.
Qed.

(** No dot among the digits of an id. *)
Lemma rfind_zfill (k : nat) (n : Z) : rfind "." (zfill k n) = None.
Proof.
  revert n. induction k as [|k IH]; intros n; [reflexivity|].
  cbn [zfill]. rewrite rfind_app. cbn [rfind].
  rewrite bool_decide_eq_false_2.
  - apply IH.
  - apply digit_char_not_dot. pose proof (Z.mod_pos_bound n 10). lia.
Qed.

Lemma splitext_ticket (filename : string) (i : Z) :
  splitext_ext (_LOCK_FORMAT filename i) = ""%string
  ∨ splitext_ext (_LOCK_FORMAT filename i) = String "." (zfill 6 i).
Proof.
  unfold _LOCK_FORMAT.
  change ("." +:+ zfill 6 i) with (String "." (zfill 6 i)).
  unfold splitext_ext. rewrite (rfind_app "." filename). cbn [rfind].
  rewrite rfind_zfill. rewrite bool_decide_eq_true_2 by reflexivity.
  rewrite Nat.add_0_r.
  destruct (bool_decide _); [|left; reflexivity].
  destruct (all_dots _); [left; reflexivity|].
  right. apply skip_app.
Qed.

(** A ticket is never taken for a result file, whatever the base name and
    the id: the part after the last dot of its name is the six digits of
    the id.  So the tickets that [FileLocker] leaves in the results folder,
    next to the files they guard, are not read as matrices. *)
Theorem tickets_are_not_result_files (filename : string) (i : Z) :
  is_result_file (_LOCK_FORMAT filename i) = false.
Proof.
  unfold is_result_file.
  rewrite bool_decide_eq_false_2; [apply andb_false_r|].
  destruct (splitext_ticket filename i) as [-> | ->]; [discriminate|].
  intros E. apply (f_equal String.length) in E. cbn [String.length] in E.
  rewrite length_zfill in E. discriminate.
Qed.

(** ** The loop over the result files *)

(** How the body of the [try] ends when it does not raise: by the
    [continue] of line 25 or by reaching its end. *)
Inductive flow : Type := Continue | Fallthrough.

Definition get_state {S} : M S S := λ s, (Ok s, s).

Definition set_state {S} (f : S → S) : M S unit := λ s, (Ok tt, f s).

(** An operation that returns or raises, and touches nothing else. *)
Definition attempt {S A} (r : exn + A) : M S A :=
  λ s, match r with
       | inl e => (Raise e, s)
       | inr a => (Ok a, s)
       end.

(** The two accumulators of the loop. *)
Record Acc (Mat Files : Type) : Type := mkAcc {
  commonCompMat : option Mat;
  listFiles : option Files
}.
Arguments mkAcc {Mat Files} _ _.
Arguments commonCompMat {Mat Files} _.
Arguments listFiles {Mat Files} _.

(** The dictionary returned when at least one matrix was summed. *)
Record CompDict (Mat Files Total : Type) : Type := mkCompDict {
  COMP_MAT : Mat;
  PROCESSED_COMPARISONS : Total;
  LIST_FILES : Files
}.
Arguments mkCompDict {Mat Files Total} _ _ _.

Section Aggregation.

Variable lib : Library.
Variable os_path_join : string → string → string.
Variable os_path_split : string → string * string.
Variable os_path_abspath : string → string.

(** numpy: the archives, the arrays, and the operations the loop uses;
    each may raise. *)
Variables (Archive Mat Files Total : Type).
Variable np_load : string → exn + Archive.              (* np.load(path, mmap_mode="r") *)
Variable has_key : string → Archive → bool.             (* key in compMatData *)
Variable getitem_COMP_MAT : Archive → exn + Mat.        (* compMatData["COMP_MAT"] *)
Variable getitem_LIST_FILES : Archive → exn + Files.    (* compMatData["LIST_FILES"] *)
Variable archive_close : Archive → exn + unit.          (* the exit of the [with] *)
Variable all_equal : Files → Files → exn + bool.        (* (a == b).all() *)
Variable set_differs : Files → Files → exn + bool.      (* set(a) != set(b) *)
Variable reorder : Files → Files → Mat → exn + Mat.     (* lines 36-37 *)
Variable np_add : Mat → Mat → exn + Mat.
Variable np_sum : Mat → exn + Total.

Definition set_commonCompMat (m : Mat) (acc : Acc Mat Files) : Acc Mat Files :=
  mkAcc (Some m) (listFiles acc).

Definition set_listFiles (l : Files) (acc : Acc Mat Files) : Acc Mat Files :=
  mkAcc (commonCompMat acc) (Some l).

(** The body of the [with] (lines 23 to 41); the messages printed are not
    modelled. *)
Definition read_user (data : Archive) : M (Acc Mat Files) flow :=
  if negb (has_key "COMP_MAT" data && has_key "LIST_FILES" data) then ret Continue
  else
    let* compMatUser := attempt (getitem_COMP_MAT data) in
    let* compMatUser :=
      if has_key "LIST_FILES" data then
        let* listFilesForUser := attempt (getitem_LIST_FILES data) in
        let* acc := get_state in
        let listFiles' :=
          match listFiles acc with
          | Some l => l
          | None => listFilesForUser
          end in
        set_state (set_listFiles listFiles') ;;
        let* same := attempt (all_equal listFilesForUser listFiles') in
        if same : bool then ret compMatUser
        else
          let* differs := attempt (set_differs listFilesForUser listFiles') in
          if differs : bool then raise ValueError
          else attempt (reorder listFilesForUser listFiles' compMatUser)
      else ret compMatUser in
    let* acc := get_state in
    match commonCompMat acc with
    | Some m =>
        let* sum := attempt (np_add m compMatUser) in
        set_state (set_commonCompMat sum)
    | None => set_state (set_commonCompMat compMatUser)
    end ;;
    ret Fallthrough.

(** [with np.load(userMatrix, mmap_mode="r") as compMatData: ...]: the
    archive is closed on every way out of the body. *)
Definition with_archive (userMatrix : string) : M (Acc Mat Files) flow :=
  let* data := attempt (np_load userMatrix) in
  λ acc,
    match read_user data acc with
    | (OutOfFuel, acc') => (OutOfFuel, acc')
    | (r, acc') =>
        match archive_close data with
        | inl e => (Raise e, acc')
        | inr _ => (r, acc')
        end
    end.

(** [try: ... except Exception as ex: print(...)]. *)
Definition try_archive (userMatrix : string) : M (Acc Mat Files) flow :=
  try_except (with_archive userMatrix) (λ _, true) (λ _, ret Fallthrough).

(** One turn of the [for] loop (lines 15 to 44). *)
Definition visit (resultsPath : string) (fuel : nat) (file : string)
  : M (Acc Mat Files * World) unit :=
  if is_result_file file then
    let userMatrix := os_path_join resultsPath file in
    λ s,
      match __init__ os_path_split os_path_abspath userMatrix 20 (snd s) with
      | (Ok userMatrixLocker, w1) =>
          match lock lib fuel (userMatrixLocker, w1) with
          | (Ok _, (userMatrixLocker, w2)) =>
              match try_archive userMatrix (fst s) with
              | (Ok Continue, acc) => (Ok tt, (acc, w2))
              | (Ok Fallthrough, acc) =>
                  let '(r, (_, w3)) := unlock (userMatrixLocker, w2) in (r, (acc, w3))
              | (Raise e, acc) => (Raise e, (acc, w2))
              | (OutOfFuel, acc) => (OutOfFuel, (acc, w2))
              end
          | (Raise e, (_, w2)) => (Raise e, (fst s, w2))
          | (OutOfFuel, (_, w2)) => (OutOfFuel, (fst s, w2))
          end
      | (Raise e, w1) => (Raise e, (fst s, w1))
      | (OutOfFuel, w1) => (OutOfFuel, (fst s, w1))
      end
  else ret tt.

(** [computeCommonCompDict(resultsPath, dataPath, experiment)]; [None] is
    the empty dictionary.  [fallback] is the expression of line 49 that
    lists [dataPath] when [listFiles] is [None]. *)
Definition computeCommonCompDict (fallback : M World Files) (resultsPath : string)
           (fuel : nat) : M World (option (CompDict Mat Files Total)) :=
  let* names := os_listdir resultsPath in
  λ w,
    match for_each (visit resultsPath fuel) names (mkAcc None None, w) with
    | (Ok _, (acc, w1)) =>
        match commonCompMat acc with
        | Some m =>
            (let* total := attempt (np_sum m) in
             let* l := match listFiles acc with
                       | Some l => ret l
                       | None => fallback
                       end in
             ret (Some (mkCompDict m total l))) w1
        | None => (Ok None, w1)
        end
    | (Raise e, (_, w1)) => (Raise e, w1)
    | (OutOfFuel, (_, w1)) => (OutOfFuel, w1)
    end.

(** *** Reading one archive *)

(** The archive of [userMatrix] can be opened and closed, and lacks one of
    the two keys. *)
Definition incomplete (userMatrix : string) : Prop :=
  ∃ data, np_load userMatrix = inr data
          ∧ has_key "COMP_MAT" data && has_key "LIST_FILES" data = false
          ∧ ∃ u, archive_close data = inr u.

Definition returns_or_raises {A} (r : outcome A) : Prop :=
  match r with
  | OutOfFuel => False
  | _ => True
  end.

Lemma may_attempt {S A} (r : exn + A) : may (@attempt S A r) returns_or_raises.
Proof. intros s r' s' E. unfold attempt in E. destruct r; inversion E; exact I. Qed.

Lemma may_get_state {S} : may (@get_state S) returns_or_raises.
Proof. intros s r s' E. inversion E. exact I. Qed.

Lemma may_set_state {S} (f : S → S) : may (set_state f) returns_or_raises.
Proof. intros s r s' E. inversion E. exact I. Qed.

Definition falls_or_raises (r : outcome flow) : Prop :=
  match r with
  | Ok Fallthrough | Raise _ => True
  | _ => False
  end.

Local Ltac may_step :=
  lazymatch goal with
  | |- may (bind (attempt _) _) _ =>
      eapply may_bind; [apply may_attempt | simpl; auto | simpl; auto | intros ?]
  | |- may (bind get_state _) _ =>
      eapply may_bind; [apply may_get_state | simpl; auto | simpl; auto | intros ?]
  | |- may (bind (set_state _) _) _ =>
      eapply may_bind; [apply may_set_state | simpl; auto | simpl; auto | intros ?]
  | |- may (attempt _) _ => apply may_attempt
  | |- may (ret _) _ => apply may_ret; exact I
  | |- may (raise _) _ => apply may_raise_; exact I
  | |- may (if ?b then _ else _) _ => destruct b
  | |- may (match ?x with _ => _ end) _ => destruct x
  end.

(** With both keys in the archive, the body does not [continue]. *)
Lemma read_user_complete (data : Archive) :
  has_key "COMP_MAT" data && has_key "LIST_FILES" data = true →
  may (read_user data) falls_or_raises.
Proof.
  intros Hkeys. unfold read_user. rewrite Hkeys. cbn [negb].
  may_step.
  eapply may_bind with (F := returns_or_raises);
    [| simpl; auto | simpl; auto | intros compMatUser].
  { repeat may_step. }
  may_step.
  eapply may_bind with (F := returns_or_raises);
    [| simpl; auto | simpl; auto | intros _; apply may_ret; exact I].
  destruct (commonCompMat _); [|apply may_set_state].
  eapply may_bind; [apply may_attempt | simpl; auto | simpl; auto | intros sum].
  apply may_set_state.
Qed.

(** The [try] never raises: it ends by [continue] exactly for an
    incomplete archive, which leaves the accumulators as they were. *)
Lemma try_archive_ends (userMatrix : string) (acc : Acc Mat Files)
      (r : outcome flow) (acc' : Acc Mat Files) :
  try_archive userMatrix acc = (r, acc') →
  (r = Ok Continue ∧ incomplete userMatrix ∧ acc' = acc)
  ∨ (r = Ok Fallthrough ∧ ¬ incomplete userMatrix).
Proof.
  unfold try_archive, try_except, with_archive, bind, attempt.
  destruct (np_load userMatrix) as [e|data] eqn:Eload.
  { cbn. intros E. inversion E. right. split; [reflexivity|].
    intros (d & Hd & _). congruence. }
  destruct (has_key "COMP_MAT" data && has_key "LIST_FILES" data) eqn:Hkeys.
  - pose proof (read_user_complete data Hkeys) as Hmay.
    destruct (read_user data acc) as [r1 acc1] eqn:Eread.
    specialize (Hmay _ _ _ Eread).
    assert (Hno : ¬ incomplete userMatrix).
    { intros (d & Hd & Hk & _). rewrite Eload in Hd. inversion Hd; subst d. congruence. }
    destruct r1 as [[|]|e|]; try contradiction;
      destruct (archive_close data); cbn; intros E; inversion E; auto.
  - unfold read_user. rewrite Hkeys. cbn [negb]. unfold ret.
    destruct (archive_close data) as [e|u] eqn:Eclose; cbn; intros E; inversion E; subst.
    + right. split; [reflexivity|]. intros (d & Hd & _ & u & Hu).
      rewrite Eload in Hd. inversion Hd; subst d. congruence.
    + left. split; [reflexivity|]. split; [|reflexivity]. exists data. eauto.
Qed.

(** *** The lock around one archive *)

(** One turn of the loop on a result file whose lock was acquired.  If
    the archive is incomplete, the turn ends without [unlock]: the handle
    is still registered and the world is the one [lock] left.  In every
    other case, whatever the reading raised, [unlock] is called: the
    handle is not registered any more, and the turn returns, or raises the
    error of the deletion of the ticket. *)
Theorem incomplete_archive_keeps_the_lock (resultsPath : string) (fuel : nat) (file : string)
        (acc : Acc Mat Files) (w : World) (h : FileLocker) (w1 : World)
        (h1 : FileLocker) (w2 : World)
        (r : outcome unit) (acc' : Acc Mat Files) (w' : World) :
  is_result_file file = true →
  __init__ os_path_split os_path_abspath (os_path_join resultsPath file) 20 w = (Ok h, w1) →
  lock lib fuel (h, w1) = (Ok tt, (h1, w2)) →
  visit resultsPath fuel file (acc, w) = (r, (acc', w')) →
  (incomplete (os_path_join resultsPath file)
   ∧ r = Ok tt ∧ acc' = acc ∧ w' = w2 ∧ oid h ∈ INSTANCES_LOCKED w')
  ∨ (¬ incomplete (os_path_join resultsPath file)
     ∧ (∃ h3, unlock (h1, w2) = (r, (h3, w')))
     ∧ (oid h ∉ INSTANCES_LOCKED w')
     ∧ (r = Ok tt ∨ ∃ p, r = Raise (OSError (Remove p)))).
Proof.
  intros Hfile Einit Elock. unfold visit. rewrite Hfile. cbn [fst snd].
  rewrite Einit, Elock.
  destruct (try_archive (os_path_join resultsPath file) acc) as [rt acct] eqn:Etry.
  assert (Hoid : oid h1 = oid h).
  { symmetry. change (oid h = oid (fst (h1, w2))).
    eapply (lock_frame lib (λ x _ _, oid h = oid x));
      try exact Elock; try (intros; assumption); reflexivity. }
  destruct (try_archive_ends _ _ _ _ Etry) as [(-> & Hinc & ->) | (-> & Hno)].
  - intros E. inversion E; subst. left. repeat split; auto.
    apply (lock_leaves_registered lib fuel (h, w1) (Ok tt) (h1, w') Elock).
    + apply (init_spec _ _ _ _ _ _ _ Einit).
    + discriminate.
    + discriminate.
  - destruct (unlock (h1, w2)) as [ru [h3 w3]] eqn:Eu. intros E. inversion E; subst.
    right. split; [exact Hno|]. split; [eauto|].
    pose proof (unlock_spec _ _ _ Eu) as (Hh & Hreg & _).
    unfold unregistered in Hreg. cbn [fst snd] in Hh, Hreg. subst h3.
    split; [rewrite <- Hoid; exact Hreg|].
    pose proof (unlock_may _ _ _ Eu) as Hm.
    destruct r as [[]|e|]; [auto| |contradiction].
    destruct e as [| |c| | | | | | |]; try contradiction.
    destruct c; try contradiction. eauto.
Qed.

(** *** Where the list of files comes from *)

(** A common matrix has been set only after a list of files was. *)
Definition consistent (acc : Acc Mat Files) : Prop :=
  is_Some (commonCompMat acc) → is_Some (listFiles acc).

Definition has_list (acc : Acc Mat Files) : Prop := is_Some (listFiles acc).

Lemma has_list_consistent (acc : Acc Mat Files) : has_list acc → consistent acc.
Proof. intros H _. exact H. Qed.

Lemma inv_attempt {S A} (I : S → Prop) (r : exn + A) : invariant I (attempt r).
Proof. intros s r' s' HI E. unfold attempt in E. destruct r; inversion E; subst; exact HI. Qed.

Lemma inv_get_state {S} (I : S → Prop) : invariant I get_state.
Proof. intros s r s' HI E. inversion E; subst. exact HI. Qed.

Lemma has_list_set_commonCompMat (m : Mat) :
  invariant has_list (set_state (set_commonCompMat m)).
Proof. intros s r s' H E. inversion E; subst. exact H. Qed.

Local Ltac acc_step :=
  first [ apply inv_attempt
        | apply inv_get_state
        | apply has_list_set_commonCompMat
        | inv_step ].

Lemma read_user_consistent (data : Archive) : invariant consistent (read_user data).
Proof.
  unfold read_user.
  destruct (has_key "COMP_MAT" data); cbn [andb negb]; [|apply inv_ret].
  destruct (has_key "LIST_FILES" data); cbn [negb]; [|apply inv_ret].
  apply hoare_bind with (R := λ _, consistent).
  { intros s r s' Hs E. pose proof (inv_attempt consistent _ _ _ _ Hs E) as H.
    destruct r; exact H. }
  intros compMatUser0.
  apply hoare_bind with (R := λ _, has_list).
  - apply hoare_bind with (R := λ _, consistent).
    { intros s r s' Hs E. pose proof (inv_attempt consistent _ _ _ _ Hs E) as H.
      destruct r; exact H. }
    intros listFilesForUser.
    apply hoare_bind with (R := λ _, consistent).
    { intros s r s' Hs E. inversion E; subst. exact Hs. }
    intros acc.
    apply hoare_bind with (R := λ _, has_list).
    { intros s r s' Hs E. inversion E; subst. unfold has_list. cbn. eauto. }
    intros _.
    apply hoare_conseq with (P' := has_list) (Q' := λ _, has_list);
      [|auto|intros r s H; destruct r; auto using has_list_consistent].
    repeat acc_step.
  - intros compMatUser.
    apply hoare_conseq with (P' := has_list) (Q' := λ _, has_list);
      [|auto|intros; apply has_list_consistent; assumption].
    repeat acc_step.
Qed.

Lemma try_archive_consistent (userMatrix : string) :
  invariant consistent (try_archive userMatrix).
Proof.
  unfold try_archive. apply inv_try; [|intros e; apply inv_ret].
  unfold with_archive, bind, attempt. intros acc r acc' Hc E.
  destruct (np_load userMatrix) as [e|data]; [inversion E; subst; exact Hc|].
  destruct (read_user data acc) as [r1 acc1] eqn:Eread.
  pose proof (read_user_consistent data _ _ _ Hc Eread) as Hc1.
  destruct r1; destruct (archive_close data); inversion E; subst; exact Hc1.
Qed.

Lemma visit_consistent (resultsPath : string) (fuel : nat) (file : string) :
  invariant (λ s, consistent (fst s)) (visit resultsPath fuel file).
Proof.
  unfold visit. destruct (is_result_file file); [|apply inv_ret].
  intros [acc w] r [acc' w'] Hc E. cbn [fst snd] in *.
  destruct (__init__ _ _ _ _ w) as [[h|e|] w1]; [|inversion E; subst; exact Hc..].
  destruct (lock lib fuel (h, w1)) as [[u|e|] [h1 w2]]; [|inversion E; subst; exact Hc..].
  destruct (try_archive _ acc) as [rt acct] eqn:Etry.
  pose proof (try_archive_consistent _ _ _ _ Hc Etry) as Hct.
  destruct rt as [[|]|e|]; try (inversion E; subst; exact Hct).
  destruct (unlock (h1, w2)) as [ru [h3 w3]]. inversion E; subst. exact Hct.
Qed.

(** The result of the aggregation does not depend on the expression of
    line 49 that would list [dataPath]: whenever a common matrix has been
    summed, the list of files of the first matrix read is there to be
    returned, and the fallback is not evaluated. *)
Theorem fallback_is_never_evaluated (fallback1 fallback2 : M World Files)
        (resultsPath : string) (fuel : nat) (w : World) :
  computeCommonCompDict fallback1 resultsPath fuel w
  = computeCommonCompDict fallback2 resultsPath fuel w.
Proof.
  unfold computeCommonCompDict, bind at 1 4.
  destruct (os_listdir resultsPath w) as [[names|e|] w0]; try reflexivity.
  destruct (for_each (visit resultsPath fuel) names (mkAcc None None, w0))
    as [[u|e|] [acc w1]] eqn:E; try reflexivity.
  assert (Hc : consistent acc).
  { change (consistent (fst (acc, w1))).
    eapply (inv_for_each (λ s, consistent (fst s))); [|  |exact E].
    - intros file. apply visit_consistent.
    - intros [m Hm]. discriminate Hm. }
  destruct (commonCompMat acc) as [m|] eqn:Hm; [|reflexivity].
  destruct (Hc (ex_intro _ m Hm)) as [l Hl]. rewrite Hl. reflexivity.
Qed.

(** *** A lock that fails *)

Lemma for_each_app {S A} (body : A → M S unit) (l1 l2 : list A) (s s1 : S) :
  for_each body l1 s = (Ok tt, s1) →
  for_each body (l1 ++ l2) s = for_each body l2 s1.
Proof.
  revert s. induction l1 as [|x l1 IH]; intros s E; simpl in *.
  - inversion E. reflexivity.
  - unfold bind in *. destruct (body x s) as [[[]|e|] s2]; try discriminate.
    apply IH. exact E.
Qed.

(** [lock] is called outside the [try]: when it fails on one result file,
    with the timeout error say, the error ends the whole aggregation.  The
    files that follow are not visited and the matrices summed so far are
    lost to the caller. *)
Theorem failed_lock_aborts_the_aggregation (fallback : M World Files) (resultsPath : string)
        (fuel : nat) (w w0 : World) (visited rest : list string) (file : string)
        (acc : Acc Mat Files) (w1 : World) (h : FileLocker) (w2 : World)
        (e : exn) (s3 : Self) :
  os_listdir resultsPath w = (Ok (visited ++ file :: rest), w0) →
  for_each (visit resultsPath fuel) visited (mkAcc None None, w0) = (Ok tt, (acc, w1)) →
  is_result_file file = true →
  __init__ os_path_split os_path_abspath (os_path_join resultsPath file) 20 w1 = (Ok h, w2) →
  lock lib fuel (h, w2) = (Raise e, s3) →
  computeCommonCompDict fallback resultsPath fuel w = (Raise e, snd s3).
Proof.
  intros Elist Evisited Hfile Einit Elock.
  unfold computeCommonCompDict, bind at 1. rewrite Elist.
  rewrite (for_each_app _ _ _ _ _ Evisited). cbn [for_each]. unfold bind at 1.
  unfold visit at 1. rewrite Hfile. cbn [fst snd]. rewrite Einit, Elock.
  destruct s3 as [h3 w3]. reflexivity.
Qed.

End Aggregation.

(** *** On a results folder with one user's file *)

(** A stand-in for numpy: an archive is the list of its keys, a matrix a
    number, and no operation raises. *)
Definition toy_load (_ : string) : exn + list string := inr ["COMP_MAT"%string].

Definition toy_has_key (key : string) (data : list string) : bool := bool_decide (key ∈ data).

Definition toy_COMP_MAT (_ : list string) : exn + Z := inr 1.

Definition toy_LIST_FILES (_ : list string) : exn + list string := inr ["a.png"%string].

Definition toy_close (_ : list string) : exn + unit := inr tt.

Definition toy_all_equal (a b : list string) : exn + bool := inr (bool_decide (a = b)).

Definition toy_set_differs (a b : list string) : exn + bool := inr false.

Definition toy_reorder (_ _ : list string) (m : Z) : exn + Z := inr m.

Definition toy_add (a b : Z) : exn + Z := inr (a + b).

Definition toy_sum (m : Z) : exn + Z := inr m.

Definition toy_visit : string → nat → string → M (Acc Z (list string) * World) unit :=
  visit literal posix_join posix_split (λ p, p) (list string) Z (list string)
        toy_load toy_has_key toy_COMP_MAT toy_LIST_FILES toy_close
        toy_all_equal toy_set_differs toy_reorder toy_add.

Definition toy_incomplete : string → Prop :=
  incomplete (list string) toy_load toy_has_key toy_close.

(** The folder [/r] holds the file of user a, whose archive has no list
    of files; the script is the one of a solo acquisition by a handle
    built on the spot. *)
Definition results_world : World :=
  mkWorld (<[("/r", "compMat_a.npz") := 0]> ∅) ["/r"%string] [] 2 guarded [].

Definition user_handle : FileLocker := fresh 2 20 "/r" "compMat_a.npz".

Definition user_init : outcome FileLocker * World :=
  __init__ posix_split (λ p, p) "/r/compMat_a.npz" 20 results_world.

Definition user_lock : outcome unit * Self :=
  lock literal 5 (user_handle, snd user_init).

Definition user_visit : outcome unit * (Acc Z (list string) * World) :=
  toy_visit "/r" 5 "compMat_a.npz" (mkAcc None None, results_world).

Lemma incomplete_archive_keeps_the_lock_witness :
  (toy_incomplete "/r/compMat_a.npz"
   ∧ fst user_visit = Ok tt
   ∧ fst (snd user_visit) = mkAcc None None
   ∧ snd (snd user_visit) = snd (snd user_lock)
   ∧ oid user_handle ∈ INSTANCES_LOCKED (snd (snd user_visit)))
  ∨ (¬ toy_incomplete "/r/compMat_a.npz"
     ∧ (∃ h3, unlock (fst (snd user_lock), snd (snd user_lock))
              = (fst user_visit, (h3, snd (snd user_visit))))
     ∧ (oid user_handle ∉ INSTANCES_LOCKED (snd (snd user_visit)))
     ∧ (fst user_visit = Ok tt ∨ ∃ p, fst user_visit = Raise (OSError (Remove p)))).
Proof.
  refine (incomplete_archive_keeps_the_lock
            literal posix_join posix_split (λ p, p) (list string) Z (list string)
            toy_load toy_has_key toy_COMP_MAT toy_LIST_FILES toy_close
            toy_all_equal toy_set_differs toy_reorder toy_add
            "/r" 5 "compMat_a.npz" (mkAcc None None) results_world
            user_handle (snd user_init) (fst (snd user_lock)) (snd (snd user_lock))
            (fst user_visit) (fst (snd user_visit)) (snd (snd user_visit))
            _ _ _ _).
  - vm_compute. reflexivity.
  - vm_compute. reflexivity.
  - vm_compute. reflexivity.
  - vm_compute. reflexivity.
Defined.

(** In that folder the turn ends with the ticket of the handle still in
    the folder and the handle still registered. *)
Example incomplete_archive_leaves_the_ticket :
  fst user_visit = Ok tt
  ∧ files (snd (snd user_visit)) !! ("/r", "compMat_a.npz.000123") = Some (seconds 1000)
  ∧ INSTANCES_LOCKED (snd (snd user_visit)) = [2%nat]
  ∧ filter (λ ev, bool_decide (fst ev = Remove ("/r", "compMat_a.npz.000123")))
           (trace (snd (snd user_visit))) = [].
Proof. vm_compute. auto. Qed.

(** The same folder when the first listing of [lock] fails. *)
Definition locked_out_world : World :=
  mkWorld (<[("/r", "compMat_a.npz") := 0]> ∅) ["/r"%string] [] 2
          [ rd 0;                       (* os.listdir(resultsPath) *)
            rd 0; rd 0;                 (* the two isdir of the constructor *)
            rd (seconds 1000);          (* time.time(): start *)
            EnvStep [] true 0 ]         (* os.listdir: fails *)
          [].

Definition locked_out_listing : outcome (list string) * World :=
  os_listdir "/r" locked_out_world.

Definition locked_out_init : outcome FileLocker * World :=
  __init__ posix_split (λ p, p) "/r/compMat_a.npz" 20 (snd locked_out_listing).

Definition locked_out_lock : outcome unit * Self :=
  lock literal 5 (user_handle, snd locked_out_init).

Lemma failed_lock_aborts_the_aggregation_witness :
  computeCommonCompDict literal posix_join posix_split (λ p, p)
                        (list string) Z (list string) Z
                        toy_load toy_has_key toy_COMP_MAT toy_LIST_FILES toy_close
                        toy_all_equal toy_set_differs toy_reorder toy_add toy_sum
                        (ret []) "/r" 5 locked_out_world
  = (Raise (OSError (Listdir "/r")), snd (snd locked_out_lock)).
Proof.
  refine (failed_lock_aborts_the_aggregation
            literal posix_join posix_split (λ p, p) (list string) Z (list string) Z
            toy_load toy_has_key toy_COMP_MAT toy_LIST_FILES toy_close
            toy_all_equal toy_set_differs toy_reorder toy_add toy_sum
            (ret []) "/r" 5 locked_out_world (snd locked_out_listing)
            [] [] "compMat_a.npz" (mkAcc None None) (snd locked_out_listing)
            user_handle (snd locked_out_init) (OSError (Listdir "/r")) (snd locked_out_lock)
            _ _ _ _ _).
  - vm_compute. reflexivity.
  - reflexivity.
  - vm_compute. reflexivity.
  - vm_compute. reflexivity.
  - vm_compute. reflexivity.
Defined.

(** * Recording one comparison (activepwcanalysis.py)

    [updateCompMat(idx, compMat)] adds one to the entry [idx[0], idx[1]]
    of the comparison matrix, a two-dimensional numpy array, and returns
    the matrix.  The matrix is a list of rows.  Its entries are numbers of
    the array's element type, which the function does not fix: the type
    and what [+= 1] makes of an entry in its arithmetic (a fixed-width
    integer wraps around, a float rounds) are parameters. *)

Inductive index_error : Type :=
| TupleIndexError      (* idx[1] on a sequence of one element *)
| ArrayIndexError.     (* compMat[a, b] with a or b out of bounds *)

(** The position an index designates on an axis of [n] entries: numpy
    counts a negative index from the end. *)
Definition axis_index (n : nat) (i : Z) : option nat :=
  if (0 <=? i) && (i <? Z.of_nat n) then Some (Z.to_nat i)
  else if (- Z.of_nat n <=? i) && (i <? 0) then Some (Z.to_nat (Z.of_nat n + i))
  else None.

Lemma axis_index_lt (n : nat) (i : Z) (k : nat) : axis_index n i = Some k → (k < n)%nat.
Proof.
  unfold axis_index. intros H.
  destruct (Z.leb_spec 0 i), (Z.ltb_spec i (Z.of_nat n)); simpl in H;
    try (inversion H; subst; lia);
    destruct (Z.leb_spec (- Z.of_nat n) i), (Z.ltb_spec i 0); simpl in H;
    try discriminate; inversion H; subst; lia.
Qed.

Section UpdateCompMat.

(** The element type of the array, and [x + 1] stored back into it. *)
Variable E : Type.
Variable add_one : E → E.

(** [if idx: compMat[idx[0], idx[1]] += 1] and [return compMat]; an empty
    [idx] is false. *)
Definition updateCompMat (idx : list Z) (compMat : list (list E))
  : index_error + list (list E) :=
  match idx with
  | [] => inr compMat
  | [_] => inl TupleIndexError
  | a :: b :: _ =>
      match axis_index (length compMat) a with
      | None => inl ArrayIndexError
      | Some i =>
          match compMat !! i with
          | None => inl ArrayIndexError
          | Some row =>
              match axis_index (length row) b with
              | None => inl ArrayIndexError
              | Some j =>
                  match row !! j with
                  | None => inl ArrayIndexError
                  | Some v => inr (<[i := <[j := add_one v]> row]> compMat)
                  end
              end
          end
      end
  end.

(** The entry of row [i] and column [j]. *)
Definition entry (compMat : list (list E)) (i j : nat) : option E :=
  match compMat !! i with
  | Some row => row !! j
  | None => None
  end.

Lemma entry_insert_eq (compMat : list (list E)) (row : list E) (i j : nat) (v x : E) :
  compMat !! i = Some row → row !! j = Some v →
  entry (<[i := <[j := x]> row]> compMat) i j = Some x.
Proof.
  intros Hrow Hv. unfold entry.
  rewrite list_lookup_insert_eq by (eapply lookup_lt_Some; exact Hrow).
  apply list_lookup_insert_eq. eapply lookup_lt_Some. exact Hv.
Qed.

Lemma entry_insert_ne (compMat : list (list E)) (row : list E) (i j i' j' : nat) (x : E) :
  compMat !! i = Some row → (i', j') ≠ (i, j) →
  entry (<[i := <[j := x]> row]> compMat) i' j' = entry compMat i' j'.
Proof.
  intros Hrow Hne. unfold entry. destruct (decide (i = i')) as [<-|Hi].
  - rewrite list_lookup_insert_eq by (eapply lookup_lt_Some; exact Hrow).
    rewrite Hrow. apply list_lookup_insert_ne. congruence.
  - rewrite list_lookup_insert_ne by exact Hi. reflexivity.
Qed.

(** A call that returns leaves the shape of the matrix as it was.  With an
    empty [idx] it leaves the matrix as it was.  Otherwise it changes one
    entry: the one at row [idx[0]] and column [idx[1]], each counted from
    the end when negative, becomes its value plus one in the arithmetic
    of the element type, and every other entry stays. *)
Theorem recorded_comparison_changes_one_entry (idx : list Z)
        (compMat compMat' : list (list E)) :
  updateCompMat idx compMat = inr compMat' →
  length <$> compMat' = length <$> compMat
  ∧ match idx with
    | [] => compMat' = compMat
    | [_] => False
    | a :: b :: _ =>
        ∃ i j row v,
          axis_index (length compMat) a = Some i
          ∧ compMat !! i = Some row
          ∧ axis_index (length row) b = Some j
          ∧ entry compMat i j = Some v
          ∧ entry compMat' i j = Some (add_one v)
          ∧ ∀ i' j', (i', j') ≠ (i, j) → entry compMat' i' j' = entry compMat i' j'
    end.
Proof.
  unfold updateCompMat. destruct idx as [|a [|b rest]]; [|discriminate|].
  { intros [= <-]. split; reflexivity. }
  destruct (axis_index (length compMat) a) as [i|] eqn:Ha; [|discriminate].
  destruct (compMat !! i) as [row|] eqn:Hrow; [|discriminate].
  destruct (axis_index (length row) b) as [j|] eqn:Hb; [|discriminate].
  destruct (row !! j) as [v|] eqn:Hv; [|discriminate].
  intros [= <-]. split.
  - rewrite list_fmap_insert, length_insert. apply list_insert_id.
    rewrite list_lookup_fmap, Hrow. reflexivity.
  - exists i, j, row, v. repeat split; try assumption.
    + unfold entry. rewrite Hrow. exact Hv.
    + exact (entry_insert_eq compMat row i j v (add_one v) Hrow Hv).
    + intros i' j' Hne. exact (entry_insert_ne compMat row i j i' j' (add_one v) Hrow Hne).
Qed.

(** Within the bounds of the matrix, negative indices included, the
    comparison is recorded. *)
Lemma updateCompMat_in_bounds (a b : Z) (rest : list Z) (compMat : list (list E))
      (i : nat) (row : list E) :
  axis_index (length compMat) a = Some i →
  compMat !! i = Some row →
  is_Some (axis_index (length row) b) →
  ∃ compMat', updateCompMat (a :: b :: rest) compMat = inr compMat'.
Proof.
  intros Ha Hrow [j Hb]. unfold updateCompMat. rewrite Ha, Hrow, Hb.
  destruct (lookup_lt_is_Some_2 row j (axis_index_lt _ _ _ Hb)) as [v Hv].
  rewrite Hv. eauto.
Qed.

End UpdateCompMat.

(** [x + 1] in an array of 64-bit signed integers, which wraps around. *)
Definition int64_add_one (v : Z) : Z := (v + 1 + 2 ^ 63) mod 2 ^ 64 - 2 ^ 63.

Example updateCompMat_samples :
  updateCompMat Z int64_add_one [0; 1] [[0; 0]; [0; 0]] = inr [[0; 1]; [0; 0]]
  ∧ updateCompMat Z int64_add_one [-1; -2] [[0; 0]; [3; 0]] = inr [[0; 0]; [4; 0]]
  ∧ updateCompMat Z int64_add_one [1; 1] [[0; 0]; [0; 2 ^ 63 - 1]]
    = inr [[0; 0]; [0; - 2 ^ 63]]
  ∧ updateCompMat Z int64_add_one [] [[0; 0]; [0; 0]] = inr [[0; 0]; [0; 0]]
  ∧ updateCompMat Z int64_add_one [2; 0] [[0; 0]; [0; 0]] = inl ArrayIndexError
  ∧ updateCompMat Z int64_add_one [0; -3] [[0; 0]; [0; 0]] = inl ArrayIndexError
  ∧ updateCompMat Z int64_add_one [1] [[0; 0]; [0; 0]] = inl TupleIndexError.
Proof. vm_compute. repeat split; reflexivity. Qed.

Lemma recorded_comparison_changes_one_entry_witness :
  length <$> [[0; 0]; [4; 0]] = length <$> [[0; 0]; [3; 0]]
  ∧ ∃ i j row v,
      axis_index (length [[0; 0]; [3; 0]]) (-1) = Some i
      ∧ [[0; 0]; [3; 0]] !! i = Some row
      ∧ axis_index (length row) (-2) = Some j
      ∧ entry Z [[0; 0]; [3; 0]] i j = Some v
      ∧ entry Z [[0; 0]; [4; 0]] i j = Some (int64_add_one v)
      ∧ ∀ i' j', (i', j') ≠ (i, j) →
                 entry Z [[0; 0]; [4; 0]] i' j' = entry Z [[0; 0]; [3; 0]] i' j'.
Proof.
  apply (recorded_comparison_changes_one_entry Z int64_add_one [-1; -2]
           [[0; 0]; [3; 0]] [[0; 0]; [4; 0]]).
  vm_compute. reflexivity.
Defined.
